(** * cerberus.errors: error classification, error trees and the basic
    error handler.

    A shallow embedding of [cerberus/errors.py].  Python values become
    Rocq values, exceptions become an explicit error type, and the
    handler's working dictionary is threaded through the functions that
    mutate it in the source. *)

From Stdlib Require Import ZArith String Ascii DecimalString Permutation.
From stdpp Require Import prelude strings sorting.

Set Warnings "-register-all".
Open Scope Z_scope.

(** ** Python values that travel inside an error *)

(** A path segment (a [FieldName]): a field name or a sequence index. *)
Inductive seg :=
| SStr (s : string)
| SInt (i : Z).

Abbreviation DocumentPath := (list seg).

#[global] Instance seg_eq_dec : EqDecision seg.
Proof. solve_decision. Defined.

(** The payloads ([constraint], [value], entries of [info]) the
    handler only ever renders with [str()]. *)
Inductive pyval :=
| PNone
| PStr (s : string)
| PInt (i : Z).

(** [str(i)] for an integer. *)
Definition str_of_int (i : Z) : string := NilZero.string_of_int (Z.to_int i).

Definition str_of_pyval (v : pyval) : string :=
  match v with
  | PNone => "None"
  | PStr s => s
  | PInt i => str_of_int i
  end.

Definition str_of_seg (k : seg) : string :=
  match k with
  | SStr s => s
  | SInt i => str_of_int i
  end.

(** [str(x)] where [x] is a segment or [None] (the [field] property). *)
Definition str_of_field (f : option seg) : string :=
  match f with
  | None => "None"
  | Some k => str_of_seg k
  end.

(** [str(r)] where [r] is a rule name or [None]. *)
Definition str_of_rule (r : option string) : string :=
  match r with
  | None => "None"
  | Some s => s
  end.

(** ** Exceptions *)

Inductive exn :=
| IndexError
| KeyError
| TypeError
| AttributeError
| RecursionError.

(** The result of an expression that may raise. *)
Inductive result (A : Type) :=
| Ok (a : A)
| Raise (x : exn).
Arguments Ok {A} a.
Arguments Raise {A} x.

Definition bind {A B} (r : result A) (f : A -> result B) : result B :=
  match r with
  | Ok a => f a
  | Raise x => Raise x
  end.

Notation "'let!' x ':=' r 'in' k" := (bind r (fun x => k))
  (at level 10, x name, r at level 100, k at level 200).

(** A [for] loop whose body updates an accumulator and may raise. *)
Fixpoint for_each {S A} (body : S -> A -> result S) (l : list A) (s : S)
  : result S :=
  match l with
  | [] => Ok s
  | a :: l' => let! s' := body s a in for_each body l' s'
  end.

(** [f] applied to every element in order, up to the first exception. *)
Fixpoint map_result {A B} (f : A -> result B) (l : list A) : result (list B) :=
  match l with
  | [] => Ok []
  | a :: l' =>
      let! b := f a in
      let! bs := map_result f l' in
      Ok (b :: bs)
  end.

(** ** Python sequences *)

(** [l[start:]] with Python's reading of a negative [start]. *)
Definition slice_from {A} (start : Z) (l : list A) : list A :=
  if 0 <=? start then drop (Z.to_nat start) l
  else drop (Z.to_nat (Z.of_nat (length l) + start)) l.

(** [l[i]] for a non-negative index. *)
Definition index {A} (l : list A) (i : nat) : result A :=
  match l !! i with
  | Some a => Ok a
  | None => Raise IndexError
  end.

(** [l.pop()]: the list without its last element, and that element. *)
Definition pop {A} (l : list A) : result (list A * A) :=
  match last l with
  | Some a => Ok (removelast l, a)
  | None => Raise IndexError
  end.

(** [f] applied to [l[-1]], its result taking the place of that element. *)
Definition on_last {A} (f : A -> result (list A)) : list A -> result (list A) :=
  fix go (l : list A) : result (list A) :=
    match l with
    | [] => Raise IndexError
    | [x] => f x
    | x :: rest => let! rest' := go rest in Ok (x :: rest')
    end.

(** ** Insertion-ordered dictionaries *)

Section Dict.
Context {K V : Type} `{EqDecision K}.

Definition dict := list (K * V).

Fixpoint dict_get (k : K) (d : dict) : option V :=
  match d with
  | [] => None
  | (k', v) :: d' => if decide (k = k') then Some v else dict_get k d'
  end.

(** [k in d] *)
Definition dict_has (k : K) (d : dict) : bool :=
  match dict_get k d with
  | Some _ => true
  | None => false
  end.

(** [d[k] = v]: an existing key keeps its place, a new one goes last. *)
Fixpoint dict_set (k : K) (v : V) (d : dict) : dict :=
  match d with
  | [] => [(k, v)]
  | (k', v') :: d' =>
      if decide (k = k') then (k', v) :: d' else (k', v') :: dict_set k v d'
  end.

(** [d.update(other)] *)
Definition dict_update (d other : dict) : dict :=
  fold_left (fun acc kv => dict_set (fst kv) (snd kv) acc) other d.

(** [for key in d: d[key] = f(d[key])], in key order. *)
Definition dict_map_values (f : V -> result V) : dict -> result dict :=
  fix go (d : dict) : result dict :=
    match d with
    | [] => Ok []
    | (k, v) :: d' =>
        let! v' := f v in
        let! d'' := go d' in
        Ok ((k, v') :: d'')
    end.

End Dict.
Arguments dict : clear implicits.

(** [del d[k]] *)
Definition dict_del {K V} `{EqDecision K} (k : K) (d : dict K V) : result (dict K V) :=
  if dict_has k d then Ok (filter (fun kv : K * V => fst kv <> k) d)
  else Raise KeyError.


(** ** Error definitions *)

Module ErrorDefinition.

Record t := mk { code : Z; rule : option string }.

End ErrorDefinition.

Definition CUSTOM := ErrorDefinition.mk 0x00 None.
Definition DOCUMENT_MISSING_def := ErrorDefinition.mk 0x01 None.
Definition REQUIRED_FIELD := ErrorDefinition.mk 0x02 (Some "required"%string).
Definition UNKNOWN_FIELD := ErrorDefinition.mk 0x03 None.
Definition DEPENDENCIES_FIELD := ErrorDefinition.mk 0x04 (Some "dependencies"%string).
Definition DEPENDENCIES_FIELD_VALUE := ErrorDefinition.mk 0x05 (Some "dependencies"%string).
Definition EXCLUDES_FIELD := ErrorDefinition.mk 0x06 (Some "excludes"%string).
Definition DOCUMENT_FORMAT_def := ErrorDefinition.mk 0x21 None.
Definition EMPTY := ErrorDefinition.mk 0x22 (Some "empty"%string).
Definition NULLABLE := ErrorDefinition.mk 0x23 (Some "nullable"%string).
Definition TYPE := ErrorDefinition.mk 0x24 (Some "type"%string).
Definition ITEMS_LENGTH := ErrorDefinition.mk 0x26 (Some "items"%string).
Definition MIN_LENGTH := ErrorDefinition.mk 0x27 (Some "minlength"%string).
Definition MAX_LENGTH := ErrorDefinition.mk 0x28 (Some "maxlength"%string).
Definition REGEX_MISMATCH := ErrorDefinition.mk 0x41 (Some "regex"%string).
Definition MIN_VALUE := ErrorDefinition.mk 0x42 (Some "min"%string).
Definition MAX_VALUE := ErrorDefinition.mk 0x43 (Some "max"%string).
Definition UNALLOWED_VALUE := ErrorDefinition.mk 0x44 (Some "allowed"%string).
Definition UNALLOWED_VALUES := ErrorDefinition.mk 0x45 (Some "allowed"%string).
Definition FORBIDDEN_VALUE := ErrorDefinition.mk 0x46 (Some "forbidden"%string).
Definition FORBIDDEN_VALUES := ErrorDefinition.mk 0x47 (Some "forbidden"%string).
Definition MISSING_MEMBERS := ErrorDefinition.mk 0x48 (Some "contains"%string).
Definition NORMALIZATION := ErrorDefinition.mk 0x60 None.
Definition COERCION_FAILED := ErrorDefinition.mk 0x61 (Some "coerce"%string).
Definition RENAMING_FAILED := ErrorDefinition.mk 0x62 (Some "rename_handler"%string).
Definition READONLY_FIELD := ErrorDefinition.mk 0x63 (Some "readonly"%string).
Definition SETTING_DEFAULT_FAILED := ErrorDefinition.mk 0x64 (Some "default_setter"%string).
Definition ERROR_GROUP := ErrorDefinition.mk 0x80 None.
Definition SCHEMA := ErrorDefinition.mk 0x81 (Some "schema"%string).
Definition ITEMSRULES := ErrorDefinition.mk 0x82 (Some "itemsrules"%string).
Definition KEYSRULES := ErrorDefinition.mk 0x83 (Some "keysrules"%string).
Definition VALUESRULES := ErrorDefinition.mk 0x84 (Some "valuesrules"%string).
Definition ITEMS := ErrorDefinition.mk 0x8F (Some "items"%string).
Definition LOGICAL := ErrorDefinition.mk 0x90 None.
Definition NONEOF := ErrorDefinition.mk 0x91 (Some "noneof"%string).
Definition ONEOF := ErrorDefinition.mk 0x92 (Some "oneof"%string).
Definition ANYOF := ErrorDefinition.mk 0x93 (Some "anyof"%string).
Definition ALLOF := ErrorDefinition.mk 0x94 (Some "allof"%string).

(** Every [ErrorDefinition(...)] the module constructs, in source order.
    ([DOCUMENT_MISSING] and [DOCUMENT_FORMAT] are rebound to message
    strings on the line after their definition; the definitions they
    first held are listed under a [_def] name.) *)
Definition error_definitions : list ErrorDefinition.t :=
  [ CUSTOM; DOCUMENT_MISSING_def; REQUIRED_FIELD; UNKNOWN_FIELD;
    DEPENDENCIES_FIELD; DEPENDENCIES_FIELD_VALUE; EXCLUDES_FIELD;
    DOCUMENT_FORMAT_def; EMPTY; NULLABLE; TYPE; ITEMS_LENGTH; MIN_LENGTH;
    MAX_LENGTH; REGEX_MISMATCH; MIN_VALUE; MAX_VALUE; UNALLOWED_VALUE;
    UNALLOWED_VALUES; FORBIDDEN_VALUE; FORBIDDEN_VALUES; MISSING_MEMBERS;
    NORMALIZATION; COERCION_FAILED; RENAMING_FAILED; READONLY_FIELD;
    SETTING_DEFAULT_FAILED; ERROR_GROUP; SCHEMA; ITEMSRULES; KEYSRULES;
    VALUESRULES; ITEMS; LOGICAL; NONEOF; ONEOF; ANYOF; ALLOF ].

(** ** Validation errors *)

(** An entry of the [info] tuple: a plain value, or a list of errors
    (the child errors of a bulk validation sit at [info[0]]). *)
Inductive info_item (E : Type) :=
| IVal (v : pyval)
| IErrors (errors : list E).
Arguments IVal {E} v.
Arguments IErrors {E} errors.

(** The attributes of an error object.  [E] is what a list of child
    errors holds: errors themselves when an error is a value, references
    when errors are objects in a store. *)
Record error_attrs (E : Type) := mkAttrs {
  document_path : DocumentPath;
  schema_path : DocumentPath;
  code : Z;
  rule : option string;
  constraint : pyval;
  value : pyval;
  info : list (info_item E)
}.
Arguments mkAttrs {E}.
Arguments document_path {E}.
Arguments schema_path {E}.
Arguments code {E}.
Arguments rule {E}.
Arguments constraint {E}.
Arguments value {E}.
Arguments info {E}.

Inductive ValidationError :=
| Error (attrs : error_attrs ValidationError).

Definition attrs (e : ValidationError) : error_attrs ValidationError :=
  match e with Error a => a end.
Coercion attrs : ValidationError >-> error_attrs.

Definition mkValidationError (document_path schema_path : DocumentPath)
    (code : Z) (rule : option string) (constraint value : pyval)
    (info : list (info_item ValidationError)) : ValidationError :=
  Error (mkAttrs document_path schema_path code rule constraint value info).

(** [error.document_path = dp] *)
Definition set_document_path {E} (e : error_attrs E) (dp : DocumentPath)
  : error_attrs E :=
  mkAttrs dp (schema_path e) (code e) (rule e) (constraint e) (value e) (info e).

(** [bool(n)] for an integer. *)
Definition truthy (n : Z) : bool := negb (n =? 0).

(** [is_group_error]: [bool(self.code & ERROR_GROUP.code)] *)
Definition is_group_error {E} (e : error_attrs E) : bool :=
  truthy (Z.land (code e) (ErrorDefinition.code ERROR_GROUP)).

(** [is_logic_error]: [bool(self.code & LOGICAL.code - ERROR_GROUP.code)];
    the subtraction binds tighter than [&]. *)
Definition is_logic_error {E} (e : error_attrs E) : bool :=
  truthy (Z.land (code e)
            (ErrorDefinition.code LOGICAL - ErrorDefinition.code ERROR_GROUP)).

(** [is_normalization_error] *)
Definition is_normalization_error {E} (e : error_attrs E) : bool :=
  truthy (Z.land (code e) (ErrorDefinition.code NORMALIZATION)).

(** [child_errors]: [self.info[0] if self.is_group_error else None] *)
Definition child_errors {E} (e : error_attrs E)
  : result (option (info_item E)) :=
  if is_group_error e then let! x := index (info e) 0 in Ok (Some x)
  else Ok None.

(** What [for error in x] iterates over when [x] is the value of
    [child_errors].  [None] and integers are not iterable; a string
    yields its characters, whose first use as an error (an attribute
    access in every loop of this module) raises [AttributeError]. *)
Definition iterate {E} (x : option (info_item E)) : result (list E) :=
  match x with
  | None => Raise TypeError
  | Some (IErrors errors) => Ok errors
  | Some (IVal (PStr EmptyString)) => Ok []
  | Some (IVal (PStr (String _ _))) => Raise AttributeError
  | Some (IVal _) => Raise TypeError
  end.

(** [result[i].append(error)] on a [defaultdict(ErrorList)]. *)
Definition bucket_append {A} (i : seg) (a : A) (d : dict seg (list A))
  : dict seg (list A) :=
  match dict_get i d with
  | Some l => dict_set i (l ++ [a]) d
  | None => dict_set i [a] d
  end.

(** The loop of [definitions_errors], over the children paired with
    their position in [child_errors]: a bucket holds references to the
    child objects, and a position is what identifies a child of a value. *)
Definition bucket_children (parent_schema_path : DocumentPath)
    (children : list (nat * ValidationError))
  : result (dict seg (list (nat * ValidationError))) :=
  for_each
    (fun d (kc : nat * ValidationError) =>
       let! i := index (schema_path (snd kc)) (length parent_schema_path) in
       Ok (bucket_append i kc d))
    children [].

(** [definitions_errors]: [None] unless the error is a logic error,
    else the child errors bucketed by the schema path segment that
    follows the error's own schema path, buckets in order of first
    occurrence. *)
Definition definitions_errors (e : ValidationError)
  : result (option (dict seg (list (nat * ValidationError)))) :=
  if negb (is_logic_error e) then Ok None
  else
    let! c := child_errors e in
    let! children := iterate c in
    let! d := bucket_children (schema_path e) (imap pair children) in
    Ok (Some d).

(** [field]: the last segment of the document path, or [None]. *)
Definition field {E} (e : error_attrs E) : option seg :=
  match document_path e with
  | [] => None
  | _ => last (document_path e)
  end.

(** Hashing and comparison call Python built-ins on tuples and
    integers; they are taken as given. *)
Section Hashing.
Variable hash_tuple : DocumentPath -> Z.
Variable hash_int : Z -> Z.

(** [__hash__] *)
Definition __hash__ (e : ValidationError) : Z :=
  Z.lxor (Z.lxor (hash_tuple (document_path e)) (hash_tuple (schema_path e)))
    (hash_int (code e)).

(** [hash(e)]: the built-in never returns -1. *)
Definition hash (e : ValidationError) : Z :=
  if __hash__ e =? -1 then -2 else __hash__ e.

(** [__eq__] *)
Definition __eq__ (e other : ValidationError) : bool :=
  hash e =? hash other.

End Hashing.

Section Ordering.
(** [cerberus.utils.compare_paths_lt], which is not part of this module. *)
Variable compare_paths_lt : DocumentPath -> DocumentPath -> bool.

(** [__lt__] *)
Definition __lt__ (e other : ValidationError) : bool :=
  if negb (bool_decide (document_path e = document_path other))
  then compare_paths_lt (document_path e) (document_path other)
  else compare_paths_lt (schema_path e) (schema_path other).

End Ordering.

(** ** The report of the basic error handler *)

(** An element of the list kept for a field: a formatted message or a
    dictionary of sub-fields (the source keeps one as the last element). *)
Inductive item :=
| Msg (s : string)
| Sub (d : dict seg (list item)).

Definition report := dict seg (list item).

(** ** Message templates *)

(** A piece of a [str.format] template: literal text, a positional
    field [{n}], or one of the named fields the handler passes. *)
Inductive fragment :=
| Lit (s : string)
| Positional (n : nat)
| Named_constraint
| Named_field
| Named_value.

Definition template := list fragment.

Module BasicErrorHandler.

(** The class attribute [messages]. *)
Definition messages : dict Z template := [
  (0x00, [Positional 0]);
  (0x01, [Lit "document is missing"]);
  (0x02, [Lit "required field"]);
  (0x03, [Lit "unknown field"]);
  (0x04, [Lit "field '"; Positional 0; Lit "' is required"]);
  (0x05, [Lit "depends on these values: "; Named_constraint]);
  (0x06, [Positional 0; Lit " must not be present with '"; Named_field; Lit "'"]);
  (0x21, [Lit "'"; Positional 0; Lit "' is not a document, must be a dict"]);
  (0x22, [Lit "empty values not allowed"]);
  (0x23, [Lit "null value not allowed"]);
  (0x24, [Lit "must be of "; Named_constraint; Lit " type"]);
  (0x26, [Lit "length of list should be "; Named_constraint; Lit ", it is "; Positional 0]);
  (0x27, [Lit "min length is "; Named_constraint]);
  (0x28, [Lit "max length is "; Named_constraint]);
  (0x41, [Lit "value does not match regex '"; Named_constraint; Lit "'"]);
  (0x42, [Lit "min value is "; Named_constraint]);
  (0x43, [Lit "max value is "; Named_constraint]);
  (0x44, [Lit "unallowed value "; Named_value]);
  (0x45, [Lit "unallowed values "; Positional 0]);
  (0x46, [Lit "unallowed value "; Named_value]);
  (0x47, [Lit "unallowed values "; Positional 0]);
  (0x48, [Lit "missing members "; Positional 0]);
  (0x61, [Lit "field '"; Named_field; Lit "' cannot be coerced: "; Positional 0]);
  (0x62, [Lit "field '"; Named_field; Lit "' cannot be renamed: "; Positional 0]);
  (0x63, [Lit "field is read-only"]);
  (0x64, [Lit "default value for '"; Named_field; Lit "' cannot be set: "; Positional 0]);
  (0x81, [Lit "mapping doesn't validate subschema: "; Positional 0]);
  (0x82, [Lit "one or more sequence-items don't validate: "; Positional 0]);
  (0x83, [Lit "one or more keys of a mapping  don't validate: "; Positional 0]);
  (0x84, [Lit "one or more values in a mapping don't validate: "; Positional 0]);
  (0x85, [Lit "one or more sequence-items don't validate: "; Positional 0]);
  (0x91, [Lit "one or more definitions validate"]);
  (0x92, [Lit "none or more than one rule validate"]);
  (0x93, [Lit "no definitions validate"]);
  (0x94, [Lit "one or more definitions don't validate"])
]%string.

(** What a handler method leaves behind: the working tree, and the
    exception when the method raised. *)
Inductive outcome :=
| Done (tree : report)
| Failed (x : exn) (tree : report).

Definition tree_of (o : outcome) : report :=
  match o with
  | Done t => t
  | Failed _ t => t
  end.

(** A [for] loop over errors whose body works on the handler's tree. *)
Fixpoint for_errors {A} (body : report -> A -> outcome) (l : list A)
    (tree : report) : outcome :=
  match l with
  | [] => Done tree
  | a :: l' =>
      match body tree a with
      | Done tree' => for_errors body l' tree'
      | Failed x tree' => Failed x tree'
      end
  end.

(** [deepcopy(error)]: a value is its own copy.  (The copy as an object
    distinct from the caller's is the subject of [Store] below, and
    what the copy asks of the interpreter's recursion depth that of
    [deepcopy_within].) *)
Definition deepcopy (error : ValidationError) : ValidationError := error.

(** The recursion depth an error asks of the interpreter: the nesting
    depth of its child errors. *)
Fixpoint height (e : ValidationError) : nat :=
  match e with
  | Error a =>
      match info a with
      | IErrors errors :: _ => S (list_max (map height errors))
      | _ => 0%nat
      end
  end.

(** [error.child_errors[k] = child], the list object staying in place. *)
Definition set_child (k : nat) (child : ValidationError) (e : ValidationError)
  : ValidationError :=
  match info e with
  | IErrors errors :: rest =>
      mkValidationError (document_path e) (schema_path e) (code e) (rule e)
        (constraint e) (value e) (IErrors (<[k := child]> errors) :: rest)
  | _ => e
  end.

(** The error with [children] as the list of its child errors. *)
Definition with_children (e : ValidationError) (children : list ValidationError)
  : ValidationError :=
  match info e with
  | IErrors _ :: rest =>
      mkValidationError (document_path e) (schema_path e) (code e) (rule e)
        (constraint e) (value e) (IErrors children :: rest)
  | _ => e
  end.

(** The recursion depth a deep copy of an error asks of the
    interpreter: how deep errors are nested in the lists of [info]. *)
Fixpoint nesting (e : ValidationError) : nat :=
  match e with
  | Error a =>
      list_max
        (map (fun item =>
                match item with
                | IVal _ => 0%nat
                | IErrors errors => list_max (map (fun c => S (nesting c)) errors)
                end) (info a))
  end.

(** [deepcopy(error)] with room for [levels] levels of nesting: the
    copy goes through the lists of errors in [info], and running out of
    room is [RecursionError].  As a value, the copy is the error. *)
Fixpoint deepcopy_nested (levels : nat) (error : ValidationError)
  : result ValidationError :=
  match levels with
  | O => Raise RecursionError
  | S levels =>
      let! items :=
        map_result
          (fun item =>
             match item with
             | IVal v => Ok (IVal v)
             | IErrors errors =>
                 let! errors := map_result (deepcopy_nested levels) errors in
                 Ok (IErrors errors)
             end) (info error) in
      Ok (mkValidationError (document_path error) (schema_path error)
            (code error) (rule error) (constraint error) (value error) items)
  end.

(** [deepcopy(error)] with [depth] as the recursion depth left, in
    frames.  [copy.deepcopy] is not part of this module: from the copy
    of an error to the copy of an error in a list of its [info] it
    stacks up [copy_frames] calls of its own (in CPython 3.11 nine:
    [deepcopy], [_reconstruct], [deepcopy] and [_deepcopy_dict] for the
    attributes, [deepcopy] and [_deepcopy_tuple] and its comprehension
    for [info], [deepcopy] and [_deepcopy_list] for the list), so that
    the depth left gives room for [depth / copy_frames] levels. *)
Definition deepcopy_within (copy_frames depth : nat) (error : ValidationError)
  : result ValidationError :=
  deepcopy_nested (depth / copy_frames) error.

Section Handler.
(** [self.messages]: a subclass may replace the catalog. *)
Variable self_messages : dict Z template.
(** [str()] of a list of errors in the run at hand.  The text shows the
    addresses of the error objects, which for the handler are the
    copies that [add] makes: it belongs to a run of the handler and not
    to the errors, and a statement about two runs takes one for each. *)
Variable repr_errors : list ValidationError -> string.

(** One replacement field of a template: a positional field reads the
    [info] tuple, a named one the keyword argument of that name. *)
Definition format_fragment (info : list (info_item ValidationError))
    (constraint : pyval) (field : option seg) (value : pyval) (f : fragment)
  : result string :=
  match f with
  | Lit s => Ok s
  | Positional n =>
      match info !! n with
      | Some (IVal v) => Ok (str_of_pyval v)
      | Some (IErrors errors) => Ok (repr_errors errors)
      | None => Raise IndexError
      end
  | Named_constraint => Ok (str_of_pyval constraint)
  | Named_field => Ok (str_of_field field)
  | Named_value => Ok (str_of_pyval value)
  end.

Definition format (t : template) (info : list (info_item ValidationError))
    (constraint : pyval) (field : option seg) (value : pyval) : result string :=
  for_each
    (fun acc f =>
       let! s := format_fragment info constraint field value f in
       Ok (acc +:+ s))
    t ""%string.

(** [_format_message] *)
Definition _format_message (field : option seg) (error : ValidationError)
  : result string :=
  match dict_get (code error) self_messages with
  | None => Raise KeyError
  | Some t => format t (info error) (constraint error) field (value error)
  end.

(** [_insert_error]: the recursive call runs on a fresh handler over a
    shallow copy of the sub-dictionary, whose lists are shared with the
    original; what the original holds afterwards is returned. *)
Fixpoint _insert_error (tree : report) (path : DocumentPath) (node : item)
  : result report :=
  match path with
  | [] => Raise IndexError
  | field :: rest =>
      match rest with
      | [] =>
          match dict_get field tree with
          | Some l =>
              let! p := pop l in
              Ok (dict_set field (fst p ++ [node; snd p]) tree)
          | None => Ok (dict_set field [node; Sub []] tree)
          end
      | _ :: _ =>
          let tree :=
            if dict_has field tree then tree else dict_set field [Sub []] tree in
          let l := default [] (dict_get field tree) in
          match last l with
          | None => Raise IndexError
          | Some (Sub subtree) =>
              let new_tree := match subtree with [] => [] | _ => subtree end in
              let! new_tree := _insert_error new_tree rest node in
              Ok (dict_set field
                    (removelast l ++ [Sub (dict_update subtree new_tree)]) tree)
          | Some (Msg EmptyString) =>
              let! new_tree := _insert_error [] rest node in
              Raise AttributeError
          | Some (Msg (String _ _)) => Raise TypeError
          end
      end
  end.

(** [self._insert_error(path, self._format_message(field, error))];
    the message is formatted before the call. *)
Definition insert_message (tree : report) (path : DocumentPath)
    (field : option seg) (error : ValidationError) : outcome :=
  match _format_message field error with
  | Raise x => Failed x tree
  | Ok message =>
      match _insert_error tree path (Msg message) with
      | Ok tree' => Done tree'
      | Raise x => Failed x tree
      end
  end.

(** [_insert_logic_error] and [_insert_group_error]; [depth] is the
    recursion depth left, and running out of it is [RecursionError]. *)
Fixpoint _insert_logic_error (depth : nat) (tree : report)
    (error : ValidationError) {struct depth} : outcome :=
  match depth with
  | O => Failed RecursionError tree
  | S depth =>
      let field := field error in
      match insert_message tree (document_path error) field error with
      | Failed x tree => Failed x tree
      | Done tree =>
          match definitions_errors error with
          | Raise x => Failed x tree
          | Ok None => Failed AttributeError tree
          | Ok (Some buckets) =>
              for_errors
                (fun tree definition_errors =>
                   for_errors
                     (fun tree (child_error : ValidationError) =>
                        if is_logic_error child_error
                        then _insert_logic_error depth tree child_error
                        else if is_group_error child_error
                        then _insert_group_error depth tree child_error
                        else insert_message tree (document_path child_error)
                               field child_error)
                     (map snd (snd definition_errors)) tree)
                buckets tree
          end
      end
  end
with _insert_group_error (depth : nat) (tree : report)
    (error : ValidationError) {struct depth} : outcome :=
  match depth with
  | O => Failed RecursionError tree
  | S depth =>
      match (let! c := child_errors error in iterate c) with
      | Raise x => Failed x tree
      | Ok children =>
          for_errors
            (fun tree (child_error : ValidationError) =>
               if is_logic_error child_error
               then _insert_logic_error depth tree child_error
               else if is_group_error child_error
               then _insert_group_error depth tree child_error
               else insert_message tree (document_path child_error)
                      (field child_error) child_error)
            children tree
      end
  end.

(** [_rewrite_error_path] and the two passes it dispatches to.  An
    assignment to [child_error.document_path] is an update of the child
    held at its position in the parent. *)
Fixpoint _rewrite_error_path (depth : nat) (error : ValidationError)
    (offset : Z) {struct depth} : result ValidationError :=
  match depth with
  | O => Raise RecursionError
  | S depth =>
      if is_logic_error error
      then _rewrite_logic_error_path depth error offset
      else if is_group_error error
      then _rewrite_group_error_path depth error offset
      else Ok error
  end
with _rewrite_group_error_path (depth : nat) (error : ValidationError)
    (offset : Z) {struct depth} : result ValidationError :=
  match depth with
  | O => Raise RecursionError
  | S depth =>
      let child_start := Z.of_nat (length (document_path error)) - offset in
      let! c := child_errors error in
      let! children := iterate c in
      for_each
        (fun (error : ValidationError) (kc : nat * ValidationError) =>
           let child_error := snd kc in
           let relative_path :=
             slice_from child_start (document_path child_error) in
           let child_error :=
             Error (set_document_path child_error
                      (document_path error ++ relative_path)) in
           let! child_error := _rewrite_error_path depth child_error offset in
           Ok (set_child (fst kc) child_error error))
        (imap pair children) error
  end
with _rewrite_logic_error_path (depth : nat) (error : ValidationError)
    (offset : Z) {struct depth} : result ValidationError :=
  match depth with
  | O => Raise RecursionError
  | S depth =>
      let child_start := Z.of_nat (length (document_path error)) - offset in
      let! d := definitions_errors error in
      match d with
      | None => Raise AttributeError
      | Some buckets =>
          for_each
            (fun (error : ValidationError) bucket =>
               let i := fst bucket in
               let definition_errors := snd bucket in
               match definition_errors with
               | [] => Ok error
               | _ =>
                   let nodename :=
                     str_of_rule (rule error) +:+ " definition " +:+ str_of_seg i in
                   let path := document_path error ++ [SStr nodename] in
                   for_each
                     (fun (error : ValidationError) (kc : nat * ValidationError) =>
                        let child_error := snd kc in
                        let rel_path :=
                          slice_from child_start (document_path child_error) in
                        let child_error :=
                          Error (set_document_path child_error
                                   (path ++ rel_path)) in
                        let! child_error :=
                          _rewrite_error_path depth child_error (offset + 1) in
                        Ok (set_child (fst kc) child_error error))
                     definition_errors error
               end)
            buckets error
      end
  end.

(** A recursion depth that is enough for the two passes of [add] on an
    error: each level of child errors takes two calls of the rewriting
    pass and one of the insertion pass. *)
Definition depth_for (error : ValidationError) : nat := (2 * height error + 2)%nat.

(** The second half of [add]: the dispatch on the rewritten copy. *)
Definition insert (depth : nat) (tree : report) (error : ValidationError)
  : outcome :=
  if is_logic_error error
  then _insert_logic_error depth tree error
  else if is_group_error error
  then _insert_group_error depth tree error
  else if dict_has (code error) self_messages
  then insert_message tree (document_path error) (field error) error
  else Done tree.

(** [add], run with recursion depth to spare: the passes get the depth
    [depth_for], and the copy costs nothing.  [add_within] below is
    [add] with a given recursion depth left. *)
Definition add (tree : report) (error : ValidationError) : outcome :=
  let error := deepcopy error in
  match _rewrite_error_path (depth_for error) error 0 with
  | Raise x => Failed x tree
  | Ok error => insert (depth_for error) tree error
  end.



(** [clear] *)
Definition clear (tree : report) : report := [].

(** [extend] *)
Definition extend (tree : report) (errors : list ValidationError) : outcome :=
  for_errors add errors tree.

(** [_purge_empty_dicts]; the list it is given is updated in place, and
    the updated list is what is returned here.  [purge_subtree] is the
    branch on [subtree = error_list[-1]] and returns what takes the
    place of that last element. *)
Fixpoint purge_subtree (subtree : item) : result (list item) :=
  match subtree with
  | Msg EmptyString => Ok []
  | Msg (String _ _) => Raise TypeError
  | Sub [] => Ok []
  | Sub d =>
      let! d' := dict_map_values (on_last purge_subtree) d in
      Ok [Sub d']
  end.

Definition _purge_empty_dicts (error_list : list item) : result (list item) :=
  on_last purge_subtree error_list.

(** [pretty_tree] *)
Definition pretty_tree (tree : report) : result report :=
  dict_map_values _purge_empty_dicts tree.

(** [__call__]: the handler's tree afterwards, and what the call
    returns or raises. *)
Definition __call__ (tree : report) (errors : list ValidationError)
  : report * result report :=
  let tree := clear tree in
  match extend tree errors with
  | Failed x tree => (tree, Raise x)
  | Done tree => (tree, pretty_tree tree)
  end.

(** The frames [copy.deepcopy] takes for a level of nesting. *)
Variable copy_frames : nat.

(** [add] with [depth] as the recursion depth left when it is called:
    the deep copy and the two passes each nest their calls from there,
    and running out of depth is [RecursionError], which leaves [add]
    with the tree as it is. *)
Definition add_within (depth : nat) (tree : report) (error : ValidationError)
  : outcome :=
  match deepcopy_within copy_frames depth error with
  | Raise x => Failed x tree
  | Ok error =>
      match _rewrite_error_path depth error 0 with
      | Raise x => Failed x tree
      | Ok error => insert depth tree error
      end
  end.

(** [extend] and [__call__] with [depth] as the recursion depth left. *)
Definition extend_within (depth : nat) (tree : report)
    (errors : list ValidationError) : outcome :=
  for_errors (add_within depth) errors tree.

Definition call_within (depth : nat) (tree : report)
    (errors : list ValidationError) : report * result report :=
  let tree := clear tree in
  match extend_within depth tree errors with
  | Failed x tree => (tree, Raise x)
  | Done tree => (tree, pretty_tree tree)
  end.

End Handler.

End BasicErrorHandler.

(** [SchemaErrorHandler]: a [BasicErrorHandler] with its own catalog. *)
Module SchemaErrorHandler.

(** [messages]: the catalog of [BasicErrorHandler] with another text
    for the code 0x03. *)
Definition messages : dict Z template :=
  dict_set 0x03 [Lit "unknown rule"] BasicErrorHandler.messages.

End SchemaErrorHandler.

(** ** Error trees *)

Inductive tree_type :=
| document
| schema.

Module ErrorTreeNode.

(** A node: its path, the errors that end there, and its descendants by
    next path segment.  ([parent_node] and [tree_root] are references
    back up the tree; what they are read for is passed along instead.) *)
Inductive t :=
| mk (path : DocumentPath) (errors : list ValidationError)
    (descendants : dict seg t).

Definition path (self : t) : DocumentPath :=
  match self with mk p _ _ => p end.
Definition errors (self : t) : list ValidationError :=
  match self with mk _ e _ => e end.
Definition descendants (self : t) : dict seg t :=
  match self with mk _ _ d => d end.

(** [depth] *)
Definition depth (self : t) : nat := length (path self).

(** [__init__]: [ErrorTreeNode(path, parent_node)] *)
Definition __init__ (path : DocumentPath) (parent_node : t) : t :=
  mk (take (depth parent_node + 1) path) [] [].

(** [self[key] = value] *)
Definition __setitem__ (self : t) (key : seg) (value : t) : t :=
  mk (path self) (errors self) (dict_set key value (descendants self)).

(** [self[key]] for a path segment. *)
Definition __getitem__ (self : t) (key : seg) : option t :=
  dict_get key (descendants self).

Section Node.
Variable compare_paths_lt : DocumentPath -> DocumentPath -> bool.
(** [list.sort()], which compares with [__lt__]. *)
Variable list_sort :
  (ValidationError -> ValidationError -> bool) ->
  list ValidationError -> list ValidationError.
(** [self.tree_type], read from the tree root. *)
Variable self_tree_type : tree_type.

(** [_path_of_] *)
Definition _path_of_ (error : ValidationError) : DocumentPath :=
  match self_tree_type with
  | document => document_path error
  | schema => schema_path error
  end.

(** [node.errors.append(error); node.errors.sort()] *)
Definition append_sorted (node : t) (error : ValidationError) : t :=
  mk (path node) (list_sort (__lt__ compare_paths_lt) (errors node ++ [error]))
    (descendants node).

(** [add], up to the node that receives the error.  The nodes are
    updated in place in the source; here each call returns its node as
    updated.  The loop over [child_errors] that follows in the source
    calls [tree_root.add], and no frame does anything after it: it is
    run by [ErrorTree.add] on the tree this function returns. *)
Fixpoint add (limit : nat) (self : t) (error : ValidationError) : result t :=
  match limit with
  | O => Raise RecursionError
  | S limit =>
      let error_path := _path_of_ error in
      let! key := index error_path (depth self) in
      let self :=
        if dict_has key (descendants self) then self
        else __setitem__ self key (__init__ error_path self) in
      match __getitem__ self key with
      | None => Raise AttributeError
      | Some node =>
          if bool_decide (length error_path = (depth self + 1)%nat)
          then Ok (__setitem__ self key (append_sorted node error))
          else
            let! node := add limit node error in
            Ok (__setitem__ self key node)
      end
  end.

End Node.

End ErrorTreeNode.

Module ErrorTree.

Section Tree.
Variable compare_paths_lt : DocumentPath -> DocumentPath -> bool.
Variable list_sort :
  (ValidationError -> ValidationError -> bool) ->
  list ValidationError -> list ValidationError.
Variable self_tree_type : tree_type.

(** The tree before any error is added: [depth = 0], [path = ()]. *)
Definition empty : ErrorTreeNode.t := ErrorTreeNode.mk [] [] [].

(** [add]; [limit] is the recursion depth left. *)
Fixpoint add (limit : nat) (self : ErrorTreeNode.t) (error : ValidationError)
  : result ErrorTreeNode.t :=
  match limit with
  | O => Raise RecursionError
  | S limit =>
      match ErrorTreeNode._path_of_ self_tree_type error with
      | [] =>
          Ok (ErrorTreeNode.append_sorted compare_paths_lt list_sort self error)
      | _ :: _ =>
          let! self :=
            ErrorTreeNode.add compare_paths_lt list_sort self_tree_type
              limit self error in
          if is_group_error error then
            let! c := child_errors error in
            let! children := iterate c in
            for_each (fun self child_error => add limit self child_error)
              children self
          else Ok self
      end
  end.

(** [__init__]: [ErrorTree(errors)] *)
Definition __init__ (limit : nat) (errors : list ValidationError)
  : result ErrorTreeNode.t :=
  for_each (add limit) errors empty.

(** [fetch_node_from] *)
Fixpoint fetch_node_from (self : ErrorTreeNode.t) (path : DocumentPath)
  : option ErrorTreeNode.t :=
  match path with
  | [] => Some self
  | key :: path' =>
      match ErrorTreeNode.__getitem__ self key with
      | None => None
      | Some context => fetch_node_from context path'
      end
  end.

(** [fetch_errors_from] *)
Definition fetch_errors_from (self : ErrorTreeNode.t) (path : DocumentPath)
  : list ValidationError :=
  match fetch_node_from self path with
  | None => []
  | Some node => ErrorTreeNode.errors node
  end.

(** The stack depth [add] needs for an error: its own frame, one per
    path segment, and what the deepest child needs on top. *)
Fixpoint frames (error : ValidationError) : nat :=
  match error with
  | Error a =>
      S (length (match self_tree_type with
                 | document => document_path a
                 | schema => schema_path a
                 end)
         + match info a with
           | IErrors errors :: _ => list_max (map frames errors)
           | _ => 0
           end)%nat
  end.

End Tree.

End ErrorTree.

(** ** Queries on error lists and tree nodes *)

(** What [in] and indexing are given on an error list or a node: an
    error definition or a field name. *)
Inductive query :=
| QDefinition (error_definition : ErrorDefinition.t)
| QField (key : seg).

(** What indexing a node returns. *)
Inductive found :=
| FoundError (error : ValidationError)
| FoundNode (node : ErrorTreeNode.t).

Module ErrorList.

(** [__contains__]: [error_definition in self] *)
Definition __contains__ (self : list ValidationError) (error_definition : query)
  : result bool :=
  match error_definition with
  | QField _ => Raise TypeError
  | QDefinition error_definition =>
      let wanted_code := ErrorDefinition.code error_definition in
      Ok (existsb (fun x : ValidationError => code x =? wanted_code) self)
  end.

End ErrorList.

(** The methods of [ErrorTreeNode] that take an error definition or a
    field name; [ErrorTreeNode.__getitem__] above is the branch of
    [__getitem__] for field names. *)
Module ErrorTreeNodeQueries.

(** [__contains__]: [item in self] *)
Definition __contains__ (self : ErrorTreeNode.t) (item : query) : result bool :=
  match item with
  | QDefinition _ => ErrorList.__contains__ (ErrorTreeNode.errors self) item
  | QField key => Ok (dict_has key (ErrorTreeNode.descendants self))
  end.

(** [__getitem__]: [self[item]], with [None] for nothing found. *)
Definition __getitem__ (self : ErrorTreeNode.t) (item : query) : option found :=
  match item with
  | QDefinition item =>
      option_map FoundError
        (find (fun error : ValidationError =>
                 ErrorDefinition.code item =? code error)
           (ErrorTreeNode.errors self))
  | QField key => option_map FoundNode (dict_get key (ErrorTreeNode.descendants self))
  end.

(** [__delitem__]: [del self[key]] *)
Definition __delitem__ (self : ErrorTreeNode.t) (key : seg)
  : result ErrorTreeNode.t :=
  let! descendants := dict_del key (ErrorTreeNode.descendants self) in
  Ok (ErrorTreeNode.mk (ErrorTreeNode.path self) (ErrorTreeNode.errors self)
        descendants).

(** [__iter__] *)
Definition __iter__ (self : ErrorTreeNode.t) : list ValidationError :=
  ErrorTreeNode.errors self.

(** [__len__] *)
Definition __len__ (self : ErrorTreeNode.t) : nat :=
  length (ErrorTreeNode.errors self).

End ErrorTreeNodeQueries.


(** ** Errors as objects

    [BasicErrorHandler.add] starts with a deep copy so that its path
    rewriting, which assigns to attributes of the errors, does not reach
    the caller's objects.  Here the errors live in a store, a list of
    child errors holds references, [deepcopy] allocates, and the
    rewriting pass writes in place. *)

Module Store.

Abbreviation loc := nat.
Abbreviation object := (error_attrs loc).
Abbreviation heap := (list object).

(** A computation on the store: the store it leaves, and its result or
    the exception it raised. *)
Definition M (A : Type) := heap -> heap * result A.

Definition ret {A} (a : A) : M A := fun h => (h, Ok a).
Definition raise {A} (x : exn) : M A := fun h => (h, Raise x).
Definition lift {A} (r : result A) : M A := fun h => (h, r).
Definition mbind {A B} (m : M A) (f : A -> M B) : M B :=
  fun h =>
    match m h with
    | (h', Ok a) => f a h'
    | (h', Raise x) => (h', Raise x)
    end.

Notation "'let*' x ':=' m 'in' k" := (mbind m (fun x => k))
  (at level 10, x name, m at level 100, k at level 200).

(** Reading an object.  (A reference to nothing has no counterpart in
    Python; the model stops there.) *)
Definition get (l : loc) : M object :=
  fun h =>
    match h !! l with
    | Some o => (h, Ok o)
    | None => (h, Raise AttributeError)
    end.

(** [l.document_path = dp] *)
Definition assign_document_path (l : loc) (dp : DocumentPath) : M unit :=
  fun h =>
    match h !! l with
    | Some o => (<[l := set_document_path o dp]> h, Ok tt)
    | None => (h, Raise AttributeError)
    end.

(** A new object. *)
Definition alloc (o : object) : M loc := fun h => (h ++ [o], Ok (length h)).

(** Setting all attributes of an object at once. *)
Definition store (l : loc) (o : object) : M unit :=
  fun h => (<[l := o]> h, Ok tt).

(** A [for] loop that threads an accumulator. *)
Fixpoint for_each_m {S A} (body : S -> A -> M S) (l : list A) (s : S) : M S :=
  match l with
  | [] => ret s
  | a :: l' => let* s' := body s a in for_each_m body l' s'
  end.

(** An object before its attributes are set. *)
Definition blank : object := mkAttrs [] [] 0 None PNone PNone [].

(** [copy.deepcopy] of an error: the memo maps the objects copied so
    far to their copies.  The copy is created and entered in the memo,
    then the attributes are copied ([info] is the one that holds
    objects) and set. *)
Fixpoint deepcopy (depth : nat) (memo : dict loc loc) (x : loc)
  : M (dict loc loc * loc) :=
  match depth with
  | O => raise RecursionError
  | S depth =>
      match dict_get x memo with
      | Some y => ret (memo, y)
      | None =>
          let* o := get x in
          let* y := alloc blank in
          let memo := dict_set x y memo in
          let* r :=
            for_each_m
              (fun (acc : dict loc loc * list (info_item loc)) item =>
                 match item with
                 | IVal v => ret (fst acc, snd acc ++ [IVal v])
                 | IErrors errors =>
                     let* r :=
                       for_each_m
                         (fun (acc : dict loc loc * list loc) child =>
                            let* r := deepcopy depth (fst acc) child in
                            ret (fst r, snd acc ++ [snd r]))
                         errors (fst acc, []) in
                     ret (fst r, snd acc ++ [IErrors (snd r)])
                 end)
              (info o) (memo, []) in
          let* _ :=
            store y (mkAttrs (document_path o) (schema_path o) (code o)
                       (rule o) (constraint o) (value o) (snd r)) in
          ret (fst r, y)
      end
  end.

(** [definitions_errors] of the object at [l]: the buckets hold
    references to the child errors. *)
Definition definitions_errors (l : loc) : M (option (dict seg (list loc))) :=
  let* error := get l in
  if negb (is_logic_error error) then ret None
  else
    let* c := lift (child_errors error) in
    let* children := lift (iterate c) in
    let* d :=
      for_each_m
        (fun d child =>
           let* e := get child in
           let* i := lift (index (schema_path e) (length (schema_path error))) in
           ret (bucket_append i child d))
        children [] in
    ret (Some d).

(** [_rewrite_error_path] and the passes it dispatches to, writing to
    the store. *)
Fixpoint _rewrite_error_path (depth : nat) (error : loc) (offset : Z)
    {struct depth} : M unit :=
  match depth with
  | O => raise RecursionError
  | S depth =>
      let* e := get error in
      if is_logic_error e then _rewrite_logic_error_path depth error offset
      else if is_group_error e then _rewrite_group_error_path depth error offset
      else ret tt
  end
with _rewrite_group_error_path (depth : nat) (error : loc) (offset : Z)
    {struct depth} : M unit :=
  match depth with
  | O => raise RecursionError
  | S depth =>
      let* e := get error in
      let child_start := Z.of_nat (length (document_path e)) - offset in
      let* c := lift (child_errors e) in
      let* children := lift (iterate c) in
      for_each_m
        (fun _ child_error =>
           let* child := get child_error in
           let relative_path := slice_from child_start (document_path child) in
           let* e := get error in
           let* _ :=
             assign_document_path child_error
               (document_path e ++ relative_path) in
           _rewrite_error_path depth child_error offset)
        children tt
  end
with _rewrite_logic_error_path (depth : nat) (error : loc) (offset : Z)
    {struct depth} : M unit :=
  match depth with
  | O => raise RecursionError
  | S depth =>
      let* e := get error in
      let child_start := Z.of_nat (length (document_path e)) - offset in
      let* d := definitions_errors error in
      match d with
      | None => raise AttributeError
      | Some buckets =>
          for_each_m
            (fun _ (bucket : seg * list loc) =>
               match snd bucket with
               | [] => ret tt
               | definition_errors =>
                   let* e := get error in
                   let nodename :=
                     str_of_rule (rule e) +:+ " definition "
                       +:+ str_of_seg (fst bucket) in
                   let path := document_path e ++ [SStr nodename] in
                   for_each_m
                     (fun _ child_error =>
                        let* child := get child_error in
                        let rel_path :=
                          slice_from child_start (document_path child) in
                        let* _ :=
                          assign_document_path child_error (path ++ rel_path) in
                        _rewrite_error_path depth child_error (offset + 1))
                     definition_errors tt
               end)
            buckets tt
      end
  end.

(** The error a reference stands for, with its child errors in place
    of the references to them. *)
Fixpoint snapshot (depth : nat) (h : heap) (l : loc) : result ValidationError :=
  match depth with
  | O => Raise RecursionError
  | S depth =>
      match h !! l with
      | None => Raise AttributeError
      | Some o =>
          let! i :=
            for_each
              (fun acc item =>
                 match item with
                 | IVal v => Ok (acc ++ [IVal v])
                 | IErrors errors =>
                     let! errors' :=
                       for_each
                         (fun acc child =>
                            let! e := snapshot depth h child in
                            Ok (acc ++ [e]))
                         errors [] in
                     Ok (acc ++ [IErrors errors'])
                 end)
              (info o) [] in
          Ok (mkValidationError (document_path o) (schema_path o) (code o)
                (rule o) (constraint o) (value o) i)
      end
  end.

Section Handler.
Variable self_messages : dict Z template.
Variable repr_errors : list ValidationError -> string.

(** [BasicErrorHandler.add] on an error object: the store it leaves
    and the handler's outcome.  The insertion pass only reads the
    errors; it is run on what the rewritten copy stands for. *)
Definition add (depth : nat) (tree : report) (error : loc)
  : heap -> heap * BasicErrorHandler.outcome :=
  fun h =>
    match deepcopy depth [] error h with
    | (h, Raise x) => (h, BasicErrorHandler.Failed x tree)
    | (h, Ok r) =>
        let error := snd r in
        match _rewrite_error_path depth error 0 h with
        | (h, Raise x) => (h, BasicErrorHandler.Failed x tree)
        | (h, Ok _) =>
            match snapshot depth h error with
            | Raise x => (h, BasicErrorHandler.Failed x tree)
            | Ok e =>
                (h, BasicErrorHandler.insert self_messages repr_errors
                      depth tree e)
            end
        end
    end.

(** [extend] and [__call__] on error objects: the store they leave, and
    the handler's outcome. *)
Fixpoint extend (depth : nat) (tree : report) (errors : list loc) (h : heap)
  : heap * BasicErrorHandler.outcome :=
  match errors with
  | [] => (h, BasicErrorHandler.Done tree)
  | error :: errors' =>
      match add depth tree error h with
      | (h, BasicErrorHandler.Done tree) => extend depth tree errors' h
      | (h, BasicErrorHandler.Failed x tree) =>
          (h, BasicErrorHandler.Failed x tree)
      end
  end.

Definition __call__ (depth : nat) (tree : report) (errors : list loc) (h : heap)
  : heap * (report * result report) :=
  match extend depth (BasicErrorHandler.clear tree) errors h with
  | (h, BasicErrorHandler.Failed x tree) => (h, (tree, Raise x))
  | (h, BasicErrorHandler.Done tree) =>
      (h, (tree, BasicErrorHandler.pretty_tree tree))
  end.

End Handler.

(** An error value as objects in the store: the children first, then
    the error that refers to them. *)
Fixpoint allocate (e : ValidationError) (h : heap) : heap * loc :=
  match e with
  | Error a =>
      let '(h, i) :=
        (fix items (l : list (info_item ValidationError)) (h : heap)
           : heap * list (info_item loc) :=
           match l with
           | [] => (h, [])
           | IVal v :: l' =>
               let '(h, r) := items l' h in (h, IVal v :: r)
           | IErrors errors :: l' =>
               let '(h, ls) :=
                 (fix children (es : list ValidationError) (h : heap)
                    : heap * list loc :=
                    match es with
                    | [] => (h, [])
                    | c :: es' =>
                        let '(h, lc) := allocate c h in
                        let '(h, ls) := children es' h in
                        (h, lc :: ls)
                    end) errors h in
               let '(h, r) := items l' h in (h, IErrors ls :: r)
           end) (info a) h in
      (h ++ [mkAttrs (document_path a) (schema_path a) (code a) (rule a)
               (constraint a) (value a) i], length h)
  end.

(** *** What [add] keeps in the store *)

(** The objects an object refers to. *)
Definition item_refs (items : list (info_item loc)) : list loc :=
  flat_map (fun item => match item with IVal _ => [] | IErrors ls => ls end) items.

Definition refs (o : object) : list loc := item_refs (info o).

(** From address [n] on, objects refer only to objects from [n] on. *)
Definition closed_above (n : nat) (h : heap) : Prop :=
  forall l o, (n <= l)%nat -> h !! l = Some o -> Forall (fun c => (n <= c)%nat) (refs o).

(** The memo holds copies from address [n] on. *)
Definition memo_above (n : nat) (memo : dict loc loc) : Prop :=
  forall x y, dict_get x memo = Some y -> (n <= y)%nat.

(** [m] leaves the objects below [n] as they are, keeps the store
    closed above [n], and its result satisfies [Q]. *)
Definition keeps {A} (n : nat) (m : M A) (Q : A -> Prop) : Prop :=
  forall h, (n <= length h)%nat -> closed_above n h ->
    match m h with
    | (h', r) =>
        take n h' = take n h /\ (n <= length h')%nat /\ closed_above n h' /\
        match r with Ok a => Q a | Raise _ => True end
    end.

End Store.

(** ** Notions used in the statements *)

(** A node whose path has length [d], and so on below it. *)
Inductive wf_node : nat -> ErrorTreeNode.t -> Prop :=
| wf_mk d p es ds :
    length p = d ->
    Forall (fun kc => wf_node (S d) (snd kc)) ds ->
    wf_node d (ErrorTreeNode.mk p es ds).

(** An error whose group errors, at every level, carry the list of
    their child errors in [info[0]]. *)
Inductive well_formed_error : ValidationError -> Prop :=
| wfe_plain (e : ValidationError) :
    is_group_error e = false -> well_formed_error e
| wfe_group (e : ValidationError) cs rest :
    info e = IErrors cs :: rest ->
    Forall well_formed_error cs ->
    well_formed_error e.

(** Every error found at a path of the first tree is found at that
    path of the second. *)
Definition keeps_errors (t t' : ErrorTreeNode.t) : Prop :=
  forall q x, In x (ErrorTree.fetch_errors_from t q) ->
              In x (ErrorTree.fetch_errors_from t' q).

(** The [anyof] scenario: an [anyof] error at [price] with schema path
    [sp], and what is asked of a child of it: a plain error at [price],
    produced by the definition with index [i], whose message is [m]. *)
Definition scenario_error (sp : DocumentPath) (k v : pyval)
    (rest : list (info_item ValidationError))
    (children : list ValidationError) : ValidationError :=
  mkValidationError [SStr "price"] sp 0x93 (Some "anyof"%string) k v
    (IErrors children :: rest).

Definition plain_child (repr_errors : list ValidationError -> string)
    (sp : DocumentPath) (c : ValidationError) (i : Z) (m : string) : Prop :=
  is_group_error c = false /\ is_logic_error c = false /\
  document_path c = [SStr "price"] /\
  schema_path c !! length sp = Some (SInt i) /\
  BasicErrorHandler._format_message BasicErrorHandler.messages repr_errors
    (Some (SStr "price")) c = Ok m.

(** A child of the scenario after the rewriting pass. *)
Definition moved (c : ValidationError) (i : string) : ValidationError :=
  Error (set_document_path c [SStr "price"; SStr ("anyof definition " +:+ i)]).

(** ** The handler's tree as it is read *)

(** [tree[k1][-1][k2][-1]...[kn]]: the list kept for the field at the
    end of a path, reached through the sub-dictionaries that end the
    lists on the way. *)
Fixpoint entry_at (tree : report) (path : DocumentPath) : option (list item) :=
  match path with
  | [] => None
  | k :: rest =>
      match dict_get k tree with
      | None => None
      | Some l =>
          match rest with
          | [] => Some l
          | _ :: _ =>
              match last l with
              | Some (Sub d) => entry_at d rest
              | _ => None
              end
          end
      end
  end.

(** The messages of a list, in order. *)
Definition messages_of (l : list item) : list string :=
  flat_map (fun i => match i with Msg s => [s] | Sub _ => [] end) l.

(** The messages the tree holds for a path. *)
Definition messages_at (tree : report) (path : DocumentPath) : list string :=
  messages_of (default [] (entry_at tree path)).

(** The shape of the working tree: no key twice, and the list of every
    field is messages followed by one sub-dictionary of the same shape;
    a list holds a message or its sub-dictionary is not empty. *)
Inductive handler_form : report -> Prop :=
| handler_form_intro (tree : report) :
    NoDup (map fst tree) ->
    Forall (fun kv => exists msgs sub,
              snd kv = map Msg msgs ++ [Sub sub] /\
              (msgs <> [] \/ sub <> []) /\
              handler_form sub) tree ->
    handler_form tree.

(** The shape of what [pretty_tree] returns: the list of every field is
    not empty, and is messages, followed or not by one sub-dictionary
    that is not empty and of the same shape. *)
Inductive pretty_form : report -> Prop :=
| pretty_form_intro (tree : report) :
    NoDup (map fst tree) ->
    Forall (fun kv => exists msgs,
              (snd kv = map Msg msgs /\ msgs <> []) \/
              (exists sub, snd kv = map Msg msgs ++ [Sub sub] /\
                           sub <> [] /\ pretty_form sub)) tree ->
    pretty_form tree.

(** The messages, in order, of the errors of [l] whose document path is
    [q]; an error comes with its formatted message. *)
Definition messages_for (q : DocumentPath) (l : list (ValidationError * string))
  : list string :=
  map snd
    (filter (fun em : ValidationError * string => document_path (fst em) = q) l).


(** ** The codes [add] formats *)

(** [P] holds for the code of the error, unless it is a group error
    that is not a logic error, and so on for its child errors. *)
Inductive every_formatted_code (P : Z -> Prop) : ValidationError -> Prop :=
| every_formatted_code_intro (e : ValidationError) :
    (is_logic_error e = false /\ is_group_error e = true) \/ P (code e) ->
    (forall cs rest, info e = IErrors cs :: rest ->
                     Forall (every_formatted_code P) cs) ->
    every_formatted_code P e.


(** ** What the rewriting pass changes *)

(** The error with every document path taken out: its own and those of
    the errors listed anywhere in [info], at every level. *)
Fixpoint without_document_paths (e : ValidationError) : ValidationError :=
  match e with
  | Error a =>
      mkValidationError [] (schema_path a) (code a) (rule a) (constraint a)
        (value a)
        (map (fun item =>
                match item with
                | IVal v => IVal v
                | IErrors errors => IErrors (map without_document_paths errors)
                end) (info a))
  end.

(** Where the rewriting pass puts a child error [c] of [e]: under the
    document path of [e], and when [e] is a logic error under one more
    segment, named after the rule of [e] and the index of the
    definition that [c] comes from. *)
Definition child_base (e c : ValidationError) : DocumentPath :=
  if is_logic_error e then
    match schema_path c !! length (schema_path e) with
    | Some i =>
        document_path e
          ++ [SStr (str_of_rule (rule e) +:+ " definition " +:+ str_of_seg i)]
    | None => document_path e
    end
  else document_path e.

(** Below a group error, the document path of every child error starts
    with [child_base], and so on below the child errors. *)
Inductive paths_nested : ValidationError -> Prop :=
| paths_nested_intro (e : ValidationError) :
    (is_group_error e = true ->
     forall cs rest, info e = IErrors cs :: rest ->
       Forall (fun c : ValidationError =>
                 child_base e c `prefix_of` document_path c /\ paths_nested c) cs) ->
    paths_nested e.

(** How far a loop of the rewriting pass has come: the error is [e]
    with other child errors, which differ from those of [e] in document
    paths only, and the children at the positions done so far are
    where they belong. *)
Definition rewriting (e : ValidationError) (cs : list ValidationError)
    (done : list (nat * ValidationError)) (acc : ValidationError) : Prop :=
  exists cs_acc,
    acc = BasicErrorHandler.with_children e cs_acc /\
    map without_document_paths cs_acc = map without_document_paths cs /\
    forall kc, In kc done ->
      exists c1, cs_acc !! fst kc = Some c1 /\
                 child_base e c1 `prefix_of` document_path c1 /\ paths_nested c1.

(** ** Where messages change *)

(** From the first tree to the second, which is of the handler's
    shape, only the messages of paths that start with [base] changed. *)
Definition changed_below (base : DocumentPath) (tree tree' : report) : Prop :=
  handler_form tree' /\
  forall q, ~ base `prefix_of` q -> messages_at tree' q = messages_at tree q.

(** ** The paths of tree nodes *)

(** A node that holds the path it is reached by, and so on below it. *)
Inductive node_at : DocumentPath -> ErrorTreeNode.t -> Prop :=
| node_at_intro p es ds :
    Forall (fun kc => node_at (p ++ [fst kc]) (snd kc)) ds ->
    node_at p (ErrorTreeNode.mk p es ds).

(** ** Group errors with plain children *)

(** The document path the rewriting pass gives a child [c] of a group
    error [g] that is not a logic error: the path of [g], then what the
    path of [c] has beyond the length of the path of [g]. *)
Definition group_child_path (g c : ValidationError) : DocumentPath :=
  document_path g ++ drop (length (document_path g)) (document_path c).

(** The messages, in order, of the children of [g] in [l] that the
    rewriting pass puts at [q]; a child comes with its formatted
    message. *)
Definition group_messages_for (g : ValidationError) (q : DocumentPath)
    (l : list (ValidationError * string)) : list string :=
  map snd
    (filter (fun cm : ValidationError * string => group_child_path g (fst cm) = q) l).

(** ** Errors that [add] takes without raising *)



(** ** Group errors and their children *)



(** ** Messages that stay *)


(** ** Messages that print errors *)

(** The replacement field selects an entry of [info] that is a list of
    errors. *)
Definition prints_errors {E} (info : list (info_item E)) (f : fragment) : bool :=
  match f with
  | Positional n =>
      match info !! n with
      | Some (IErrors _) => true
      | _ => false
      end
  | _ => false
  end.

(** The template of the code of the error, if there is one, prints no
    list of errors. *)
Definition prints_values (self_messages : dict Z template)
    (e : ValidationError) : Prop :=
  forall t, dict_get (code e) self_messages = Some t ->
            Forall (fun f => prints_errors (info e) f = false) t.

(** [prints_values] for the error, unless it is a group error that is
    not a logic error, and so on for its child errors. *)
Inductive prints_no_errors (self_messages : dict Z template)
  : ValidationError -> Prop :=
| prints_no_errors_intro (e : ValidationError) :
    (is_logic_error e = false /\ is_group_error e = true) \/
    prints_values self_messages e ->
    (forall cs rest, info e = IErrors cs :: rest ->
                     Forall (prints_no_errors self_messages) cs) ->
    prints_no_errors self_messages e.

(** ** Concrete errors *)

(** [DOCUMENT_MISSING], reported at the root of the document. *)
Definition document_missing : ValidationError :=
  mkValidationError [] [] 0x01 None PNone PNone [].

(** An [anyof] error at [price] with two errors from each of its two
    definitions. *)
Definition anyof_child (i : Z) (r : string) (c : Z) (k : pyval) : ValidationError :=
  mkValidationError [SStr "price"] [SStr "price"; SStr "anyof"; SInt i; SStr r]
    c (Some r) k (PStr "x") [].

Definition anyof_children : list ValidationError :=
  [ anyof_child 0 "type" 0x24 (PStr "integer");
    anyof_child 0 "min" 0x42 (PInt 10);
    anyof_child 1 "type" 0x24 (PStr "string");
    anyof_child 1 "max" 0x43 (PInt 3) ].

Definition anyof_error : ValidationError :=
  mkValidationError [SStr "price"] [SStr "price"; SStr "anyof"] 0x93
    (Some "anyof"%string) PNone (PStr "x") [IErrors anyof_children].

(** A bulk validation error under [a] with a plain child and the
    [anyof] error as its second child. *)
Definition nested_group : ValidationError :=
  mkValidationError [SStr "a"] [SStr "a"; SStr "schema"] 0x81
    (Some "schema"%string) PNone PNone
    [IErrors [ mkValidationError [SStr "a"; SStr "b"] [] 0x24 None
                 (PStr "integer") PNone [];
               anyof_error ]].

(** What validating [{abc: {foo: {bar: bad}}}] against two alternative
    schemas for [abc] yields, the first of which nests a second [oneof]
    under [foo], [bar]: logic and group errors four levels deep. *)
Definition nested_type (i : Z) (t : string) : ValidationError :=
  mkValidationError [SStr "abc"; SStr "foo"; SStr "bar"]
    [SStr "abc"; SStr "oneof"; SInt 0; SStr "schema"; SStr "foo"; SStr "schema";
     SStr "bar"; SStr "oneof"; SInt i; SStr "type"]
    0x24 (Some "type"%string) (PStr t) (PStr "bad") [].

Definition nested_oneofs : ValidationError :=
  mkValidationError [SStr "abc"] [SStr "abc"; SStr "oneof"] 0x92
    (Some "oneof"%string) PNone PNone
    [IErrors
       [ mkValidationError [SStr "abc"]
           [SStr "abc"; SStr "oneof"; SInt 0; SStr "schema"] 0x81
           (Some "schema"%string) PNone PNone
           [IErrors
              [ mkValidationError [SStr "abc"; SStr "foo"]
                  [SStr "abc"; SStr "oneof"; SInt 0; SStr "schema"; SStr "foo";
                   SStr "schema"] 0x81 (Some "schema"%string) PNone PNone
                  [IErrors
                     [ mkValidationError [SStr "abc"; SStr "foo"; SStr "bar"]
                         [SStr "abc"; SStr "oneof"; SInt 0; SStr "schema";
                          SStr "foo"; SStr "schema"; SStr "bar"; SStr "oneof"]
                         0x92 (Some "oneof"%string) PNone (PStr "bad")
                         [IErrors [ nested_type 0 "integer";
                                    nested_type 1 "float";
                                    nested_type 2 "string" ]] ]] ]];
         mkValidationError [SStr "abc"]
           [SStr "abc"; SStr "oneof"; SInt 1; SStr "schema"] 0x81
           (Some "schema"%string) PNone PNone
           [IErrors
              [ mkValidationError [SStr "abc"; SStr "foo"]
                  [SStr "abc"; SStr "oneof"; SInt 1; SStr "schema"; SStr "foo"]
                  0x03 None PNone PNone [] ]] ]].

(** A bulk validation error under [a] whose only child carries the code
    0x07, which has no template. *)
Definition group_with_unknown_child : ValidationError :=
  mkValidationError [SStr "a"] [SStr "a"; SStr "schema"] 0x81
    (Some "schema"%string) PNone PNone
    [IErrors [ mkValidationError [SStr "a"; SStr "b"]
                 [SStr "a"; SStr "schema"; SStr "b"; SStr "custom"] 0x07
                 (Some "custom"%string) PNone PNone [] ]].

(** A plain error at [a] carrying the code 0x07, which has no template. *)
Definition unknown_code_error : ValidationError :=
  mkValidationError [SStr "a"] [SStr "a"; SStr "custom"] 0x07
    (Some "custom"%string) PNone PNone [].

(** A bulk validation error under [a] with one plain child at [a],[b]. *)
Definition simple_child : ValidationError :=
  mkValidationError [SStr "a"; SStr "b"]
    [SStr "a"; SStr "schema"; SStr "b"; SStr "type"] 0x24
    (Some "type"%string) (PStr "integer") (PStr "x") [].

Definition simple_group : ValidationError :=
  mkValidationError [SStr "a"] [SStr "a"; SStr "schema"] 0x81
    (Some "schema"%string) PNone PNone [IErrors [simple_child]].

(** The same error reported at the root of the document. *)
Definition rootless_group : ValidationError :=
  mkValidationError [] [SStr "schema"] 0x81
    (Some "schema"%string) PNone PNone [IErrors [simple_child]].

(** A tree with one message for the field [a]. *)
Definition one_message_tree : report :=
  [(SStr "a", [Msg "required field"%string; Sub []])].

(** An unknown field [c] reported at the top of the document. *)
Definition unknown_field_error : ValidationError :=
  mkValidationError [SStr "c"] [] 0x03 None PNone PNone [].

(** A group error whose [info] is empty, and an error whose code has
    the logic bit without the group bit. *)
Definition group_without_info : ValidationError :=
  mkValidationError [SStr "a"] [SStr "a"; SStr "schema"] 0x81
    (Some "schema"%string) PNone PNone [].

Definition logic_bit_only : ValidationError :=
  mkValidationError [SStr "a"] [SStr "a"; SStr "custom"] 0x10
    (Some "custom"%string) PNone PNone [].

(** The buckets of the [anyof] error: its children by definition, each
    with its position among the children. *)
Definition anyof_buckets : dict seg (list (nat * ValidationError)) :=
  [(SInt 0, [(0%nat, anyof_child 0 "type" 0x24 (PStr "integer"));
             (1%nat, anyof_child 0 "min" 0x42 (PInt 10))]);
   (SInt 1, [(2%nat, anyof_child 1 "type" 0x24 (PStr "string"));
             (3%nat, anyof_child 1 "max" 0x43 (PInt 3))])].

(** A comparison and a sort to run the trees with. *)
Definition example_compare_paths_lt (p q : DocumentPath) : bool :=
  bool_decide (length p < length q)%nat.

Definition example_list_sort
    (lt : ValidationError -> ValidationError -> bool)
    (l : list ValidationError) : list ValidationError :=
  @merge_sort _ (fun a b => lt a b = true)
    (fun a b => decide (lt a b = true)) l.


(** A custom error at [a] whose [info[0]] is a list of one error; its
    message is the text of that list. *)
Definition custom_with_errors : ValidationError :=
  mkValidationError [SStr "a"] [SStr "a"; SStr "check_with"] 0x00 None
    PNone PNone [IErrors [simple_child]].

(** [str()] of a list of one error whose object is at the address
    [memptr]; the attributes, which follow the address, are left out. *)
Definition repr_at (memptr : string) (errors : list ValidationError) : string :=
  "[ValidationError @ " +:+ memptr +:+ " ( ... )]".





(** * Properties *)

(** ** Classification *)

Lemma truthy_true (n : Z) : truthy n = true <-> n <> 0.
Proof.
  unfold truthy. rewrite negb_true_iff, Z.eqb_neq. reflexivity.
Qed.

(** C5 (amended).  An error is a group error exactly when bit 0x80 of
    its code is set, and a logic error exactly when bit 0x10 is set:
    the logic test masks the code with [LOGICAL.code - ERROR_GROUP.code]
    and does not look at the group bit. *)
Theorem classification_by_bits (e : ValidationError) :
  (is_group_error e = true <-> Z.land (code e) 0x80 <> 0) /\
  (is_logic_error e = true <-> Z.land (code e) 0x10 <> 0).
Proof.
  split; [unfold is_group_error | unfold is_logic_error]; apply truthy_true.
Qed.

(** C5, as stated, fails for the code 0x10: the error counts as a logic
    error without being a group error. *)
Lemma logic_error_need_not_be_group_error :
  ~ (is_logic_error (mkValidationError [] [] 0x10 None PNone PNone []) = true <->
     is_group_error (mkValidationError [] [] 0x10 None PNone PNone []) = true /\
     Z.land (code (mkValidationError [] [] 0x10 None PNone PNone [])) 0x10 <> 0).
Proof.
  intros [H _]. destruct (H eq_refl) as [Hg _]. discriminate Hg.
Qed.

(** On the codes of the registry the two readings agree. *)
Lemma registry_logic_errors_are_group_errors (d : ErrorDefinition.t) :
  In d error_definitions ->
  truthy (Z.land (ErrorDefinition.code d) 0x10) = true ->
  truthy (Z.land (ErrorDefinition.code d) 0x80) = true.
Proof.
  unfold error_definitions. simpl.
  intros H; repeat (destruct H as [<- | H]; [vm_compute; congruence |]).
  destruct H.
Qed.

(** ** The registry *)

(** C8 (amended).  The codes of the error definitions are pairwise
    distinct, so a code names one definition and with it one rule. *)
Theorem error_codes_unique :
  NoDup (map ErrorDefinition.code error_definitions) /\
  (forall d1 d2, In d1 error_definitions -> In d2 error_definitions ->
     ErrorDefinition.code d1 = ErrorDefinition.code d2 -> d1 = d2).
Proof.
  assert (Hnd : NoDup (map ErrorDefinition.code error_definitions)).
  { apply (bool_decide_unpack _). vm_compute. exact I. }
  split; [exact Hnd |].
  intros d1 d2 H1 H2 Hc.
  apply list_elem_of_In in H1, H2.
  apply list_elem_of_lookup in H1 as [i Hi], H2 as [j Hj].
  assert (i = j).
  { eapply NoDup_lookup; [exact Hnd | |]; rewrite list_lookup_fmap.
    - rewrite Hi. reflexivity.
    - rewrite Hj. simpl. rewrite Hc. reflexivity. }
  subst j. congruence.
Qed.

(** C8, as stated, fails: two definitions share the rule
    [dependencies]. *)
Lemma rule_names_shared :
  In DEPENDENCIES_FIELD error_definitions /\
  In DEPENDENCIES_FIELD_VALUE error_definitions /\
  ErrorDefinition.rule DEPENDENCIES_FIELD = Some "dependencies"%string /\
  ErrorDefinition.rule DEPENDENCIES_FIELD_VALUE = Some "dependencies"%string /\
  DEPENDENCIES_FIELD <> DEPENDENCIES_FIELD_VALUE.
Proof.
  repeat split; try reflexivity;
    try (unfold error_definitions; simpl;
         repeat (first [left; reflexivity | right])).
  intros H. apply (f_equal ErrorDefinition.code) in H. discriminate H.
Qed.

(** ** Equality and hashing *)

(** C10.  Two errors with the same code whose document and schema paths
    are swapped have the same hash and compare equal: the hash is the
    exclusive or of the three component hashes. *)
Theorem swapped_paths_equal
    (hash_tuple : DocumentPath -> Z) (hash_int : Z -> Z)
    (e1 e2 : ValidationError) :
  code e1 = code e2 ->
  document_path e1 = schema_path e2 ->
  schema_path e1 = document_path e2 ->
  __eq__ hash_tuple hash_int e1 e2 = true /\
  hash hash_tuple hash_int e1 = hash hash_tuple hash_int e2.
Proof.
  intros Hc Hd Hs.
  assert (Hh : __hash__ hash_tuple hash_int e1 = __hash__ hash_tuple hash_int e2).
  { unfold __hash__. rewrite Hc, Hd, Hs.
    f_equal. apply Z.lxor_comm. }
  assert (Hh' : hash hash_tuple hash_int e1 = hash hash_tuple hash_int e2).
  { unfold hash. rewrite Hh. reflexivity. }
  split; [| exact Hh'].
  unfold __eq__. rewrite Hh'. apply Z.eqb_refl.
Qed.

Lemma swapped_paths_equal_witness :
  __eq__ (fun p => Z.of_nat (length p)) (fun c => c)
    (mkValidationError [SStr "a"] [SStr "a"; SStr "type"] 0x24 None PNone PNone [])
    (mkValidationError [SStr "a"; SStr "type"] [SStr "a"] 0x24 None PNone PNone [])
  = true /\
  hash (fun p => Z.of_nat (length p)) (fun c => c)
    (mkValidationError [SStr "a"] [SStr "a"; SStr "type"] 0x24 None PNone PNone [])
  = hash (fun p => Z.of_nat (length p)) (fun c => c)
    (mkValidationError [SStr "a"; SStr "type"] [SStr "a"] 0x24 None PNone PNone []).
Proof.
  apply (swapped_paths_equal (fun p => Z.of_nat (length p)) (fun c => c)
           (mkValidationError [SStr "a"] [SStr "a"; SStr "type"] 0x24 None PNone PNone [])
           (mkValidationError [SStr "a"; SStr "type"] [SStr "a"] 0x24 None PNone PNone []));
    reflexivity.
Defined.

(** ** The basic error handler: formatting and plain errors *)

Import BasicErrorHandler.

Section HandlerFacts.
Variable self_messages : dict Z template.
Variable repr_errors : list ValidationError -> string.

(** Formatting can only fail on a positional field that [info] is too
    short for. *)
Lemma format_raises_IndexError t i c f v x :
  format repr_errors t i c f v = Raise x -> x = IndexError.
Proof.
  unfold format. generalize (""%string) as acc.
  induction t as [| fr t IH]; intros acc; simpl; [discriminate |].
  destruct fr as [s | n | | |]; simpl; eauto.
  destruct (i !! n) as [[pv | es] |]; simpl; eauto.
  intros [= <-]. reflexivity.
Qed.

Lemma format_message_raises field e x :
  _format_message self_messages repr_errors field e = Raise x ->
  (x = KeyError /\ dict_has (code e) self_messages = false) \/ x = IndexError.
Proof.
  unfold _format_message, dict_has.
  destruct (dict_get (code e) self_messages) as [t |].
  - intros H. right. eapply format_raises_IndexError, H.
  - intros [= <-]. left. split; reflexivity.
Qed.

(** The message of an error does not depend on its paths. *)
Lemma format_message_set_document_path field (e : ValidationError) dp :
  _format_message self_messages repr_errors field (Error (set_document_path e dp))
  = _format_message self_messages repr_errors field e.
Proof. reflexivity. Qed.

(** The rewriting pass leaves an error that is neither a logic nor a
    group error as it is. *)
Lemma rewrite_plain depth (e : ValidationError) offset :
  is_logic_error e = false -> is_group_error e = false ->
  _rewrite_error_path (S depth) e offset = Ok e.
Proof. intros Hl Hg. simpl. rewrite Hl, Hg. reflexivity. Qed.

(** [add] on an error that is neither a logic nor a group error. *)
Lemma add_plain tree (e : ValidationError) :
  is_logic_error e = false -> is_group_error e = false ->
  add self_messages repr_errors tree e =
    if dict_has (code e) self_messages
    then insert_message self_messages repr_errors tree (document_path e) (field e) e
    else Done tree.
Proof.
  intros Hl Hg. unfold add, deepcopy, depth_for.
  replace (2 * height e + 2)%nat with (S (S (2 * height e))) by lia.
  rewrite rewrite_plain by assumption.
  unfold insert. rewrite Hl, Hg. reflexivity.
Qed.

(** An error whose code has no template is skipped when it is handed
    to [add] itself and is neither a logic nor a group error. *)
Lemma add_plain_unknown_code tree (e : ValidationError) :
  is_logic_error e = false -> is_group_error e = false ->
  dict_has (code e) self_messages = false ->
  add self_messages repr_errors tree e = Done tree.
Proof. intros Hl Hg Hc. rewrite add_plain, Hc by assumption. reflexivity. Qed.

(** With an empty document path the insertion fails on [path[0]]. *)
Lemma add_plain_empty_path tree (e : ValidationError) :
  is_logic_error e = false -> is_group_error e = false ->
  document_path e = [] ->
  dict_has (code e) self_messages = true ->
  add self_messages repr_errors tree e = Failed IndexError tree.
Proof.
  intros Hl Hg Hp Hc. rewrite add_plain, Hc, Hp by assumption.
  unfold insert_message.
  destruct (_format_message self_messages repr_errors (field e) e) as [m | x] eqn:Hf.
  - reflexivity.
  - apply format_message_raises in Hf as [[_ Hf] | ->]; congruence.
Qed.

End HandlerFacts.

(** What a call returns does not depend on the handler's tree before. *)
Lemma call_independent_of_state
    (self_messages : dict Z template)
    (repr_errors : list ValidationError -> string)
    (tree1 tree2 : report) (errors : list ValidationError) :
  __call__ self_messages repr_errors tree1 errors
  = __call__ self_messages repr_errors tree2 errors.
Proof. reflexivity. Qed.

(** In the catalog of [BasicErrorHandler], a code without the group bit
    does not have the logic bit either. *)
Lemma catalog_plain_codes (c : Z) :
  dict_has c messages = true ->
  truthy (Z.land c 0x80) = false -> truthy (Z.land c 0x10) = false.
Proof.
  unfold dict_has, messages. simpl dict_get.
  repeat (case_decide; [subst c; vm_compute; congruence |]).
  discriminate.
Qed.

(** C9.  A plain error of the catalog with an empty document path makes
    [add] raise [IndexError], and the report is left as it was. *)
Theorem add_empty_path_raises_IndexError
    (repr_errors : list ValidationError -> string)
    (tree : report) (e : ValidationError) :
  is_group_error e = false ->
  document_path e = [] ->
  dict_has (code e) messages = true ->
  add messages repr_errors tree e = Failed IndexError tree.
Proof.
  intros Hg Hp Hc. apply add_plain_empty_path; try assumption.
  apply catalog_plain_codes; assumption.
Qed.

Lemma add_empty_path_raises_IndexError_witness :
  add messages (fun _ => ""%string) [] document_missing = Failed IndexError [].
Proof.
  apply (add_empty_path_raises_IndexError (fun _ => ""%string) [] document_missing);
    reflexivity.
Defined.

(** ** Dictionaries *)

Lemma dict_get_set {K V} `{EqDecision K} (k k' : K) (v : V) (d : dict K V) :
  dict_get k' (dict_set k v d) = if decide (k' = k) then Some v else dict_get k' d.
Proof.
  induction d as [| [k0 v0] d IH]; simpl.
  - reflexivity.
  - destruct (decide (k = k0)) as [-> | Hne]; simpl.
    + destruct (decide (k' = k0)); reflexivity.
    + rewrite IH. destruct (decide (k' = k0)) as [-> | Hne'].
      * rewrite decide_False by congruence. reflexivity.
      * reflexivity.
Qed.

Lemma dict_get_In {K V} `{EqDecision K} (k : K) (v : V) (d : dict K V) :
  In (k, v) d -> exists v', dict_get k d = Some v'.
Proof.
  induction d as [| [k0 v0] d IH]; simpl; [intros [] |].
  destruct (decide (k = k0)); [eauto |].
  intros [[= <- <-] | Hin]; [congruence | auto].
Qed.

Lemma dict_get_Some_In {K V} `{EqDecision K} (k : K) (v : V) (d : dict K V) :
  dict_get k d = Some v -> In (k, v) d.
Proof.
  induction d as [| [k0 v0] d IH]; simpl; [discriminate |].
  destruct (decide (k = k0)) as [-> |]; [intros [= <-]; left; reflexivity |].
  intros H. right. auto.
Qed.

Lemma dict_set_In {K V} `{EqDecision K} (k k' : K) (v v' : V) (d : dict K V) :
  In (k', v') (dict_set k v d) -> (k' = k /\ v' = v) \/ In (k', v') d.
Proof.
  induction d as [| [k0 v0] d IH]; simpl.
  - intros [[= <- <-] | []]. left. split; reflexivity.
  - destruct (decide (k = k0)) as [-> | Hne]; simpl.
    + intros [[= <- <-] | Hin]; [left; split; reflexivity | right; right; exact Hin].
    + intros [Heq | Hin]; [right; left; exact Heq |].
      destruct (IH Hin) as [? | ?]; [left; assumption | right; right; assumption].
Qed.

Lemma bucket_append_values {A} (P : A -> Prop) i a (d : dict seg (list A)) :
  P a ->
  (forall k ls, In (k, ls) d -> Forall P ls) ->
  forall k ls, In (k, ls) (bucket_append i a d) -> Forall P ls.
Proof.
  intros Ha Hd k ls. unfold bucket_append.
  destruct (dict_get i d) as [l0 |] eqn:Hi; intros Hin;
    apply dict_set_In in Hin as [[_ ->] | Hin]; try (eapply Hd, Hin).
  - apply Forall_app. split.
    + eapply Hd, dict_get_Some_In, Hi.
    + constructor; [exact Ha | constructor].
  - constructor; [exact Ha | constructor].
Qed.

(** ** Errors as objects: [add] does not touch the caller's errors *)

Module StoreFacts.
Import Store.

Ltac keeps_split := refine (conj _ (conj _ (conj _ _))).

Lemma keeps_ret {A} n (a : A) (Q : A -> Prop) : Q a -> keeps n (ret a) Q.
Proof. intros HQ h Hn Hc. simpl. auto. Qed.

Lemma keeps_raise {A} n x (Q : A -> Prop) : keeps n (raise x) Q.
Proof. intros h Hn Hc. simpl. auto. Qed.

Lemma keeps_lift {A} n (r : result A) (Q : A -> Prop) :
  (forall a, r = Ok a -> Q a) -> keeps n (lift r) Q.
Proof. intros HQ h Hn Hc. unfold lift. destruct r; auto. Qed.

Lemma keeps_bind {A B} n (m : M A) (f : A -> M B) (P : A -> Prop) (Q : B -> Prop) :
  keeps n m P -> (forall a, P a -> keeps n (f a) Q) -> keeps n (mbind m f) Q.
Proof.
  intros Hm Hf h Hn Hc. unfold mbind.
  specialize (Hm h Hn Hc). destruct (m h) as [h1 [a | x]].
  - destruct Hm as (Ht & Hl & Hc1 & HP).
    specialize (Hf a HP h1 Hl Hc1). destruct (f a h1) as [h2 r].
    destruct Hf as (Ht2 & ? & ? & ?). rewrite Ht2, Ht. auto.
  - exact Hm.
Qed.

Lemma keeps_weaken {A} n (m : M A) (P Q : A -> Prop) :
  keeps n m P -> (forall a, P a -> Q a) -> keeps n m Q.
Proof.
  intros Hm HPQ h Hn Hc. specialize (Hm h Hn Hc).
  destruct (m h) as [h1 [a | x]]; intuition.
Qed.

Lemma keeps_for_each_m {S A} n (body : S -> A -> M S) (I : S -> Prop) (l : list A) :
  (forall s a, I s -> In a l -> keeps n (body s a) I) ->
  forall s, I s -> keeps n (for_each_m body l s) I.
Proof.
  induction l as [| a l IH]; intros Hbody s Hs; simpl.
  - apply keeps_ret, Hs.
  - eapply keeps_bind.
    + apply Hbody; [exact Hs | left; reflexivity].
    + intros s' Hs'. apply IH; [| exact Hs'].
      intros s0 a0 H0 Hin. apply Hbody; [exact H0 | right; exact Hin].
Qed.

(** Reading an object above [n] tells that its references are above [n]. *)
Lemma keeps_get n l :
  keeps n (get l) (fun o => (n <= l)%nat -> Forall (fun c => (n <= c)%nat) (refs o)).
Proof.
  intros h Hn Hc. unfold get. destruct (_ !! l) as [o |] eqn:Hl; [| auto].
  keeps_split; auto. intros Hnl. exact (Hc l o Hnl Hl).
Qed.

Lemma refs_set_document_path (o : object) dp :
  refs (set_document_path o dp) = refs o.
Proof. reflexivity. Qed.

Lemma closed_above_insert n h l o :
  closed_above n h -> Forall (fun c => (n <= c)%nat) (refs o) ->
  closed_above n (<[l := o]> h).
Proof.
  intros Hc Ho l' o' Hn Hl'.
  destruct (decide (l = l')) as [<- | Hne].
  - destruct (decide (l < length h)%nat).
    + rewrite list_lookup_insert_eq in Hl' by assumption. congruence.
    + rewrite list_insert_ge in Hl' by lia. eapply Hc; eauto.
  - rewrite list_lookup_insert_ne in Hl' by assumption. eapply Hc; eauto.
Qed.

Lemma keeps_assign_document_path n l dp :
  (n <= l)%nat -> keeps n (assign_document_path l dp) (fun _ => True).
Proof.
  intros Hnl h Hn Hc. unfold assign_document_path.
  destruct (_ !! l) as [o |] eqn:Hl; [| auto].
  keeps_split.
  - apply take_insert_ge. exact Hnl.
  - rewrite length_insert. exact Hn.
  - apply closed_above_insert; [exact Hc |].
    rewrite refs_set_document_path. exact (Hc l o Hnl Hl).
  - exact I.
Qed.

Lemma keeps_store n l o :
  (n <= l)%nat -> Forall (fun c => (n <= c)%nat) (refs o) ->
  keeps n (store l o) (fun _ => True).
Proof.
  intros Hnl Ho h Hn Hc. unfold store. keeps_split.
  - apply take_insert_ge. exact Hnl.
  - rewrite length_insert. exact Hn.
  - apply closed_above_insert; assumption.
  - exact I.
Qed.

Lemma keeps_alloc n o :
  Forall (fun c => (n <= c)%nat) (refs o) ->
  keeps n (alloc o) (fun y => (n <= y)%nat).
Proof.
  intros Ho h Hn Hc. unfold alloc. keeps_split.
  - rewrite take_app_le by exact Hn. reflexivity.
  - rewrite length_app. lia.
  - intros l o' Hl Hl'.
    destruct (decide (l < length h)%nat).
    + rewrite lookup_app_l in Hl' by assumption. eapply Hc; eauto.
    + rewrite lookup_app_r in Hl' by lia.
      destruct (l - length h)%nat; simpl in Hl'; [| discriminate].
      injection Hl' as <-. exact Ho.
  - exact Hn.
Qed.

Lemma memo_above_set n memo x y :
  memo_above n memo -> (n <= y)%nat -> memo_above n (dict_set x y memo).
Proof.
  intros Hm Hy x' y'. rewrite dict_get_set.
  case_decide; [intros [= <-]; exact Hy | apply Hm].
Qed.

(** [deepcopy] allocates above [n] and returns a reference above [n]. *)
Lemma keeps_deepcopy n depth :
  forall memo x, memo_above n memo ->
    keeps n (deepcopy depth memo x)
      (fun r => memo_above n (fst r) /\ (n <= snd r)%nat).
Proof.
  induction depth as [| depth IH]; intros memo x Hm; simpl.
  - apply keeps_raise.
  - destruct (dict_get x memo) as [y |] eqn:Hx.
    + apply keeps_ret. split; [exact Hm | eapply Hm, Hx].
    + eapply keeps_bind; [apply keeps_get |]. intros o _.
      eapply keeps_bind; [apply (keeps_alloc n blank); constructor |].
      intros y Hy.
      eapply keeps_bind.
      * apply (keeps_for_each_m n _
                 (fun acc => memo_above n (fst acc) /\
                             Forall (fun c => (n <= c)%nat) (item_refs (snd acc)))).
        -- intros [memo1 items] item [Hm1 Hitems] _. simpl in *.
           destruct item as [v | errors].
           ++ apply keeps_ret. simpl. split; [exact Hm1 |].
              unfold item_refs in *. rewrite flat_map_app. simpl.
              rewrite app_nil_r. exact Hitems.
           ++ eapply keeps_bind.
              ** apply (keeps_for_each_m n _
                          (fun acc => memo_above n (fst acc) /\
                                      Forall (fun c => (n <= c)%nat) (snd acc))).
                 --- intros [memo2 ls] child [Hm2 Hls] _. simpl in *.
                     eapply keeps_bind; [apply IH; exact Hm2 |].
                     intros [memo3 c] [Hm3 Hc3]. simpl in *.
                     apply keeps_ret. simpl. split; [exact Hm3 |].
                     apply Forall_app. split; [exact Hls |].
                     constructor; [exact Hc3 | constructor].
                 --- simpl. split; [exact Hm1 | constructor].
              ** intros [memo2 ls] [Hm2 Hls]. simpl in *.
                 apply keeps_ret. simpl. split; [exact Hm2 |].
                 unfold item_refs in *. rewrite flat_map_app. simpl.
                 rewrite app_nil_r. apply Forall_app. split; assumption.
        -- simpl. split; [| constructor].
           apply memo_above_set; assumption.
      * intros [memo1 items] [Hm1 Hitems]. simpl in *.
        eapply keeps_bind; [apply keeps_store; [exact Hy | exact Hitems] |].
        intros _ _. apply keeps_ret. simpl. split; assumption.
Qed.

(** The child errors an object iterates over are among its references. *)
Lemma iterate_child_errors_refs (o : object) c children :
  child_errors o = Ok c -> iterate c = Ok children ->
  forall l, In l children -> In l (refs o).
Proof.
  unfold child_errors, index, refs, item_refs.
  destruct (is_group_error o).
  - destruct (info o) as [| item rest]; simpl; [discriminate |].
    intros [= <-]. destruct item as [[| [|] | ] | ls]; simpl; try discriminate.
    + intros [= <-] l [].
    + intros [= <-] l Hl. apply in_or_app. left. exact Hl.
  - intros [= <-]. discriminate.
Qed.

Lemma keeps_definitions_errors n l :
  (n <= l)%nat ->
  keeps n (definitions_errors l)
    (fun d => forall buckets, d = Some buckets ->
       forall k ls, In (k, ls) buckets -> Forall (fun c => (n <= c)%nat) ls).
Proof.
  intros Hnl. unfold definitions_errors.
  eapply keeps_bind; [apply keeps_get |]. intros o Ho. specialize (Ho Hnl).
  destruct (negb (is_logic_error o)).
  { apply keeps_ret. discriminate. }
  eapply keeps_bind; [apply (keeps_lift n _ (fun c => child_errors o = Ok c)); auto |].
  intros c Hc. simpl in Hc.
  eapply keeps_bind; [apply (keeps_lift n _ (fun cs => iterate c = Ok cs)); auto |].
  intros children Hchildren. simpl in Hchildren.
  eapply keeps_bind.
  - apply (keeps_for_each_m n _
             (fun d => forall k ls, In (k, ls) d -> Forall (fun c => (n <= c)%nat) ls)).
    + intros d child Hd Hin.
      eapply keeps_bind; [apply keeps_get |]. intros e _.
      eapply keeps_bind; [apply (keeps_lift n _ (fun _ => True)); auto |].
      intros i _. apply keeps_ret.
      apply bucket_append_values; [| exact Hd].
      eapply Forall_forall; [exact Ho |].
      apply list_elem_of_In.
      eapply iterate_child_errors_refs; eauto.
    + intros k ls [].
  - intros d Hd. apply keeps_ret. intros buckets [= <-]. exact Hd.
Qed.

(** The rewriting pass started on an object above [n] writes above [n]. *)
Lemma keeps_rewrite n depth :
  (forall l offset, (n <= l)%nat ->
     keeps n (_rewrite_error_path depth l offset) (fun _ => True)) /\
  (forall l offset, (n <= l)%nat ->
     keeps n (_rewrite_group_error_path depth l offset) (fun _ => True)) /\
  (forall l offset, (n <= l)%nat ->
     keeps n (_rewrite_logic_error_path depth l offset) (fun _ => True)).
Proof.
  induction depth as [| depth (IH & IHg & IHl)].
  { split; [| split]; intros l offset Hnl; apply keeps_raise. }
  split; [| split]; intros l offset Hnl;
    cbn [_rewrite_error_path _rewrite_group_error_path _rewrite_logic_error_path].
  - eapply keeps_bind; [apply keeps_get |]. intros e _.
    destruct (is_logic_error e); [apply IHl, Hnl |].
    destruct (is_group_error e); [apply IHg, Hnl |].
    apply keeps_ret. exact I.
  - eapply keeps_bind; [apply keeps_get |]. intros e He. specialize (He Hnl).
    eapply keeps_bind; [apply (keeps_lift n _ (fun c => child_errors e = Ok c)); auto |].
    intros c Hc. simpl in Hc.
    eapply keeps_bind; [apply (keeps_lift n _ (fun cs => iterate c = Ok cs)); auto |].
    intros children Hchildren. simpl in Hchildren.
    apply (keeps_for_each_m n _ (fun _ => True)); [| exact I].
    intros _ child _ Hin.
    assert (Hchild : (n <= child)%nat).
    { eapply Forall_forall; [exact He |].
      apply list_elem_of_In. eapply iterate_child_errors_refs; eauto. }
    eapply keeps_bind; [apply keeps_get |]. intros o _.
    eapply keeps_bind; [apply keeps_get |]. intros e' _.
    eapply keeps_bind; [apply keeps_assign_document_path, Hchild |]. intros _ _.
    apply IH, Hchild.
  - eapply keeps_bind; [apply keeps_get |]. intros e _.
    eapply keeps_bind; [apply keeps_definitions_errors, Hnl |].
    intros [buckets |] Hd; [| apply keeps_raise].
    specialize (Hd buckets eq_refl).
    apply (keeps_for_each_m n _ (fun _ => True)); [| exact I].
    intros _ [i ls] _ Hin. cbn [fst snd].
    specialize (Hd i ls Hin).
    destruct ls as [| c0 ls0]; [apply keeps_ret; exact I |].
    cbv beta iota. remember (c0 :: ls0) as ls eqn:Els. clear Els.
    eapply keeps_bind; [apply keeps_get |]. intros e' _.
    apply (keeps_for_each_m n _ (fun _ => True)); [| exact I].
    intros _ child _ Hin'.
    assert (Hchild : (n <= child)%nat).
    { eapply Forall_forall; [exact Hd |]. apply list_elem_of_In. exact Hin'. }
    eapply keeps_bind; [apply keeps_get |]. intros o _.
    eapply keeps_bind; [apply keeps_assign_document_path, Hchild |]. intros _ _.
    apply IH, Hchild.
Qed.

Lemma closed_above_length (h : heap) : closed_above (length h) h.
Proof.
  intros l o Hl Hlo. apply lookup_lt_Some in Hlo. lia.
Qed.

End StoreFacts.

(** C6.  Whatever [add] does, the objects that existed before the call
    are the same afterwards, attribute for attribute: the rewriting pass
    writes to the copies only. *)
Theorem add_leaves_the_callers_errors
    (self_messages : dict Z template)
    (repr_errors : list ValidationError -> string)
    (depth : nat) (tree : report) (error : Store.loc) (h : Store.heap) :
  take (length h) (fst (Store.add self_messages repr_errors depth tree error h)) = h.
Proof.
  unfold Store.add.
  pose proof (StoreFacts.keeps_deepcopy (length h) depth [] error) as Hcopy.
  specialize (Hcopy ltac:(intros x y; discriminate) h (Nat.le_refl _)
                (StoreFacts.closed_above_length h)).
  destruct (Store.deepcopy depth [] error h) as [h1 [[memo y] | x]];
    destruct Hcopy as (Ht1 & Hl1 & Hc1 & Hy).
  2:{ simpl. rewrite Ht1. apply firstn_all. }
  simpl in Hy. destruct Hy as [_ Hy]. simpl snd.
  pose proof (StoreFacts.keeps_rewrite (length h) depth) as (Hrw & _ & _).
  specialize (Hrw y 0 Hy h1 Hl1 Hc1).
  destruct (Store._rewrite_error_path depth y 0 h1) as [h2 r].
  destruct Hrw as (Ht2 & _).
  assert (take (length h) h2 = h) as Hh2.
  { rewrite Ht2, Ht1. apply firstn_all. }
  destruct r as [[] | x]; [| exact Hh2].
  destruct (Store.snapshot depth h2 y); exact Hh2.
Qed.

(** On this error the copy is rewritten (the first error under [anyof]
    moves from [price] to [a], [anyof definition 0]), the seven objects
    of the caller keep their attributes, and the handler's outcome is
    the one [BasicErrorHandler.add] computes on the error as a value. *)
Example add_rewrites_the_copy_only :
  let h := fst (Store.allocate nested_group []) in
  let error := snd (Store.allocate nested_group []) in
  let r := Store.add messages (fun _ => ""%string) 10 [] error h in
  length h = 7%nat /\
  document_path <$> h !! 1%nat = Some [SStr "price"] /\
  document_path <$> fst r !! 1%nat = Some [SStr "price"] /\
  document_path <$> fst r !! 10%nat = Some [SStr "a"; SStr "anyof definition 0"] /\
  snd r = add messages (fun _ => ""%string) [] nested_group.
Proof. vm_compute. repeat split; reflexivity. Qed.

(** Without the copy the pass would reach the caller's objects: run on
    the error itself, it moves the caller's first [anyof] child. *)
Example rewriting_in_place_reaches_the_object :
  let h := fst (Store.allocate nested_group []) in
  let error := snd (Store.allocate nested_group []) in
  document_path <$> fst (Store._rewrite_error_path 10 error 0 h) !! 1%nat
  = Some [SStr "a"; SStr "anyof definition 0"].
Proof. reflexivity. Qed.

(** Nested [oneof] errors: every error lands under the synthetic
    segments of the logic errors above it, and the store model agrees
    with the model on values. *)
Example nested_oneofs_report :
  snd (__call__ messages (fun _ => ""%string) [] [nested_oneofs])
  = Ok [(SStr "abc",
         [Msg "none or more than one rule validate";
          Sub
            [(SStr "oneof definition 0",
              [Sub
                 [(SStr "foo",
                   [Sub
                      [(SStr "bar",
                        [Msg "none or more than one rule validate";
                         Sub
                           [(SStr "oneof definition 0", [Msg "must be of integer type"]);
                            (SStr "oneof definition 1", [Msg "must be of float type"]);
                            (SStr "oneof definition 2", [Msg "must be of string type"])]])]])]]);
             (SStr "oneof definition 1",
              [Sub [(SStr "foo", [Msg "unknown field"])]])]])]
  /\ snd (Store.add messages (fun _ => ""%string) 20 []
            (snd (Store.allocate nested_oneofs []))
            (fst (Store.allocate nested_oneofs [])))
     = add messages (fun _ => ""%string) [] nested_oneofs.
Proof. split; reflexivity. Qed.

(** ** An error code without a template among the children *)

(** C2 fails on the code.  [add] checks that the code has a template
    only for the error it is given; a child of a group error is
    formatted without that check, and [self.messages[error.code]]
    raises [KeyError]. *)
Theorem unknown_code_child_raises_KeyError
    (repr_errors : list ValidationError -> string) (tree : report) :
  add messages repr_errors tree group_with_unknown_child = Failed KeyError tree.
Proof. reflexivity. Qed.

(** ** The [anyof] scenario *)

Section Scenario.
Variable repr_errors : list ValidationError -> string.
Variables (sp : DocumentPath) (k v : pyval).
Variable rest : list (info_item ValidationError).
Variables c1 c2 c3 c4 : ValidationError.
Variables m1 m2 m3 m4 : string.

Hypothesis H1 : plain_child repr_errors sp c1 0 m1.
Hypothesis H2 : plain_child repr_errors sp c2 0 m2.
Hypothesis H3 : plain_child repr_errors sp c3 1 m3.
Hypothesis H4 : plain_child repr_errors sp c4 1 m4.

Local Abbreviation scenario_error := (scenario_error sp k v rest).

Lemma scenario_rewrite d :
  _rewrite_error_path (S (S (S d))) (scenario_error [c1; c2; c3; c4]) 0
  = Ok (scenario_error [moved c1 "0"; moved c2 "0"; moved c3 "1"; moved c4 "1"]).
Proof.
  destruct H1 as (Hg1 & Hl1 & Hd1 & Hs1 & Hm1), H2 as (Hg2 & Hl2 & Hd2 & Hs2 & Hm2),
    H3 as (Hg3 & Hl3 & Hd3 & Hs3 & Hm3), H4 as (Hg4 & Hl4 & Hd4 & Hs4 & Hm4).
  unfold scenario_error.
  set (parent := mkValidationError _ _ _ _ _ _ (IErrors [c1; c2; c3; c4] :: rest)).
  cbn [_rewrite_error_path].
  change (is_logic_error parent) with true. cbn iota.
  cbn [_rewrite_logic_error_path].
  unfold definitions_errors.
  change (is_logic_error parent) with true. cbn [negb].
  unfold child_errors. change (is_group_error parent) with true. cbn iota.
  subst parent.
  cbn [mkValidationError attrs info index lookup list_lookup bind iterate imap
         bucket_children for_each schema_path].
  unfold index. cbn [compose snd fst]. rewrite Hs1, Hs2, Hs3, Hs4.
  cbn [bind].
  match goal with |- context [bucket_append ?a ?b ?c] =>
    let t := eval vm_compute in (bucket_append a b c) in
    change (bucket_append a b c) with t end.
  cbn [for_each snd fst bind].
  rewrite Hd1, Hd2, Hd3, Hd4.
  repeat (rewrite (rewrite_plain d) by assumption;
          cbn -[Z.land _rewrite_error_path]).
  reflexivity.
Qed.

Lemma scenario_insert d :
  _insert_logic_error messages repr_errors (S d) []
    (scenario_error [moved c1 "0"; moved c2 "0"; moved c3 "1"; moved c4 "1"])
  = Done
      [(SStr "price",
        [Msg "no definitions validate";
         Sub [(SStr "anyof definition 0", [Msg m1; Msg m2; Sub []]);
              (SStr "anyof definition 1", [Msg m3; Msg m4; Sub []])]])].
Proof.
  destruct H1 as (Hg1 & Hl1 & Hd1 & Hs1 & Hm1), H2 as (Hg2 & Hl2 & Hd2 & Hs2 & Hm2),
    H3 as (Hg3 & Hl3 & Hd3 & Hs3 & Hm3), H4 as (Hg4 & Hl4 & Hd4 & Hs4 & Hm4).
  unfold scenario_error.
  set (parent := mkValidationError _ _ _ _ _ _ _).
  cbn [_insert_logic_error].
  change (insert_message messages repr_errors [] _ _ _) with
    (Done [(SStr "price", [Msg "no definitions validate"; Sub []])]).
  cbn iota.
  unfold definitions_errors.
  change (is_logic_error parent) with true. cbn [negb].
  unfold child_errors. change (is_group_error parent) with true. cbn iota.
  subst parent.
  cbn [mkValidationError attrs info index lookup list_lookup bind iterate imap
         bucket_children for_each schema_path].
  unfold index. cbn [compose snd fst].
  change (schema_path (moved c1 "0")) with (schema_path c1).
  change (schema_path (moved c2 "0")) with (schema_path c2).
  change (schema_path (moved c3 "1")) with (schema_path c3).
  change (schema_path (moved c4 "1")) with (schema_path c4).
  rewrite Hs1, Hs2, Hs3, Hs4.
  cbn [bind].
  remember (moved c1 "0") as x1 eqn:E1.
  remember (moved c2 "0") as x2 eqn:E2.
  remember (moved c3 "1") as x3 eqn:E3.
  remember (moved c4 "1") as x4 eqn:E4.
  match goal with |- context [bucket_append ?a ?b ?c] =>
    let t := eval vm_compute in (bucket_append a b c) in
    change (bucket_append a b c) with t end.
  cbn [for_errors map snd fst].
  subst x1 x2 x3 x4.
  change (is_logic_error (moved c1 "0")) with (is_logic_error c1).
  change (is_logic_error (moved c2 "0")) with (is_logic_error c2).
  change (is_logic_error (moved c3 "1")) with (is_logic_error c3).
  change (is_logic_error (moved c4 "1")) with (is_logic_error c4).
  change (is_group_error (moved c1 "0")) with (is_group_error c1).
  change (is_group_error (moved c2 "0")) with (is_group_error c2).
  change (is_group_error (moved c3 "1")) with (is_group_error c3).
  change (is_group_error (moved c4 "1")) with (is_group_error c4).
  rewrite Hl1, Hg1, Hl2, Hg2, Hl3, Hg3, Hl4, Hg4.
  unfold insert_message.
  change (_format_message _ _ _ (moved c1 "0"))
    with (_format_message messages repr_errors (Some (SStr "price")) c1).
  change (_format_message _ _ _ (moved c2 "0"))
    with (_format_message messages repr_errors (Some (SStr "price")) c2).
  change (_format_message _ _ _ (moved c3 "1"))
    with (_format_message messages repr_errors (Some (SStr "price")) c3).
  change (_format_message _ _ _ (moved c4 "1"))
    with (_format_message messages repr_errors (Some (SStr "price")) c4).
  rewrite Hm1, Hm2, Hm3, Hm4.
  reflexivity.
Qed.

Lemma scenario_call tree :
  __call__ messages repr_errors tree [scenario_error [c1; c2; c3; c4]]
  = ([(SStr "price",
       [Msg "no definitions validate";
        Sub [(SStr "anyof definition 0", [Msg m1; Msg m2; Sub []]);
             (SStr "anyof definition 1", [Msg m3; Msg m4; Sub []])]])],
     Ok [(SStr "price",
          [Msg "no definitions validate";
           Sub [(SStr "anyof definition 0", [Msg m1; Msg m2]);
                (SStr "anyof definition 1", [Msg m3; Msg m4])]])]).
Proof.
  unfold __call__, clear, extend. cbn [for_errors].
  unfold add, deepcopy, depth_for.
  replace (2 * height (scenario_error [c1; c2; c3; c4]) + 2)%nat
    with (S (S (S (S (2 * list_max (map height [c1; c2; c3; c4]))))))
    by (cbn [height scenario_error mkValidationError attrs info]; lia).
  rewrite scenario_rewrite.
  unfold insert. change (is_logic_error (scenario_error _)) with true. cbn iota.
  replace (2 * height (scenario_error [moved c1 "0"; moved c2 "0"; moved c3 "1"; moved c4 "1"]) + 2)%nat
    with (S (S (S (S (2 * list_max (map height [moved c1 "0"; moved c2 "0"; moved c3 "1"; moved c4 "1"]))))))
    by (cbn [height scenario_error mkValidationError attrs info]; lia).
  rewrite scenario_insert. reflexivity.
Qed.

End Scenario.

(** C3.  One [anyof] error at [price] with four plain children, the
    first two from definition 0 and the last two from definition 1,
    yields a report where [price] holds the [anyof] message and a
    sub-entry per definition with the messages of its two children. *)
Theorem anyof_scenario
    (repr_errors : list ValidationError -> string)
    (sp : DocumentPath) (k v : pyval) (rest : list (info_item ValidationError))
    (c1 c2 c3 c4 : ValidationError) (m1 m2 m3 m4 : string) (tree : report) :
  plain_child repr_errors sp c1 0 m1 ->
  plain_child repr_errors sp c2 0 m2 ->
  plain_child repr_errors sp c3 1 m3 ->
  plain_child repr_errors sp c4 1 m4 ->
  snd (__call__ messages repr_errors tree
         [scenario_error sp k v rest [c1; c2; c3; c4]])
  = Ok [(SStr "price",
         [Msg "no definitions validate";
          Sub [(SStr "anyof definition 0", [Msg m1; Msg m2]);
               (SStr "anyof definition 1", [Msg m3; Msg m4])]])].
Proof.
  intros P1 P2 P3 P4.
  rewrite (scenario_call repr_errors sp k v rest c1 c2 c3 c4 m1 m2 m3 m4 P1 P2 P3 P4).
  reflexivity.
Qed.

Lemma anyof_scenario_witness :
  snd (__call__ messages (fun _ => ""%string) [] [anyof_error])
  = Ok [(SStr "price",
         [Msg "no definitions validate";
          Sub [(SStr "anyof definition 0",
                [Msg "must be of integer type"; Msg "min value is 10"]);
               (SStr "anyof definition 1",
                [Msg "must be of string type"; Msg "max value is 3"])]])].
Proof.
  apply (anyof_scenario (fun _ => ""%string) [SStr "price"; SStr "anyof"]
           PNone (PStr "x") []
           (anyof_child 0 "type" 0x24 (PStr "integer"))
           (anyof_child 0 "min" 0x42 (PInt 10))
           (anyof_child 1 "type" 0x24 (PStr "string"))
           (anyof_child 1 "max" 0x43 (PInt 3))
           "must be of integer type" "min value is 10"
           "must be of string type" "max value is 3" []);
    repeat split; reflexivity.
Defined.

(** ** Recursion depth *)


Lemma for_errors_ext {A} (f g : report -> A -> outcome) (l : list A) (t : report) :
  (forall t a, In a l -> f t a = g t a) -> for_errors f l t = for_errors g l t.
Proof.
  revert t. induction l as [| a l IH]; intros t H; simpl; [reflexivity |].
  rewrite (H t a) by (left; reflexivity).
  destruct (g t a) as [t' | x t']; [| reflexivity].
  apply IH. intros t0 a0 Hin. apply H. right. exact Hin.
Qed.

Lemma list_max_map_ge {A} (f : A -> nat) (l : list A) (a : A) :
  In a l -> (f a <= list_max (map f l))%nat.
Proof.
  induction l as [| a0 l IH]; [intros [] |].
  cbn [map list_max fold_right]. intros [-> | Hin]; [apply Nat.le_max_l |].
  etransitivity; [apply IH, Hin | apply Nat.le_max_r].
Qed.

Lemma height_children (e : ValidationError) cs rest :
  info e = IErrors cs :: rest -> forall c, In c cs -> (height c < height e)%nat.
Proof.
  destruct e as [a]. cbn [attrs height]. intros -> c Hin.
  apply Nat.lt_succ_r. apply list_max_map_ge. exact Hin.
Qed.

Lemma height_set_document_path (c : ValidationError) dp :
  height (Error (set_document_path c dp)) = height c.
Proof. destruct c as [a]. reflexivity. Qed.

(** The errors a loop over [child_errors] sees are nested in the error. *)
Lemma iterate_child_errors_height (e : ValidationError) c cs :
  child_errors e = Ok c -> iterate c = Ok cs ->
  forall c', In c' cs -> (height c' < height e)%nat.
Proof.
  unfold child_errors, index.
  destruct (is_group_error e).
  - destruct (info e) as [| item rest] eqn:Hi; simpl; [discriminate |].
    intros [= <-]. destruct item as [[| [|] | ] | ls]; simpl; try discriminate.
    + intros [= <-] c' [].
    + intros [= <-]. eapply height_children, Hi.
  - intros [= <-]. discriminate.
Qed.

Lemma imap_pair_In {A} (l : list A) (f : nat -> nat) k a :
  In (k, a) (imap (fun i => pair (f i)) l) -> In a l.
Proof.
  revert f. induction l as [| x l IH]; intros f; simpl; [intros [] |].
  intros [[= _ <-] | Hin]; [left; reflexivity |].
  right. apply (IH (f ∘ S)). exact Hin.
Qed.

Lemma bucket_children_In psp (l : list (nat * ValidationError)) d :
  bucket_children psp l = Ok d ->
  forall i b kc, In (i, b) d -> In kc b -> In kc l.
Proof.
  unfold bucket_children.
  assert (Hgen : forall (l0 : list (nat * ValidationError)) d0 d,
             (forall i b, In (i, b) d0 -> Forall (fun kc => In kc l) b) ->
             (forall kc, In kc l0 -> In kc l) ->
             for_each
               (fun d (kc : nat * ValidationError) =>
                  let! i := index (schema_path (snd kc)) (length psp) in
                  Ok (bucket_append i kc d)) l0 d0 = Ok d ->
             forall i b, In (i, b) d -> Forall (fun kc => In kc l) b).
  { induction l0 as [| kc l0 IH]; intros d0 d1 Hd0 Hl0; simpl.
    - intros [= <-]. exact Hd0.
    - destruct (index (schema_path (snd kc)) (length psp)) as [i |]; simpl; [| discriminate].
      apply IH.
      + apply bucket_append_values; [| exact Hd0]. apply Hl0. left. reflexivity.
      + intros kc' Hin. apply Hl0. right. exact Hin. }
  intros H i b kc Hb Hkc.
  specialize (Hgen l [] d (fun _ _ F => match F with end) (fun _ H => H) H i b Hb).
  rewrite Forall_forall in Hgen. apply Hgen, list_elem_of_In, Hkc.
Qed.

(** The errors in the buckets of [definitions_errors] are nested in the
    error. *)
Lemma definitions_errors_height (e : ValidationError) buckets :
  definitions_errors e = Ok (Some buckets) ->
  forall i b kc, In (i, b) buckets -> In kc b -> (height (snd kc) < height e)%nat.
Proof.
  unfold definitions_errors.
  destruct (negb (is_logic_error e)); [discriminate |].
  destruct (child_errors e) as [c |] eqn:Hc; simpl; [| discriminate].
  destruct (iterate c) as [cs |] eqn:Hcs; simpl; [| discriminate].
  destruct (bucket_children (schema_path e) (imap pair cs)) as [d |] eqn:Hd;
    simpl; [| discriminate].
  intros [= <-] i b [k c'] Hb Hkc. simpl.
  eapply iterate_child_errors_height; [exact Hc | exact Hcs |].
  eapply (imap_pair_In cs (fun i => i) k).
  eapply bucket_children_In; eauto.
Qed.

Section Depth.
Variable self_messages : dict Z template.
Variable repr_errors : list ValidationError -> string.



End Depth.

(** ** The depth [add] runs with is enough *)

Lemma for_each_raise {S A} (body : S -> A -> result S) (l : list A) (s : S) x :
  for_each body l s = Raise x -> exists s' a, In a l /\ body s' a = Raise x.
Proof.
  revert s. induction l as [| a l IH]; intros s; simpl; [discriminate |].
  destruct (body s a) as [s1 |] eqn:Hb; simpl.
  - intros H. destruct (IH s1 H) as (s' & a' & Hin & Hr).
    exists s', a'. split; [right; exact Hin | exact Hr].
  - intros [= <-]. exists s, a. split; [left; reflexivity | exact Hb].
Qed.

Lemma for_errors_failed {A} (body : report -> A -> outcome) (l : list A) t x t' :
  for_errors body l t = Failed x t' ->
  exists t0 a, In a l /\ body t0 a = Failed x t'.
Proof.
  revert t. induction l as [| a l IH]; intros t; simpl; [discriminate |].
  destruct (body t a) as [t1 | x1 t1] eqn:Hb.
  - intros H. destruct (IH t1 H) as (t0 & a' & Hin & Hr).
    exists t0, a'. split; [right; exact Hin | exact Hr].
  - intros [= <- <-]. exists t, a. split; [left; reflexivity | exact Hb].
Qed.

Lemma index_raises {A} (l : list A) i x : index l i = Raise x -> x = IndexError.
Proof. unfold index. destruct (l !! i); [discriminate | intros [= <-]; reflexivity]. Qed.

Lemma child_errors_raises {E} (e : error_attrs E) x :
  child_errors e = Raise x -> x = IndexError.
Proof.
  unfold child_errors. destruct (is_group_error e); [| discriminate].
  destruct (index (info e) 0) eqn:Hi; simpl; [discriminate |].
  intros [= <-]. eapply index_raises, Hi.
Qed.

Lemma iterate_raises {E} (c : option (info_item E)) x :
  iterate c = Raise x -> x <> RecursionError.
Proof.
  destruct c as [[[| [|] |] |] |]; simpl; intros [= <-]; discriminate.
Qed.

Lemma definitions_errors_raises (e : ValidationError) x :
  definitions_errors e = Raise x -> x <> RecursionError.
Proof.
  unfold definitions_errors. destruct (negb (is_logic_error e)); [discriminate |].
  destruct (child_errors e) as [c |] eqn:Hc; simpl.
  2:{ intros [= <-]. apply child_errors_raises in Hc as ->. discriminate. }
  destruct (iterate c) as [cs |] eqn:Hcs; simpl.
  2:{ intros [= <-]. eapply iterate_raises, Hcs. }
  destruct (bucket_children (schema_path e) (imap pair cs)) as [d |] eqn:Hd; simpl;
    [discriminate |].
  intros [= <-]. unfold bucket_children in Hd.
  apply for_each_raise in Hd as (d0 & kc & _ & Hb).
  destruct (index (schema_path (snd kc)) (length (schema_path e))) eqn:Hi;
    simpl in Hb; [discriminate |].
  injection Hb as <-. apply index_raises in Hi as ->. discriminate.
Qed.

Section EnoughDepth.
Variable self_messages : dict Z template.
Variable repr_errors : list ValidationError -> string.

Lemma rewrite_within_depth d :
  (forall (e : ValidationError) offset,
     (2 * height e + 2 <= d)%nat ->
     _rewrite_error_path d e offset <> Raise RecursionError) /\
  (forall (e : ValidationError) offset,
     (2 * height e + 1 <= d)%nat ->
     _rewrite_group_error_path d e offset <> Raise RecursionError) /\
  (forall (e : ValidationError) offset,
     (2 * height e + 1 <= d)%nat ->
     _rewrite_logic_error_path d e offset <> Raise RecursionError).
Proof.
  induction d as [| d (IH & IHg & IHl)].
  { repeat split; intros; lia. }
  split; [| split]; intros e offset Hd;
    cbn [_rewrite_error_path _rewrite_group_error_path _rewrite_logic_error_path].
  - destruct (is_logic_error e); [apply IHl; lia |].
    destruct (is_group_error e); [apply IHg; lia | discriminate].
  - destruct (child_errors e) as [c |] eqn:Hc; simpl.
    2:{ apply child_errors_raises in Hc as ->. discriminate. }
    destruct (iterate c) as [cs |] eqn:Hcs; simpl.
    2:{ intros [= ->]. eapply iterate_raises; [exact Hcs | reflexivity]. }
    intros Hr. apply for_each_raise in Hr as (err & [k c'] & Hin & Hb).
    cbn [fst snd] in Hb.
    apply imap_pair_In with (f := fun i => i) in Hin.
    pose proof (iterate_child_errors_height e c cs Hc Hcs c' Hin) as Hh.
    match type of Hb with (let! _ := ?r in _) = _ => destruct r eqn:Hrec end;
      simpl in Hb; [discriminate |].
    injection Hb as ->. revert Hrec. apply IH.
    rewrite height_set_document_path. lia.
  - destruct (definitions_errors e) as [[buckets |] |] eqn:Hdef; simpl.
    3:{ intros [= ->]. eapply definitions_errors_raises; [exact Hdef | reflexivity]. }
    2:{ discriminate. }
    intros Hr. apply for_each_raise in Hr as (err & [i b] & Hb & Hloop).
    cbn [fst snd] in Hloop.
    destruct b as [| kc0 b0] eqn:Eb; [discriminate |]. rewrite <- Eb in *. clear Eb.
    apply for_each_raise in Hloop as (err' & [k c'] & Hin & Hbody).
    cbn [fst snd] in Hbody.
    pose proof (definitions_errors_height e buckets Hdef i b (k, c') Hb Hin) as Hh.
    simpl in Hh.
    match type of Hbody with (let! _ := ?r in _) = _ => destruct r eqn:Hrec end;
      simpl in Hbody; [discriminate |].
    injection Hbody as ->. revert Hrec. apply IH.
    rewrite height_set_document_path. lia.
Qed.

Lemma insert_error_raises tree path node x :
  _insert_error tree path node = Raise x -> x <> RecursionError.
Proof.
  revert tree. induction path as [| k rest IH]; intros tree; simpl.
  - intros [= <-]. discriminate.
  - destruct rest as [| k' rest'].
    + destruct (dict_get k tree) as [l |]; [| discriminate].
      unfold pop. destruct (last l); simpl; [discriminate |].
      intros [= <-]. discriminate.
    + match goal with |- context [last ?l] =>
        destruct (last l) as [[[| ? ?] | subtree] |] end.
      * destruct (_insert_error [] (k' :: rest') node) eqn:Hrec; simpl;
          intros [= <-]; [discriminate | eapply IH, Hrec].
      * intros [= <-]. discriminate.
      * match goal with |- context [_insert_error ?t (k' :: rest') node] =>
          destruct (_insert_error t (k' :: rest') node) eqn:Hrec end; simpl;
          [discriminate | intros [= <-]; eapply IH, Hrec].
      * intros [= <-]. discriminate.
Qed.

Lemma insert_message_failed tree path field (e : ValidationError) x t' :
  insert_message self_messages repr_errors tree path field e = Failed x t' ->
  x <> RecursionError.
Proof.
  unfold insert_message.
  destruct (_format_message self_messages repr_errors field e) as [m | x0] eqn:Hf.
  - destruct (_insert_error tree path (Msg m)) eqn:Hi; [discriminate |].
    intros [= <- _]. eapply insert_error_raises, Hi.
  - intros [= <- _].
    apply format_message_raises in Hf as [[-> _] | ->]; discriminate.
Qed.

Lemma insert_within_depth d :
  (forall tree (e : ValidationError) t',
     (height e + 1 <= d)%nat ->
     _insert_logic_error self_messages repr_errors d tree e
       <> Failed RecursionError t') /\
  (forall tree (e : ValidationError) t',
     (height e + 1 <= d)%nat ->
     _insert_group_error self_messages repr_errors d tree e
       <> Failed RecursionError t').
Proof.
  induction d as [| d (IHl & IHg)].
  { split; intros; lia. }
  split; intros tree e t' Hd; cbn [_insert_logic_error _insert_group_error].
  - destruct (insert_message _ _ tree (document_path e) (field e) e)
      as [tree1 | x tree1] eqn:Hm.
    2:{ intros [= -> _]. eapply insert_message_failed; [exact Hm | reflexivity]. }
    destruct (definitions_errors e) as [[buckets |] |] eqn:Hdef.
    3:{ intros [= -> _]. eapply definitions_errors_raises; [exact Hdef | reflexivity]. }
    2:{ discriminate. }
    intros Hr. apply for_errors_failed in Hr as (t0 & [i b] & Hb & Hloop).
    cbn [snd] in Hloop.
    apply for_errors_failed in Hloop as (t1 & c' & Hin & Hbody).
    apply in_map_iff in Hin as ([k c''] & Heq & Hin). simpl in Heq. subst c''.
    pose proof (definitions_errors_height e buckets Hdef i b (k, c') Hb Hin) as Hh.
    simpl in Hh. revert Hbody.
    destruct (is_logic_error c'); [apply IHl; lia |].
    destruct (is_group_error c'); [apply IHg; lia |].
    intros Hbody. eapply insert_message_failed; [exact Hbody | reflexivity].
  - destruct (child_errors e) as [c |] eqn:Hc; simpl.
    2:{ intros [= -> _]. apply child_errors_raises in Hc. discriminate. }
    destruct (iterate c) as [cs |] eqn:Hcs; simpl.
    2:{ intros [= -> _]. eapply iterate_raises; [exact Hcs | reflexivity]. }
    intros Hr. apply for_errors_failed in Hr as (t0 & c' & Hin & Hbody).
    pose proof (iterate_child_errors_height e c cs Hc Hcs c' Hin) as Hh.
    revert Hbody.
    destruct (is_logic_error c'); [apply IHl; lia |].
    destruct (is_group_error c'); [apply IHg; lia |].
    intros Hbody. eapply insert_message_failed; [exact Hbody | reflexivity].
Qed.

(** The depth that [add] gives its passes is enough: the run does not
    end in [RecursionError]. *)
Lemma add_depth_for_enough tree (e : ValidationError) t' :
  add self_messages repr_errors tree e <> Failed RecursionError t'.
Proof.
  unfold add, deepcopy.
  destruct (_rewrite_error_path (depth_for e) e 0) as [e' | x] eqn:Hr.
  - unfold insert.
    destruct (is_logic_error e');
      [apply (proj1 (insert_within_depth _)); unfold depth_for; lia |].
    destruct (is_group_error e');
      [apply (proj2 (insert_within_depth _)); unfold depth_for; lia |].
    destruct (dict_has (code e') self_messages); [| discriminate].
    intros H. eapply insert_message_failed; [exact H | reflexivity].
  - intros [= -> _]. revert Hr.
    apply (proj1 (rewrite_within_depth _)). unfold depth_for. lia.
Qed.

End EnoughDepth.

(** ** Group errors *)


Lemma map_result_In {A B} (f : A -> result B) (l : list A) (l' : list B) :
  map_result f l = Ok l' ->
  forall b, In b l' -> exists a, In a l /\ f a = Ok b.
Proof.
  revert l'. induction l as [| a l IH]; intros l'; simpl.
  - intros [= <-] b [].
  - destruct (f a) as [b0 |] eqn:Hfa; simpl; [| discriminate].
    destruct (map_result f l) as [bs |]; simpl; [| discriminate].
    intros [= <-] b [<- | Hin].
    + exists a. split; [left; reflexivity | exact Hfa].
    + destruct (IH bs eq_refl b Hin) as (a' & Ha' & Hf).
      exists a'. split; [right; exact Ha' | exact Hf].
Qed.

Lemma slice_from_start {A} (n : nat) (l : list A) :
  slice_from (Z.of_nat n - 0) l = drop n l.
Proof.
  unfold slice_from. rewrite Z.sub_0_r.
  destruct (Z.leb_spec 0 (Z.of_nat n)); [| lia].
  rewrite Nat2Z.id. reflexivity.
Qed.

Lemma set_child_with_children (g : ValidationError) pre c c' post rest :
  info g = IErrors (pre ++ c :: post) :: rest ->
  set_child (length pre) c' g = with_children g (pre ++ c' :: post).
Proof.
  intros Hi. unfold set_child, with_children. rewrite Hi.
  rewrite insert_app_r_alt by lia. rewrite Nat.sub_diag. reflexivity.
Qed.

Lemma info_with_children (g : ValidationError) cs cs' rest :
  info g = IErrors cs :: rest ->
  info (with_children g cs') = IErrors cs' :: rest.
Proof. intros Hi. unfold with_children. rewrite Hi. reflexivity. Qed.

Lemma with_children_twice (g : ValidationError) cs cs' cs'' rest :
  info g = IErrors cs :: rest ->
  with_children (with_children g cs') cs'' = with_children g cs''.
Proof.
  intros Hi. unfold with_children at 1.
  rewrite (info_with_children g cs cs' rest Hi).
  unfold with_children. rewrite Hi. reflexivity.
Qed.

Lemma document_path_with_children (g : ValidationError) cs :
  document_path (with_children g cs) = document_path g.
Proof.
  unfold with_children. destruct (info g) as [| [v | es] rest]; reflexivity.
Qed.

(** The loop of [_rewrite_group_error_path]: every child is rewritten
    against the document path of the group error, which the loop does
    not change. *)
Lemma rewrite_group_loop (f : DocumentPath -> ValidationError -> result ValidationError)
    (post : list ValidationError) :
  forall (g : ValidationError) pre rest,
    info g = IErrors (pre ++ post) :: rest ->
    for_each
      (fun (error : ValidationError) (kc : nat * ValidationError) =>
         let! child_error := f (document_path error) (snd kc) in
         Ok (set_child (fst kc) child_error error))
      (imap (fun i => pair (length pre + i)%nat) post) g
    = let! post' := map_result (f (document_path g)) post in
      Ok (with_children g (pre ++ post')).
Proof.
  induction post as [| c post IH]; intros g pre rest Hi.
  - simpl. unfold with_children. rewrite Hi. rewrite app_nil_r in *.
    destruct g as [a]. simpl in *. rewrite <- Hi. destruct a. reflexivity.
  - cbn [imap for_each map_result fst snd].
    destruct (f (document_path g) c) as [c' |]; cbn [bind]; [| reflexivity].
    rewrite Nat.add_0_r.
    rewrite (set_child_with_children g pre c c' post rest Hi).
    rewrite (imap_ext _ (fun i => pair (length (pre ++ [c']) + i)%nat));
      [| intros i x _; rewrite length_app; simpl; f_equal; lia].
    rewrite (IH (with_children g (pre ++ c' :: post)) (pre ++ [c']) rest);
      [| rewrite <- app_assoc; eapply info_with_children, Hi].
    rewrite document_path_with_children.
    destruct (map_result (f (document_path g)) post) as [post' |]; cbn [bind];
      [| reflexivity].
    rewrite (with_children_twice g _ _ _ rest Hi).
    rewrite <- app_assoc. reflexivity.
Qed.



(** ** Error trees *)

Section TreeFacts.
Variable compare_paths_lt : DocumentPath -> DocumentPath -> bool.
Variable list_sort :
  (ValidationError -> ValidationError -> bool) ->
  list ValidationError -> list ValidationError.
Variable self_tree_type : tree_type.
Hypothesis list_sort_permutation :
  forall lt l, Permutation (list_sort lt l) l.

Local Abbreviation path_of := (ErrorTreeNode._path_of_ self_tree_type).
Local Abbreviation node_add :=
  (ErrorTreeNode.add compare_paths_lt list_sort self_tree_type).
Local Abbreviation tree_add :=
  (ErrorTree.add compare_paths_lt list_sort self_tree_type).
Local Abbreviation append_sorted :=
  (ErrorTreeNode.append_sorted compare_paths_lt list_sort).

Lemma keeps_errors_refl t : keeps_errors t t.
Proof. intros q x H. exact H. Qed.

Lemma keeps_errors_trans t1 t2 t3 :
  keeps_errors t1 t2 -> keeps_errors t2 t3 -> keeps_errors t1 t3.
Proof. intros H12 H23 q x H. apply H23, H12, H. Qed.

Lemma In_append_sorted node error x :
  In x (ErrorTreeNode.errors (append_sorted node error)) <->
  In x (ErrorTreeNode.errors node) \/ x = error.
Proof.
  unfold ErrorTreeNode.append_sorted. simpl.
  rewrite <- !list_elem_of_In.
  rewrite (list_sort_permutation _ _).
  rewrite elem_of_app, list_elem_of_singleton. reflexivity.
Qed.

Lemma wf_node_setitem d self key node :
  wf_node d self -> wf_node (S d) node ->
  wf_node d (ErrorTreeNode.__setitem__ self key node).
Proof.
  intros Hs Hn. inversion Hs as [d0 p es ds Hp Hds]; subst.
  unfold ErrorTreeNode.__setitem__. simpl. constructor; [reflexivity |].
  apply Forall_forall. intros [k c] Hin. apply list_elem_of_In in Hin.
  apply dict_set_In in Hin as [[-> ->] | Hin]; [exact Hn |].
  rewrite Forall_forall in Hds. apply (Hds (k, c)), list_elem_of_In, Hin.
Qed.

Lemma wf_node_getitem d self key node :
  wf_node d self -> ErrorTreeNode.__getitem__ self key = Some node ->
  wf_node (S d) node.
Proof.
  intros Hs Hg. inversion Hs as [d0 p es ds Hp Hds]; subst.
  unfold ErrorTreeNode.__getitem__ in Hg. simpl in Hg.
  apply dict_get_Some_In in Hg.
  rewrite Forall_forall in Hds. apply (Hds (key, node)), list_elem_of_In, Hg.
Qed.

Lemma wf_node_depth d self : wf_node d self -> ErrorTreeNode.depth self = d.
Proof. intros Hs. inversion Hs; subst. reflexivity. Qed.

(** What [fetch_errors_from] finds after [self[key] = node]. *)
Lemma fetch_setitem self key node q :
  ErrorTree.fetch_errors_from (ErrorTreeNode.__setitem__ self key node) q =
  match q with
  | [] => ErrorTreeNode.errors self
  | k :: q' =>
      if decide (k = key) then ErrorTree.fetch_errors_from node q'
      else ErrorTree.fetch_errors_from self q
  end.
Proof.
  destruct q as [| k q']; [reflexivity |].
  unfold ErrorTree.fetch_errors_from. simpl.
  unfold ErrorTreeNode.__getitem__, ErrorTreeNode.__setitem__. simpl.
  rewrite dict_get_set. destruct (decide (k = key)); reflexivity.
Qed.

Lemma fetch_cons self k q :
  ErrorTree.fetch_errors_from self (k :: q) =
  match ErrorTreeNode.__getitem__ self k with
  | Some node => ErrorTree.fetch_errors_from node q
  | None => []
  end.
Proof.
  unfold ErrorTree.fetch_errors_from. simpl.
  destruct (ErrorTreeNode.__getitem__ self k); reflexivity.
Qed.

(** [ErrorTreeNode.add] on a well-formed node above the end of the
    error's path: the error ends up at the rest of its path, and
    nothing is lost. *)
Lemma node_add_spec limit :
  forall d self error,
    wf_node d self ->
    (d < length (path_of error))%nat ->
    (length (path_of error) - d <= limit)%nat ->
    exists self',
      node_add limit self error = Ok self' /\
      wf_node d self' /\
      ErrorTreeNode.errors self' = ErrorTreeNode.errors self /\
      keeps_errors self self' /\
      In error (ErrorTree.fetch_errors_from self' (drop d (path_of error))).
Proof.
  induction limit as [| limit IH]; intros d self error Hwf Hd Hl; [lia |].
  cbn [ErrorTreeNode.add].
  rewrite (wf_node_depth d self Hwf).
  destruct (path_of error !! d) as [key |] eqn:Hkey;
    [| apply lookup_ge_None in Hkey; lia].
  unfold index. rewrite Hkey. cbn [bind].
  rewrite (drop_S _ _ _ Hkey).
  set (self1 := if dict_has key (ErrorTreeNode.descendants self) then self
                else ErrorTreeNode.__setitem__ self key
                       (ErrorTreeNode.__init__ (path_of error) self)).
  assert (Hnew : wf_node (S d) (ErrorTreeNode.__init__ (path_of error) self)).
  { unfold ErrorTreeNode.__init__. rewrite (wf_node_depth d self Hwf).
    constructor; [| constructor]. rewrite length_take. lia. }
  assert (Hwf1 : wf_node d self1).
  { unfold self1. destruct (dict_has key _); [exact Hwf |].
    apply wf_node_setitem; assumption. }
  assert (Hd1 : ErrorTreeNode.depth self1 = d) by (apply wf_node_depth, Hwf1).
  assert (He1 : ErrorTreeNode.errors self1 = ErrorTreeNode.errors self).
  { unfold self1. destruct (dict_has key _); reflexivity. }
  assert (Hk1 : keeps_errors self self1).
  { unfold self1, dict_has.
    destruct (dict_get key (ErrorTreeNode.descendants self)) as [n0 |] eqn:Hget;
      [apply keeps_errors_refl |].
    intros q x. rewrite fetch_setitem. destruct q as [| k q']; [auto |].
    destruct (decide (k = key)) as [-> |]; [| auto].
    rewrite fetch_cons. unfold ErrorTreeNode.__getitem__. rewrite Hget.
    intros []. }
  assert (Hget1 : exists node, ErrorTreeNode.__getitem__ self1 key = Some node).
  { unfold self1, dict_has, ErrorTreeNode.__getitem__.
    destruct (dict_get key (ErrorTreeNode.descendants self)) as [n0 |] eqn:Hget;
      [eauto |].
    simpl. rewrite dict_get_set, decide_True by reflexivity. eauto. }
  destruct Hget1 as [node Hnode]. rewrite Hnode.
  pose proof (wf_node_getitem d self1 key node Hwf1 Hnode) as Hwfn.
  rewrite Hd1.
  case_bool_decide as Hlen.
  - exists (ErrorTreeNode.__setitem__ self1 key (append_sorted node error)).
    split; [reflexivity |]. split; [| split; [| split]].
    + apply wf_node_setitem; [exact Hwf1 |].
      inversion Hwfn; subst. constructor; assumption.
    + exact He1.
    + eapply keeps_errors_trans; [exact Hk1 |].
      intros q x. rewrite fetch_setitem. destruct q as [| k q']; [auto |].
      destruct (decide (k = key)) as [-> |]; [| auto].
      rewrite fetch_cons, Hnode.
      destruct q' as [| k' q'']; [| auto].
      unfold ErrorTree.fetch_errors_from. simpl.
      intros Hx. apply In_append_sorted. left. exact Hx.
    + rewrite fetch_setitem, decide_True by reflexivity.
      rewrite drop_ge by lia.
      unfold ErrorTree.fetch_errors_from. simpl.
      apply In_append_sorted. right. reflexivity.
  - destruct (IH (S d) node error Hwfn ltac:(lia) ltac:(lia))
      as (node' & Hadd & Hwfn' & Hen' & Hkn' & Hin').
    rewrite Hadd. cbn [bind].
    exists (ErrorTreeNode.__setitem__ self1 key node').
    split; [reflexivity |]. split; [| split; [| split]].
    + apply wf_node_setitem; assumption.
    + exact He1.
    + eapply keeps_errors_trans; [exact Hk1 |].
      intros q x. rewrite fetch_setitem. destruct q as [| k q']; [auto |].
      destruct (decide (k = key)) as [-> |]; [| auto].
      rewrite fetch_cons, Hnode. apply Hkn'.
    + rewrite fetch_setitem, decide_True by reflexivity. exact Hin'.
Qed.


Lemma frames_path (error : ValidationError) :
  (length (path_of error) < ErrorTree.frames self_tree_type error)%nat.
Proof.
  destruct error as [a]. unfold ErrorTreeNode._path_of_. cbn [ErrorTree.frames attrs].
  destruct self_tree_type; lia.
Qed.

Lemma frames_children (error : ValidationError) cs rest c :
  info error = IErrors cs :: rest -> In c cs ->
  (ErrorTree.frames self_tree_type c < ErrorTree.frames self_tree_type error)%nat.
Proof.
  destruct error as [a]. cbn [ErrorTree.frames attrs]. intros -> Hin.
  pose proof (list_max_map_ge (ErrorTree.frames self_tree_type) cs c Hin). lia.
Qed.

(** The loop of [add] over the child errors, given what [add] does for
    each of them. *)
Lemma add_children_spec limit cs :
  (forall root c,
     In c cs -> wf_node 0 root ->
     exists root',
       tree_add limit root c = Ok root' /\ wf_node 0 root' /\
       keeps_errors root root' /\
       In c (ErrorTree.fetch_errors_from root' (path_of c))) ->
  forall root, wf_node 0 root ->
    exists root',
      for_each (fun self child_error => tree_add limit self child_error) cs root
        = Ok root' /\
      wf_node 0 root' /\ keeps_errors root root' /\
      forall c, In c cs -> In c (ErrorTree.fetch_errors_from root' (path_of c)).
Proof.
  induction cs as [| c cs IH]; intros Hadd root Hwf.
  - exists root. split; [reflexivity |]. split; [exact Hwf |].
    split; [apply keeps_errors_refl | intros c []].
  - destruct (Hadd root c (or_introl eq_refl) Hwf) as (root1 & H1 & Hwf1 & Hk1 & Hin1).
    destruct (IH (fun r c' Hc' => Hadd r c' (or_intror Hc')) root1 Hwf1)
      as (root2 & H2 & Hwf2 & Hk2 & Hin2).
    exists root2. cbn [for_each]. rewrite H1. cbn [bind].
    split; [exact H2 |]. split; [exact Hwf2 |].
    split; [eapply keeps_errors_trans; eassumption |].
    intros c' [<- | Hc']; [apply Hk2, Hin1 | apply Hin2, Hc'].
Qed.

(** [ErrorTree.add] with enough depth on a well-formed tree and error. *)
Lemma tree_add_spec limit :
  forall root (error : ValidationError),
    wf_node 0 root -> well_formed_error error ->
    (ErrorTree.frames self_tree_type error <= limit)%nat ->
    exists root',
      tree_add limit root error = Ok root' /\
      wf_node 0 root' /\
      keeps_errors root root' /\
      In error (ErrorTree.fetch_errors_from root' (path_of error)) /\
      (path_of error <> [] -> is_group_error error = true ->
       forall cs rest c, info error = IErrors cs :: rest -> In c cs ->
         In c (ErrorTree.fetch_errors_from root' (path_of c))).
Proof.
  induction limit as [| limit IH]; intros root error Hwf Hwfe Hl.
  { pose proof (frames_path error). lia. }
  cbn [ErrorTree.add].
  destruct (path_of error) as [| k p'] eqn:Hp.
  - exists (append_sorted root error). split; [reflexivity |].
    split; [| split; [| split]].
    + inversion Hwf; subst. constructor; assumption.
    + intros [| k q] x.
      * unfold ErrorTree.fetch_errors_from. simpl. intros Hx.
        apply In_append_sorted. left. exact Hx.
      * rewrite !fetch_cons. intros Hx. exact Hx.
    + unfold ErrorTree.fetch_errors_from. simpl.
      apply In_append_sorted. right. reflexivity.
    + intros Hne. contradiction.
  - pose proof (frames_path error) as Hfp.
    destruct (node_add_spec limit 0 root error Hwf) as (root1 & H1 & Hwf1 & _ & Hk1 & Hin1);
      [rewrite Hp; simpl; lia | lia |].
    rewrite H1. cbn [bind]. rewrite drop_0, Hp in Hin1.
    destruct (is_group_error error) eqn:Hg.
    + inversion Hwfe as [e Hng | e cs rest Hi Hcs]; subst; [congruence |].
      unfold child_errors. rewrite Hg, Hi.
      cbn [index lookup list_lookup bind iterate].
      destruct (add_children_spec limit cs) with (root := root1)
        as (root2 & H2 & Hwf2 & Hk2 & Hin2); [| exact Hwf1 |].
      { intros r c Hc Hr.
        rewrite Forall_forall in Hcs.
        destruct (IH r c Hr (Hcs c ltac:(apply list_elem_of_In, Hc)))
          as (r' & Ha & Hw & Hk & Hin & _).
        - pose proof (frames_children error cs rest c Hi Hc). lia.
        - exists r'. auto. }
      exists root2. split; [exact H2 |]. split; [exact Hwf2 |].
      split; [eapply keeps_errors_trans; eassumption |].
      split; [apply Hk2, Hin1 |].
      intros _ _ cs' rest' c Hi' Hc.
      assert (Heq : IErrors cs' :: rest' = IErrors cs :: rest) by congruence.
      injection Heq as -> ->. apply Hin2, Hc.
    + exists root1. split; [reflexivity |]. split; [exact Hwf1 |].
      split; [exact Hk1 |]. split; [exact Hin1 |].
      intros _ Habs. discriminate Habs.
Qed.

End TreeFacts.

(** C4 (amended).  For a group error whose path in the tree is not
    empty, [ErrorTree.add] with enough depth returns a tree where the
    error is found at its own path and every child error at the
    child's own path. *)
Theorem add_group_error_children_fetchable
    (compare_paths_lt : DocumentPath -> DocumentPath -> bool)
    (list_sort : (ValidationError -> ValidationError -> bool) ->
                 list ValidationError -> list ValidationError)
    (self_tree_type : tree_type)
    (limit : nat) (root : ErrorTreeNode.t) (g : ValidationError)
    (children : list ValidationError) (rest : list (info_item ValidationError)) :
  (forall lt l, Permutation (list_sort lt l) l) ->
  wf_node 0 root ->
  well_formed_error g ->
  is_group_error g = true ->
  info g = IErrors children :: rest ->
  ErrorTreeNode._path_of_ self_tree_type g <> [] ->
  (ErrorTree.frames self_tree_type g <= limit)%nat ->
  exists root',
    ErrorTree.add compare_paths_lt list_sort self_tree_type limit root g = Ok root' /\
    In g (ErrorTree.fetch_errors_from root' (ErrorTreeNode._path_of_ self_tree_type g)) /\
    forall c, In c children ->
      In c (ErrorTree.fetch_errors_from root' (ErrorTreeNode._path_of_ self_tree_type c)).
Proof.
  intros Hsort Hwf Hwfe Hg Hi Hp Hl.
  destruct (tree_add_spec compare_paths_lt list_sort self_tree_type Hsort
              limit root g Hwf Hwfe Hl) as (root' & Ha & _ & _ & Hin & Hc).
  exists root'. split; [exact Ha |]. split; [exact Hin |].
  intros c Hcin. exact (Hc Hp Hg children rest c Hi Hcin).
Qed.

Lemma wf_node_empty : wf_node 0 ErrorTree.empty.
Proof. constructor; [reflexivity | constructor]. Qed.

Lemma add_group_error_children_fetchable_witness :
  exists root',
    ErrorTree.add example_compare_paths_lt example_list_sort document 5
      ErrorTree.empty simple_group = Ok root' /\
    In simple_group (ErrorTree.fetch_errors_from root' [SStr "a"]) /\
    forall c, In c [simple_child] ->
      In c (ErrorTree.fetch_errors_from root' (ErrorTreeNode._path_of_ document c)).
Proof.
  apply (add_group_error_children_fetchable example_compare_paths_lt
           example_list_sort document 5 ErrorTree.empty simple_group
           [simple_child] []).
  - intros lt l. apply merge_sort_Permutation.
  - exact wf_node_empty.
  - apply (wfe_group simple_group [simple_child] []); [reflexivity |].
    constructor; [apply wfe_plain; reflexivity | constructor].
  - reflexivity.
  - reflexivity.
  - discriminate.
  - vm_compute. lia.
Defined.

(** C4, as stated, fails for a group error whose path is empty: it is
    appended to the errors of the root and its children are not
    inserted. *)
Lemma root_level_group_children_not_inserted :
  exists root',
    ErrorTree.add example_compare_paths_lt example_list_sort document 5
      ErrorTree.empty rootless_group = Ok root' /\
    ErrorTree.fetch_errors_from root' [] = [rootless_group] /\
    ErrorTree.fetch_errors_from root' (document_path simple_child) = [].
Proof.
  eexists. split; [vm_compute; reflexivity |]. split; reflexivity.
Qed.



(** ** Instances of further properties *)

Lemma add_plain_unknown_code_witness :
  add messages (fun _ => ""%string) [] unknown_code_error = Done [].
Proof.
  apply (add_plain_unknown_code messages (fun _ => ""%string) []
           unknown_code_error); reflexivity.
Defined.

Lemma registry_logic_errors_are_group_errors_witness :
  truthy (Z.land (ErrorDefinition.code NONEOF) 0x80) = true.
Proof.
  apply (registry_logic_errors_are_group_errors NONEOF);
    [unfold error_definitions; repeat (first [left; reflexivity | right])
    | reflexivity].
Defined.

(** ** More on dictionaries *)

Lemma dict_get_None_keys {K V} `{EqDecision K} (k : K) (d : dict K V) :
  dict_get k d = None <-> ~ In k (map fst d).
Proof.
  induction d as [| [k0 v0] d IH]; simpl; [tauto |].
  destruct (decide (k = k0)) as [-> | Hne]; [split; [discriminate | tauto] |].
  rewrite IH. split; [intros H [Heq | Hin]; [congruence | tauto] | tauto].
Qed.

Lemma dict_set_keys {K V} `{EqDecision K} (k : K) (v : V) (d : dict K V) :
  map fst (dict_set k v d) =
    if dict_has k d then map fst d else map fst d ++ [k].
Proof.
  unfold dict_has. induction d as [| [k0 v0] d IH]; simpl; [reflexivity |].
  destruct (decide (k = k0)) as [-> | Hne]; simpl; [reflexivity |].
  rewrite IH. destruct (dict_get k d); reflexivity.
Qed.

Lemma NoDup_dict_set {K V} `{EqDecision K} (k : K) (v : V) (d : dict K V) :
  NoDup (map fst d) -> NoDup (map fst (dict_set k v d)).
Proof.
  intros Hnd. rewrite dict_set_keys. unfold dict_has.
  destruct (dict_get k d) eqn:Hk; [exact Hnd |].
  apply NoDup_app. split; [exact Hnd |]. split; [| apply NoDup_singleton].
  intros x Hx Hx'. apply list_elem_of_singleton in Hx' as ->.
  apply dict_get_None_keys in Hk. apply Hk, list_elem_of_In, Hx.
Qed.

Lemma NoDup_dict_update {K V} `{EqDecision K} (d other : dict K V) :
  NoDup (map fst d) -> NoDup (map fst (dict_update d other)).
Proof.
  unfold dict_update. revert d.
  induction other as [| [k v] other IH]; intros d Hnd; simpl; [exact Hnd |].
  apply IH, NoDup_dict_set, Hnd.
Qed.

Lemma dict_get_update {K V} `{EqDecision K} (k : K) (d other : dict K V) :
  NoDup (map fst other) ->
  dict_get k (dict_update d other) =
    match dict_get k other with
    | Some v => Some v
    | None => dict_get k d
    end.
Proof.
  unfold dict_update. revert d.
  induction other as [| [k0 v0] other IH]; intros d Hnd; simpl; [reflexivity |].
  apply NoDup_cons in Hnd as [Hk0 Hnd]. rewrite (IH _ Hnd), dict_get_set.
  destruct (decide (k = k0)) as [-> | Hne]; [| reflexivity].
  assert (Hn : dict_get k0 other = None).
  { apply dict_get_None_keys. intros Hin. apply Hk0, list_elem_of_In, Hin. }
  rewrite Hn. reflexivity.
Qed.

Lemma dict_update_In {K V} `{EqDecision K} (k : K) (v : V) (d other : dict K V) :
  In (k, v) (dict_update d other) -> In (k, v) d \/ In (k, v) other.
Proof.
  unfold dict_update. revert d.
  induction other as [| [k0 v0] other IH]; intros d; simpl; [tauto |].
  intros Hin. apply IH in Hin as [Hin | Hin]; [| tauto].
  apply dict_set_In in Hin as [[-> ->] | Hin]; tauto.
Qed.

(** ** The working tree of the basic error handler *)

Lemma messages_of_app l1 l2 :
  messages_of (l1 ++ l2) = messages_of l1 ++ messages_of l2.
Proof. apply flat_map_app. Qed.

Lemma messages_of_Msg msgs : messages_of (map Msg msgs) = msgs.
Proof.
  induction msgs as [| m msgs IH]; [reflexivity |].
  change (messages_of (map Msg (m :: msgs))) with (m :: messages_of (map Msg msgs)).
  rewrite IH. reflexivity.
Qed.

Lemma handler_form_nil : handler_form [].
Proof. constructor; constructor. Qed.

Lemma handler_form_get tree k l :
  handler_form tree -> dict_get k tree = Some l ->
  exists msgs sub,
    l = map Msg msgs ++ [Sub sub] /\ (msgs <> [] \/ sub <> []) /\ handler_form sub.
Proof.
  intros Hf Hg. inversion Hf as [t Hnd Hall]; subst.
  apply dict_get_Some_In, list_elem_of_In in Hg.
  rewrite Forall_forall in Hall. exact (Hall _ Hg).
Qed.

Lemma handler_form_set tree k msgs sub :
  handler_form tree -> (msgs <> [] \/ sub <> []) -> handler_form sub ->
  handler_form (dict_set k (map Msg msgs ++ [Sub sub]) tree).
Proof.
  intros Hf Hne Hs. inversion Hf as [t Hnd Hall]; subst.
  constructor; [apply NoDup_dict_set, Hnd |].
  apply Forall_forall. intros [k' l'] Hin. apply list_elem_of_In in Hin.
  apply dict_set_In in Hin as [[-> ->] | Hin].
  - exists msgs, sub. auto.
  - rewrite Forall_forall in Hall. apply (Hall (k', l')), list_elem_of_In, Hin.
Qed.

Lemma handler_form_update d other :
  handler_form d -> handler_form other -> handler_form (dict_update d other).
Proof.
  intros Hd Ho. inversion Hd as [t Hnd Hall]; subst.
  inversion Ho as [t' Hnd' Hall']; subst.
  constructor; [apply NoDup_dict_update, Hnd |].
  rewrite Forall_forall in Hall, Hall'.
  apply Forall_forall. intros [k l] Hin. apply list_elem_of_In in Hin.
  apply dict_update_In in Hin as [Hin | Hin];
    [apply (Hall (k, l)) | apply (Hall' (k, l))]; apply list_elem_of_In, Hin.
Qed.

(** [entry_at] reads the dictionary through [dict_get] only. *)
Lemma entry_at_ext t1 t2 q :
  (forall k, dict_get k t1 = dict_get k t2) -> entry_at t1 q = entry_at t2 q.
Proof. intros H. destruct q as [| k q]; simpl; [reflexivity |]. rewrite H. reflexivity. Qed.

Lemma entry_at_nil q : entry_at [] q = None.
Proof. destruct q; reflexivity. Qed.

Lemma pop_snoc {A} (l : list A) (x : A) : pop (l ++ [x]) = Ok (l, x).
Proof. unfold pop. rewrite last_snoc, removelast_last. reflexivity. Qed.

Lemma insert_error_below tree field rest node :
  rest <> [] ->
  _insert_error tree (field :: rest) node =
    let tree :=
      if dict_has field tree then tree else dict_set field [Sub []] tree in
    let l := default [] (dict_get field tree) in
    match last l with
    | None => Raise IndexError
    | Some (Sub subtree) =>
        let new_tree := match subtree with [] => [] | _ => subtree end in
        let! new_tree := _insert_error new_tree rest node in
        Ok (dict_set field
              (removelast l ++ [Sub (dict_update subtree new_tree)]) tree)
    | Some (Msg EmptyString) =>
        let! new_tree := _insert_error [] rest node in
        Raise AttributeError
    | Some (Msg (String _ _)) => Raise TypeError
    end.
Proof. destruct rest; [congruence | reflexivity]. Qed.

Lemma messages_at_single tree k :
  messages_at tree [k] = messages_of (default [] (dict_get k tree)).
Proof.
  unfold messages_at. cbn [entry_at]. destruct (dict_get k tree); reflexivity.
Qed.

Lemma messages_at_below tree k rest :
  rest <> [] ->
  messages_at tree (k :: rest) =
    match dict_get k tree with
    | Some l =>
        match last l with
        | Some (Sub d) => messages_at d rest
        | _ => []
        end
    | None => []
    end.
Proof.
  intros Hne. destruct rest as [| r rest]; [congruence |].
  unfold messages_at. cbn [entry_at].
  destruct (dict_get k tree) as [l |]; [| reflexivity].
  destruct (last l) as [[s | d] |]; reflexivity.
Qed.

Lemma messages_at_ext t1 t2 q :
  (forall k, dict_get k t1 = dict_get k t2) -> messages_at t1 q = messages_at t2 q.
Proof. intros H. unfold messages_at. rewrite (entry_at_ext t1 t2 q H). reflexivity. Qed.

Lemma messages_at_nil q : messages_at [] q = [].
Proof. unfold messages_at. rewrite entry_at_nil. reflexivity. Qed.

Lemma messages_at_root tree : messages_at tree [] = [].
Proof. reflexivity. Qed.

Lemma dict_set_set {K V} `{EqDecision K} (k : K) (v v' : V) (d : dict K V) :
  dict_set k v' (dict_set k v d) = dict_set k v' d.
Proof.
  induction d as [| [k0 v0] d IH]; simpl.
  - rewrite decide_True by reflexivity. reflexivity.
  - destruct (decide (k = k0)) as [-> | Hne]; simpl.
    + rewrite decide_True by reflexivity. reflexivity.
    + rewrite decide_False by exact Hne. rewrite IH. reflexivity.
Qed.

(** What [_insert_error] does with a message on a tree of the handler's
    shape: it returns a tree of that shape that differs from the first
    in the entry of [path[0]] only, where the message is the last one of
    its path and the messages of the other paths are as before. *)
Lemma insert_error_spec m :
  forall path tree,
    path <> [] -> handler_form tree ->
    exists tree',
      _insert_error tree path (Msg m) = Ok tree' /\
      handler_form tree' /\
      (exists k0 v, head path = Some k0 /\ tree' = dict_set k0 v tree) /\
      messages_at tree' path = messages_at tree path ++ [m] /\
      forall q, q <> path -> messages_at tree' q = messages_at tree q.
Proof.
  induction path as [| field rest IH]; intros tree Hne Hf; [congruence |].
  destruct (decide (rest = [])) as [-> | Hrne].
  - (* the message goes into the list of [field] *)
    cbn [_insert_error].
    destruct (dict_get field tree) as [l |] eqn:Hg.
    + destruct (handler_form_get _ _ _ Hf Hg) as (msgs & sub & -> & Hor & Hs).
      rewrite pop_snoc. cbn [bind fst snd].
      assert (Hl : map Msg msgs ++ [Msg m; Sub sub]
                   = map Msg (msgs ++ [m]) ++ [Sub sub]).
      { rewrite map_app, <- app_assoc. reflexivity. }
      rewrite Hl.
      exists (dict_set field (map Msg (msgs ++ [m]) ++ [Sub sub]) tree).
      split; [reflexivity |]. split; [| split; [| split]].
      * apply handler_form_set; [exact Hf | | exact Hs].
        left. destruct msgs; discriminate.
      * eauto.
      * rewrite !messages_at_single, dict_get_set, decide_True, Hg by reflexivity.
        cbn [from_option id]. rewrite !messages_of_app, !messages_of_Msg.
        simpl. rewrite !app_nil_r. reflexivity.
      * intros [| k q] Hq; [reflexivity |].
        destruct (decide (q = [])) as [-> | Hqne].
        -- rewrite !messages_at_single, dict_get_set, decide_False by congruence.
           reflexivity.
        -- rewrite !messages_at_below, dict_get_set by exact Hqne.
           destruct (decide (k = field)) as [-> | Hk]; [| reflexivity].
           rewrite Hg, !last_snoc. reflexivity.
    + exists (dict_set field [Msg m; Sub []] tree).
      split; [reflexivity |]. split; [| split; [| split]].
      * apply (handler_form_set tree field [m] []);
          [exact Hf | left; discriminate | apply handler_form_nil].
      * eauto.
      * rewrite !messages_at_single, dict_get_set, decide_True, Hg by reflexivity.
        reflexivity.
      * intros [| k q] Hq; [reflexivity |].
        destruct (decide (q = [])) as [-> | Hqne].
        -- rewrite !messages_at_single, dict_get_set, decide_False by congruence.
           reflexivity.
        -- rewrite !messages_at_below, dict_get_set by exact Hqne.
           destruct (decide (k = field)) as [-> | Hk]; [| reflexivity].
           rewrite Hg. cbn [last]. apply messages_at_nil.
  - (* the message goes below [field] *)
    set (tree1 := if dict_has field tree then tree
                  else dict_set field [Sub []] tree).
    assert (Hshape :
      exists msgs sub,
        handler_form sub /\
        default [] (dict_get field tree1) = map Msg msgs ++ [Sub sub] /\
        (forall node, dict_set field node tree1 = dict_set field node tree) /\
        messages_of (default [] (dict_get field tree)) = msgs /\
        (forall q, q <> [] ->
           messages_at tree (field :: q) = messages_at sub q)).
    { unfold tree1, dict_has. destruct (dict_get field tree) as [l |] eqn:Hg.
      - destruct (handler_form_get _ _ _ Hf Hg) as (msgs & sub & -> & Hor & Hs).
        exists msgs, sub. split; [exact Hs |].
        rewrite Hg. split; [reflexivity |]. split; [reflexivity |]. split.
        + cbn [from_option id]. rewrite messages_of_app, messages_of_Msg. apply app_nil_r.
        + intros q Hq. rewrite messages_at_below, Hg, last_snoc by exact Hq.
          reflexivity.
      - exists [], []. split; [apply handler_form_nil |].
        rewrite dict_get_set, decide_True by reflexivity.
        split; [reflexivity |]. split; [intros node; apply dict_set_set |].
        split; [reflexivity |].
        intros q Hq. rewrite messages_at_below, Hg, messages_at_nil by exact Hq.
        reflexivity. }
    destruct Hshape as (msgs & sub & Hs & Hl & Hset & Hmsgs & Hbelow).
    destruct (IH sub Hrne Hs) as (new & Hins & Hnew & (k0 & v & Hk0 & ->) & Hm & Hfr).
    assert (Hsubeq : (match sub with [] => [] | _ :: _ => sub end) = sub)
      by (destruct sub; reflexivity).
    assert (Hnd_new : NoDup (map fst (dict_set k0 v sub)))
      by (inversion Hnew; assumption).
    assert (Hget : forall k, dict_get k (dict_update sub (dict_set k0 v sub))
                             = dict_get k (dict_set k0 v sub)).
    { intros k. rewrite dict_get_update by exact Hnd_new.
      rewrite dict_get_set. destruct (decide (k = k0)); [reflexivity |].
      destruct (dict_get k sub); reflexivity. }
    exists (dict_set field
              (map Msg msgs ++ [Sub (dict_update sub (dict_set k0 v sub))]) tree).
    split.
    { rewrite insert_error_below by exact Hrne. cbn zeta. fold tree1.
      rewrite Hl, last_snoc, Hsubeq, Hins. cbn [bind].
      rewrite removelast_last, Hset. reflexivity. }
    split; [| split; [| split]].
    + apply handler_form_set; [exact Hf | | apply handler_form_update; assumption].
      right. intros Habs.
      pose proof (Hget k0) as Hk. rewrite Habs, dict_get_set, decide_True in Hk by reflexivity.
      discriminate Hk.
    + eauto.
    + rewrite (Hbelow rest Hrne), <- Hm.
      rewrite messages_at_below, dict_get_set, decide_True, last_snoc
        by first [exact Hrne | reflexivity].
      apply messages_at_ext, Hget.
    + intros [| k q] Hq; [reflexivity |].
      destruct (decide (q = [])) as [-> | Hqne].
      * rewrite !messages_at_single, dict_get_set.
        destruct (decide (k = field)) as [-> | Hk]; [| reflexivity].
        cbn [from_option id]. rewrite messages_of_app, messages_of_Msg, Hmsgs.
        apply app_nil_r.
      * destruct (decide (k = field)) as [-> | Hk].
        -- rewrite (Hbelow q Hqne), <- (Hfr q) by congruence.
           rewrite messages_at_below, dict_get_set, decide_True, last_snoc
             by first [exact Hqne | reflexivity].
           apply messages_at_ext, Hget.
        -- rewrite !messages_at_below, dict_get_set, decide_False by assumption.
           reflexivity.
Qed.

Lemma insert_error_form tree path m tree' :
  handler_form tree -> _insert_error tree path (Msg m) = Ok tree' ->
  handler_form tree'.
Proof.
  intros Hf Hins. destruct path as [| k rest]; [discriminate |].
  destruct (insert_error_spec m (k :: rest) tree ltac:(discriminate) Hf)
    as (t & Ht & Hft & _).
  congruence.
Qed.

Lemma for_errors_form {A} (body : report -> A -> outcome) l :
  (forall tree a, In a l -> handler_form tree -> handler_form (tree_of (body tree a))) ->
  forall tree, handler_form tree -> handler_form (tree_of (for_errors body l tree)).
Proof.
  induction l as [| a l IH]; intros Hb tree Hf; [exact Hf |].
  cbn [for_errors].
  pose proof (Hb tree a (or_introl eq_refl) Hf) as Ha.
  destruct (body tree a) as [t | x t]; [| exact Ha].
  apply IH; [| exact Ha]. intros t' a' Hin. apply Hb. right. exact Hin.
Qed.

Section HandlerShape.
Variable self_messages : dict Z template.
Variable repr_errors : list ValidationError -> string.

Lemma insert_message_form tree path f (e : ValidationError) :
  handler_form tree ->
  handler_form (tree_of (insert_message self_messages repr_errors tree path f e)).
Proof.
  intros Hf. unfold insert_message.
  destruct (_format_message self_messages repr_errors f e) as [m | x]; [| exact Hf].
  destruct (_insert_error tree path (Msg m)) as [t | x] eqn:Hins; [| exact Hf].
  eapply insert_error_form; eassumption.
Qed.

Lemma insert_errors_form depth :
  (forall tree e, handler_form tree ->
     handler_form (tree_of (_insert_logic_error self_messages repr_errors depth tree e))) /\
  (forall tree e, handler_form tree ->
     handler_form (tree_of (_insert_group_error self_messages repr_errors depth tree e))).
Proof.
  induction depth as [| depth [IHl IHg]]; [split; intros tree e Hf; exact Hf |].
  split; intros tree e Hf.
  - cbn [_insert_logic_error].
    pose proof (insert_message_form tree (document_path e) (field e) e Hf) as Hm.
    destruct (insert_message self_messages repr_errors tree (document_path e)
                (field e) e) as [t | x t]; [| exact Hm].
    cbn [tree_of] in Hm.
    destruct (definitions_errors e) as [[buckets |] | x]; [| exact Hm | exact Hm].
    apply for_errors_form; [| exact Hm].
    intros t1 b _ Ht1. apply for_errors_form; [| exact Ht1].
    intros t2 c _ Ht2.
    destruct (is_logic_error c); [apply IHl, Ht2 |].
    destruct (is_group_error c); [apply IHg, Ht2 |].
    apply insert_message_form, Ht2.
  - cbn [_insert_group_error].
    destruct (let! c := child_errors e in iterate c) as [children | x]; [| exact Hf].
    apply for_errors_form; [| exact Hf].
    intros t2 c _ Ht2.
    destruct (is_logic_error c); [apply IHl, Ht2 |].
    destruct (is_group_error c); [apply IHg, Ht2 |].
    apply insert_message_form, Ht2.
Qed.

Lemma add_form tree e :
  handler_form tree ->
  handler_form (tree_of (add self_messages repr_errors tree e)).
Proof.
  intros Hf. unfold add, deepcopy.
  destruct (_rewrite_error_path (depth_for e) e 0) as [e' | x]; [| exact Hf].
  unfold insert.
  destruct (is_logic_error e'); [apply insert_errors_form, Hf |].
  destruct (is_group_error e'); [apply insert_errors_form, Hf |].
  destruct (dict_has (code e') self_messages); [| exact Hf].
  apply insert_message_form, Hf.
Qed.

Lemma extend_form tree errors :
  handler_form tree ->
  handler_form (tree_of (extend self_messages repr_errors tree errors)).
Proof.
  intros Hf. unfold extend. apply for_errors_form; [| exact Hf].
  intros t e _ Ht. apply add_form, Ht.
Qed.

End HandlerShape.

(** *** [pretty_tree] *)

(** Induction on a tree of the handler's shape, with the property at
    hand for the sub-dictionaries. *)
Lemma handler_form_induction (P : report -> Prop) :
  (forall tree,
     NoDup (map fst tree) ->
     Forall (fun kv => exists msgs sub,
               snd kv = map Msg msgs ++ [Sub sub] /\
               (msgs <> [] \/ sub <> []) /\
               handler_form sub /\ P sub) tree ->
     P tree) ->
  forall tree, handler_form tree -> P tree.
Proof.
  intros Hstep. fix IH 2. intros tree Hf.
  destruct Hf as [tree Hnd Hall]. apply Hstep; [exact Hnd |].
  induction Hall as [| kv rest Hkv Hall IHall]; constructor.
  - destruct Hkv as (msgs & sub & Heq & Hor & Hs).
    exists msgs, sub. split; [exact Heq |]. split; [exact Hor |].
    split; [exact Hs | apply IH, Hs].
  - apply IHall. inversion Hnd; assumption.
Qed.

Lemma on_last_snoc {A} (f : A -> result (list A)) (l : list A) (x : A) :
  on_last f (l ++ [x]) = let! r := f x in Ok (l ++ r).
Proof.
  induction l as [| a l IH].
  - simpl. destruct (f x); reflexivity.
  - change ((a :: l) ++ [x]) with (a :: (l ++ [x])).
    assert (Hne : exists b t, l ++ [x] = b :: t).
    { destruct l; simpl; eauto. }
    destruct Hne as (b & t & Hbt).
    cbn [on_last]. rewrite Hbt. rewrite <- Hbt.
    change ((fix go (l0 : list A) : result (list A) :=
               match l0 with
               | [] => Raise IndexError
               | [x0] => f x0
               | x0 :: (_ :: _) as rest => let! rest' := go rest in Ok (x0 :: rest')
               end) (l ++ [x])) with (on_last f (l ++ [x])).
    rewrite IH. destruct (f x); reflexivity.
Qed.

Lemma purge_subtree_Sub d :
  purge_subtree (Sub d) =
    match d with
    | [] => Ok []
    | _ :: _ => let! d' := pretty_tree d in Ok [Sub d']
    end.
Proof. destruct d; reflexivity. Qed.

Lemma dict_map_values_cons {K V} (f : V -> result V) (k : K) v (d : dict K V) :
  dict_map_values f ((k, v) :: d) =
    let! v' := f v in let! d' := dict_map_values f d in Ok ((k, v') :: d').
Proof. reflexivity. Qed.

(** [pretty_tree] on a tree of the handler's shape. *)
Lemma pretty_tree_spec :
  forall tree, handler_form tree ->
    exists pretty,
      pretty_tree tree = Ok pretty /\
      pretty_form pretty /\
      map fst pretty = map fst tree /\
      forall q, messages_at pretty q = messages_at tree q.
Proof.
  apply handler_form_induction. intros tree Hnd Hall.
  assert (Hentries :
    exists pretty,
      pretty_tree tree = Ok pretty /\
      map fst pretty = map fst tree /\
      Forall (fun kv => exists msgs,
                (snd kv = map Msg msgs /\ msgs <> []) \/
                (exists sub, snd kv = map Msg msgs ++ [Sub sub] /\
                             sub <> [] /\ pretty_form sub)) pretty /\
      forall k,
        match dict_get k tree with
        | None => dict_get k pretty = None
        | Some l =>
            exists l', dict_get k pretty = Some l' /\
              messages_of l' = messages_of l /\
              forall q, q <> [] ->
                match last l' with Some (Sub d) => messages_at d q | _ => [] end
                = match last l with Some (Sub d) => messages_at d q | _ => [] end
        end).
  { clear Hnd. induction Hall as [| [k l] rest Hkv Hall IH].
    - exists []. repeat split; constructor.
    - destruct IH as (prest & Hp & Hkeys & Hforms & Hgets).
      destruct Hkv as (msgs & sub & Heq & Hor & Hs & psub & Hps & Hpf & Hpk & Hpm).
      simpl in Heq. subst l.
      assert (Hl : exists l',
                _purge_empty_dicts (map Msg msgs ++ [Sub sub]) = Ok l' /\
                (exists msgs0,
                   (l' = map Msg msgs0 /\ msgs0 <> []) \/
                   (exists sub0, l' = map Msg msgs0 ++ [Sub sub0] /\
                                 sub0 <> [] /\ pretty_form sub0)) /\
                messages_of l' = messages_of (map Msg msgs ++ [Sub sub]) /\
                forall q, q <> [] ->
                  match last l' with Some (Sub d) => messages_at d q | _ => [] end
                  = messages_at sub q).
      { unfold _purge_empty_dicts. rewrite on_last_snoc, purge_subtree_Sub.
        destruct sub as [| kv0 sub0].
        - exists (map Msg msgs). cbn [bind]. rewrite app_nil_r.
          split; [reflexivity |]. split.
          + exists msgs. left. split; [reflexivity | tauto].
          + split; [rewrite messages_of_app, app_nil_r; reflexivity |].
            intros q Hq. rewrite messages_at_nil.
            destruct (last (map Msg msgs)) as [[s | d] |] eqn:Hlast; try reflexivity.
            apply last_Some in Hlast as [l0 Hl0].
            assert (Hin : In (Sub d) (map Msg msgs))
              by (rewrite Hl0; apply in_or_app; right; left; reflexivity).
            apply in_map_iff in Hin as (s & Habs & _). discriminate Habs.
        - rewrite Hps. cbn [bind].
          exists (map Msg msgs ++ [Sub psub]). split; [reflexivity |]. split.
          + exists msgs. right. exists psub. split; [reflexivity |].
            split; [| exact Hpf].
            intros ->. discriminate Hpk.
          + split; [rewrite !messages_of_app; reflexivity |].
            intros q Hq. rewrite last_snoc. apply Hpm. }
      destruct Hl as (l' & Hl' & Hform & Hmsgs & Hsub).
      exists ((k, l') :: prest).
      split; [unfold pretty_tree in *; rewrite dict_map_values_cons, Hl', Hp; reflexivity |].
      split; [simpl; rewrite Hkeys; reflexivity |].
      split; [constructor; assumption |].
      intros k'. simpl. destruct (decide (k' = k)) as [-> | Hk]; [| apply Hgets].
      exists l'. split; [reflexivity |]. split; [exact Hmsgs |].
      intros q Hq. rewrite last_snoc. apply Hsub, Hq. }
  destruct Hentries as (pretty & Hp & Hkeys & Hforms & Hgets).
  exists pretty. split; [exact Hp |].
  split; [constructor; [rewrite Hkeys; exact Hnd | exact Hforms] |].
  split; [exact Hkeys |].
  intros [| k q]; [reflexivity |].
  specialize (Hgets k).
  destruct (decide (q = [])) as [-> | Hq].
  - rewrite !messages_at_single.
    destruct (dict_get k tree) as [l |].
    + destruct Hgets as (l' & -> & Hm & _). exact Hm.
    + rewrite Hgets. reflexivity.
  - rewrite !messages_at_below by exact Hq.
    destruct (dict_get k tree) as [l |].
    + destruct Hgets as (l' & -> & _ & Hsub). apply Hsub, Hq.
    + rewrite Hgets. reflexivity.
Qed.

(** [_insert_error] with a message and a path that is not empty, on a
    tree of the handler's shape: it does not raise, the tree keeps the
    shape, the message is the last one of its path, and the messages of
    every other path are as before. *)
Theorem insert_error_appends_message (tree : report) (path : DocumentPath)
    (m : string) :
  handler_form tree -> path <> [] ->
  exists tree',
    _insert_error tree path (Msg m) = Ok tree' /\
    handler_form tree' /\
    messages_at tree' path = messages_at tree path ++ [m] /\
    forall q, q <> path -> messages_at tree' q = messages_at tree q.
Proof.
  intros Hf Hne.
  destruct (insert_error_spec m path tree Hne Hf) as (t & Ht & Hft & _ & Hm & Hfr).
  exists t. auto.
Qed.

Lemma insert_error_appends_message_witness :
  exists tree',
    _insert_error one_message_tree [SStr "a"; SStr "b"] (Msg "unknown field") = Ok tree' /\
    handler_form tree' /\
    messages_at tree' [SStr "a"; SStr "b"]
      = messages_at one_message_tree [SStr "a"; SStr "b"] ++ ["unknown field"%string] /\
    forall q, q <> [SStr "a"; SStr "b"] ->
      messages_at tree' q = messages_at one_message_tree q.
Proof.
  apply (insert_error_appends_message one_message_tree [SStr "a"; SStr "b"]
           "unknown field").
  - apply (handler_form_set [] (SStr "a") ["required field"%string] []);
      [apply handler_form_nil | left; discriminate | apply handler_form_nil].
  - discriminate.
Defined.

(** Whatever [add] is given and whether it raises or not, it leaves a
    tree of the handler's shape when it started from one. *)
Theorem add_keeps_handler_form
    (self_messages : dict Z template)
    (repr_errors : list ValidationError -> string)
    (tree : report) (e : ValidationError) :
  handler_form tree ->
  handler_form (tree_of (add self_messages repr_errors tree e)).
Proof. apply add_form. Qed.

Lemma add_keeps_handler_form_witness :
  handler_form (tree_of (add messages (fun _ => ""%string) [] nested_oneofs)).
Proof.
  apply (add_keeps_handler_form messages (fun _ => ""%string) [] nested_oneofs).
  apply handler_form_nil.
Defined.

(** [pretty_tree] on a tree of the handler's shape does not raise; what
    it returns has the same keys, no empty list and no empty
    dictionary, and the same messages at every path. *)
Theorem pretty_tree_purges_empty_dicts (tree : report) :
  handler_form tree ->
  exists pretty,
    pretty_tree tree = Ok pretty /\
    pretty_form pretty /\
    map fst pretty = map fst tree /\
    forall q, messages_at pretty q = messages_at tree q.
Proof. apply pretty_tree_spec. Qed.

Lemma pretty_tree_purges_empty_dicts_witness :
  exists pretty,
    pretty_tree one_message_tree = Ok pretty /\
    pretty_form pretty /\
    map fst pretty = map fst one_message_tree /\
    forall q, messages_at pretty q = messages_at one_message_tree q.
Proof.
  apply (pretty_tree_purges_empty_dicts one_message_tree).
  apply (handler_form_set [] (SStr "a") ["required field"%string] []);
    [apply handler_form_nil | left; discriminate | apply handler_form_nil].
Defined.

(** [__call__] raises exactly when adding one of the errors raises;
    otherwise it returns the working tree without its empty
    dictionaries, every message in its place. *)
Theorem call_returns_pretty_report
    (self_messages : dict Z template)
    (repr_errors : list ValidationError -> string)
    (tree : report) (errors : list ValidationError) :
  match __call__ self_messages repr_errors tree errors with
  | (t, Ok pretty) =>
      extend self_messages repr_errors [] errors = Done t /\
      pretty_form pretty /\
      forall q, messages_at pretty q = messages_at t q
  | (t, Raise x) => extend self_messages repr_errors [] errors = Failed x t
  end.
Proof.
  unfold __call__, clear.
  pose proof (extend_form self_messages repr_errors [] errors handler_form_nil) as Hf.
  destruct (extend self_messages repr_errors [] errors) as [t | x t]; [| reflexivity].
  destruct (pretty_tree_spec t Hf) as (p & -> & Hp & _ & Hm). auto.
Qed.

Section PlainErrors.
Variable self_messages : dict Z template.
Variable repr_errors : list ValidationError -> string.

Lemma add_plain_spec tree (e : ValidationError) m :
  handler_form tree ->
  is_logic_error e = false -> is_group_error e = false ->
  document_path e <> [] ->
  _format_message self_messages repr_errors (field e) e = Ok m ->
  exists tree',
    add self_messages repr_errors tree e = Done tree' /\
    handler_form tree' /\
    messages_at tree' (document_path e) = messages_at tree (document_path e) ++ [m] /\
    forall q, q <> document_path e -> messages_at tree' q = messages_at tree q.
Proof.
  intros Hf Hl Hg Hp Hm.
  rewrite add_plain by assumption.
  assert (Hc : dict_has (code e) self_messages = true).
  { unfold _format_message in Hm. unfold dict_has.
    destruct (dict_get (code e) self_messages); [reflexivity | discriminate]. }
  rewrite Hc. unfold insert_message. rewrite Hm.
  destruct (insert_error_spec m (document_path e) tree Hp Hf)
    as (t & -> & Hft & _ & Hmt & Hfr).
  exists t. auto.
Qed.

Lemma extend_plain_spec (l : list (ValidationError * string)) :
  Forall (fun em : ValidationError * string =>
            is_logic_error (fst em) = false /\ is_group_error (fst em) = false /\
            document_path (fst em) <> [] /\
            _format_message self_messages repr_errors (field (fst em)) (fst em)
              = Ok (snd em)) l ->
  forall tree, handler_form tree ->
    exists tree',
      extend self_messages repr_errors tree (map fst l) = Done tree' /\
      handler_form tree' /\
      forall q, messages_at tree' q = messages_at tree q ++ messages_for q l.
Proof.
  unfold extend.
  induction 1 as [| [e m] l (Hl & Hg & Hp & Hm) Hall IH]; intros tree Hf.
  - exists tree. split; [reflexivity |]. split; [exact Hf |].
    intros q. unfold messages_for. simpl. rewrite app_nil_r. reflexivity.
  - cbn [fst snd] in *.
    destruct (add_plain_spec tree e m Hf Hl Hg Hp Hm) as (t1 & Ha & Hf1 & Hm1 & Hfr1).
    destruct (IH t1 Hf1) as (t2 & Hx & Hf2 & Hm2).
    exists t2. cbn [map for_errors fst]. rewrite Ha.
    split; [exact Hx |]. split; [exact Hf2 |].
    intros q. rewrite Hm2. unfold messages_for.
    rewrite filter_cons. cbn [fst].
    destruct (decide (document_path e = q)) as [<- | Hq].
    + rewrite Hm1, <- app_assoc. reflexivity.
    + rewrite Hfr1 by congruence. reflexivity.
Qed.

End PlainErrors.

(** [add] on a plain error with a document path, whose message can be
    formatted, on a tree of the handler's shape: the message becomes
    the last one at the error's document path and nothing else changes. *)
Theorem add_plain_appends_message
    (self_messages : dict Z template)
    (repr_errors : list ValidationError -> string)
    (tree : report) (e : ValidationError) (m : string) :
  handler_form tree ->
  is_logic_error e = false -> is_group_error e = false ->
  document_path e <> [] ->
  _format_message self_messages repr_errors (field e) e = Ok m ->
  exists tree',
    add self_messages repr_errors tree e = Done tree' /\
    messages_at tree' (document_path e) = messages_at tree (document_path e) ++ [m] /\
    forall q, q <> document_path e -> messages_at tree' q = messages_at tree q.
Proof.
  intros Hf Hl Hg Hp Hm.
  destruct (add_plain_spec self_messages repr_errors tree e m Hf Hl Hg Hp Hm)
    as (t & Ht & _ & Hmt & Hfr).
  exists t. auto.
Qed.

Lemma add_plain_appends_message_witness :
  exists tree',
    add messages (fun _ => ""%string) one_message_tree simple_child = Done tree' /\
    messages_at tree' (document_path simple_child)
      = messages_at one_message_tree (document_path simple_child)
          ++ ["must be of integer type"%string] /\
    forall q, q <> document_path simple_child ->
      messages_at tree' q = messages_at one_message_tree q.
Proof.
  apply (add_plain_appends_message messages (fun _ => ""%string)
           one_message_tree simple_child "must be of integer type");
    try reflexivity; try discriminate.
  apply (handler_form_set [] (SStr "a") ["required field"%string] []);
    [apply handler_form_nil | left; discriminate | apply handler_form_nil].
Defined.

(** [__call__] on plain errors with document paths whose messages can
    be formatted: it returns a report that holds, at every path, the
    messages of the errors with that document path, in the order the
    errors were given. *)
Theorem call_plain_errors
    (self_messages : dict Z template)
    (repr_errors : list ValidationError -> string)
    (tree : report) (l : list (ValidationError * string)) :
  Forall (fun em : ValidationError * string =>
            is_logic_error (fst em) = false /\ is_group_error (fst em) = false /\
            document_path (fst em) <> [] /\
            _format_message self_messages repr_errors (field (fst em)) (fst em)
              = Ok (snd em)) l ->
  exists t pretty,
    __call__ self_messages repr_errors tree (map fst l) = (t, Ok pretty) /\
    pretty_form pretty /\
    forall q, messages_at pretty q = messages_for q l.
Proof.
  intros Hall. unfold __call__, clear.
  destruct (extend_plain_spec self_messages repr_errors l Hall [] handler_form_nil)
    as (t & -> & Hf & Hm).
  destruct (pretty_tree_spec t Hf) as (p & -> & Hp & _ & Hpm).
  exists t, p. split; [reflexivity |]. split; [exact Hp |].
  intros q. rewrite Hpm, Hm, messages_at_nil. reflexivity.
Qed.

Lemma call_plain_errors_witness :
  exists t pretty,
    __call__ messages (fun _ => ""%string) []
      (map fst [(simple_child, "must be of integer type"%string);
                (unknown_field_error, "unknown field"%string)])
      = (t, Ok pretty) /\
    pretty_form pretty /\
    forall q, messages_at pretty q
              = messages_for q [(simple_child, "must be of integer type"%string);
                                (unknown_field_error, "unknown field"%string)].
Proof.
  apply (call_plain_errors messages (fun _ => ""%string) []
           [(simple_child, "must be of integer type"%string);
            (unknown_field_error, "unknown field"%string)]).
  repeat constructor; discriminate.
Defined.

(** ** Errors that [add] cannot take apart *)

(** An error whose code has the logic bit but not the group bit has no
    child errors to iterate over: [add] raises [TypeError] in the
    rewriting pass and leaves the tree as it was. *)
Theorem add_logic_without_group_raises_TypeError
    (self_messages : dict Z template)
    (repr_errors : list ValidationError -> string)
    (tree : report) (e : ValidationError) :
  is_logic_error e = true -> is_group_error e = false ->
  add self_messages repr_errors tree e = Failed TypeError tree.
Proof.
  intros Hl Hg. unfold add, deepcopy, depth_for.
  replace (2 * height e + 2)%nat with (S (S (2 * height e))) by lia.
  cbn [_rewrite_error_path _rewrite_logic_error_path]. rewrite Hl.
  unfold definitions_errors, child_errors. rewrite Hl, Hg. reflexivity.
Qed.

Lemma add_logic_without_group_raises_TypeError_witness :
  add messages (fun _ => ""%string) [] logic_bit_only = Failed TypeError [].
Proof.
  apply (add_logic_without_group_raises_TypeError messages (fun _ => ""%string)
           [] logic_bit_only); reflexivity.
Defined.

(** A group error with an empty [info] has no [info[0]]: [add] raises
    [IndexError] in the rewriting pass and leaves the tree as it was. *)
Theorem add_group_without_info_raises_IndexError
    (self_messages : dict Z template)
    (repr_errors : list ValidationError -> string)
    (tree : report) (e : ValidationError) :
  is_group_error e = true -> info e = [] ->
  add self_messages repr_errors tree e = Failed IndexError tree.
Proof.
  intros Hg Hi. unfold add, deepcopy, depth_for.
  replace (2 * height e + 2)%nat with (S (S (2 * height e))) by lia.
  cbn [_rewrite_error_path _rewrite_logic_error_path _rewrite_group_error_path].
  unfold definitions_errors, child_errors. rewrite Hg, Hi.
  destruct (is_logic_error e); reflexivity.
Qed.

Lemma add_group_without_info_raises_IndexError_witness :
  add messages (fun _ => ""%string) [] group_without_info = Failed IndexError [].
Proof.
  apply (add_group_without_info_raises_IndexError messages (fun _ => ""%string)
           [] group_without_info); reflexivity.
Defined.

(** ** Normalization errors *)

Lemma land_0x60_small (r : Z) :
  0 <= r < 128 -> truthy (Z.land r 0x60) = (32 <=? r).
Proof.
  intros Hr.
  assert (Hall : forallb (fun n => Bool.eqb (truthy (Z.land (Z.of_nat n) 0x60))
                                     (32 <=? Z.of_nat n))
                   (seq 0 128) = true) by (vm_compute; reflexivity).
  rewrite forallb_forall in Hall.
  specialize (Hall (Z.to_nat r)).
  rewrite Z2Nat.id in Hall by lia.
  apply Bool.eqb_prop, Hall, in_seq. lia.
Qed.

Lemma land_0x60_mod (c : Z) : Z.land c 0x60 = Z.land (c mod 128) 0x60.
Proof.
  change 128 with (2 ^ 7). rewrite <- Z.land_ones by lia.
  rewrite <- Z.land_assoc. reflexivity.
Qed.

(** [is_normalization_error] masks the code with 0x60, so it holds
    whenever bit 0x20 or bit 0x40 is set: for every code from 0x20 to
    0x7F (and those codes with the group bit added), which takes in the
    codes of the shape and value rules such as [TYPE] and
    [REGEX_MISMATCH] besides the codes that start at [NORMALIZATION]. *)
Theorem is_normalization_error_bits (e : ValidationError) :
  (is_normalization_error e = true <-> 0x20 <= (code e) mod 0x80) /\
  (forall d, In d error_definitions ->
     (truthy (Z.land (ErrorDefinition.code d) (ErrorDefinition.code NORMALIZATION)) = true
      <-> 0x21 <= ErrorDefinition.code d <= 0x64)).
Proof.
  split.
  - unfold is_normalization_error.
    change (ErrorDefinition.code NORMALIZATION) with 0x60.
    rewrite land_0x60_mod, land_0x60_small by (apply Z.mod_pos_bound; lia).
    rewrite Z.leb_le. reflexivity.
  - unfold error_definitions. intros d Hd. simpl in Hd.
    repeat (destruct Hd as [<- | Hd];
            [simpl ErrorDefinition.code;
             split; intros H;
               first [lia | reflexivity | (vm_compute in H; discriminate H)] |]).
    destruct Hd.
Qed.

(** ** The buckets of [definitions_errors] *)

Lemma bucket_append_get {A} i k (a : A) (d : dict seg (list A)) :
  default [] (dict_get k (bucket_append i a d)) =
    default [] (dict_get k d) ++ (if decide (k = i) then [a] else []).
Proof.
  unfold bucket_append.
  destruct (dict_get i d) as [l |] eqn:Hi; rewrite dict_get_set;
    destruct (decide (k = i)) as [-> | Hk]; try (rewrite app_nil_r; reflexivity).
  - rewrite Hi. reflexivity.
  - rewrite Hi. reflexivity.
Qed.

Lemma bucket_append_keys {A} i (a : A) (d : dict seg (list A)) :
  NoDup (map fst d) -> NoDup (map fst (bucket_append i a d)).
Proof.
  intros Hnd. unfold bucket_append.
  destruct (dict_get i d); apply NoDup_dict_set, Hnd.
Qed.

Lemma bucket_append_nonempty {A} i (a : A) (d : dict seg (list A)) :
  Forall (fun b => snd b <> []) d ->
  Forall (fun b => snd b <> []) (bucket_append i a d).
Proof.
  intros Hall. rewrite Forall_forall in Hall.
  apply Forall_forall. intros [k l] Hin. apply list_elem_of_In in Hin.
  unfold bucket_append in Hin.
  destruct (dict_get i d) as [l0 |];
    apply dict_set_In in Hin as [[-> ->] | Hin];
    try (apply (Hall (k, l)), list_elem_of_In, Hin).
  - simpl. destruct l0; discriminate.
  - discriminate.
Qed.

(** The loop of [definitions_errors], from any dictionary of buckets. *)
Lemma bucket_loop_spec n (l : list (nat * ValidationError)) :
  forall d0 d,
    for_each
      (fun d (kc : nat * ValidationError) =>
         let! i := index (schema_path (snd kc)) n in
         Ok (bucket_append i kc d))
      l d0 = Ok d ->
    NoDup (map fst d0) -> Forall (fun b => snd b <> []) d0 ->
    NoDup (map fst d) /\ Forall (fun b => snd b <> []) d /\
    forall i,
      default [] (dict_get i d) =
        default [] (dict_get i d0)
          ++ filter (fun kc : nat * ValidationError =>
                       schema_path (snd kc) !! n = Some i) l.
Proof.
  induction l as [| kc l IH]; intros d0 d Hrun Hnd Hne.
  - injection Hrun as <-. split; [exact Hnd |]. split; [exact Hne |].
    intros i. rewrite filter_nil, app_nil_r. reflexivity.
  - cbn [for_each] in Hrun. unfold index in Hrun at 1.
    destruct (schema_path (snd kc) !! n) as [i0 |] eqn:Hi0; [| discriminate].
    cbn [bind] in Hrun.
    destruct (IH _ _ Hrun (bucket_append_keys _ _ _ Hnd)
                (bucket_append_nonempty _ _ _ Hne)) as (Hnd' & Hne' & Hget).
    split; [exact Hnd' |]. split; [exact Hne' |].
    intros i. rewrite Hget, bucket_append_get, filter_cons, <- app_assoc.
    f_equal. rewrite Hi0.
    destruct (decide (i = i0)) as [-> | Hne0].
    + rewrite decide_True by reflexivity. reflexivity.
    + rewrite decide_False by congruence. reflexivity.
Qed.

Lemma filter_imap_pair (P : ValidationError -> Prop) `{forall c, Decision (P c)}
    (l : list ValidationError) (f : nat -> nat) :
  map snd (filter (fun kc : nat * ValidationError => P (snd kc))
             (imap (fun k => pair (f k)) l))
  = filter P l.
Proof.
  revert f. induction l as [| c l IH]; intros f; [reflexivity |].
  cbn [imap]. rewrite !filter_cons. cbn [snd].
  specialize (IH (f ∘ S)).
  destruct (decide (P c)); cbn [map snd]; rewrite <- IH; reflexivity.
Qed.

(** [definitions_errors] of a logic error: the keys of the dictionary
    are distinct, no bucket is empty, and the bucket of an index holds,
    in their order, exactly the child errors whose schema path goes on
    with that index after the schema path of the error. *)
Theorem definitions_errors_buckets (e : ValidationError)
    (d : dict seg (list (nat * ValidationError))) :
  definitions_errors e = Ok (Some d) ->
  exists children,
    (let! c := child_errors e in iterate c) = Ok children /\
    NoDup (map fst d) /\
    Forall (fun b => snd b <> []) d /\
    forall i,
      map snd (default [] (dict_get i d)) =
        filter (fun c : ValidationError =>
                  schema_path c !! length (schema_path e) = Some i) children.
Proof.
  unfold definitions_errors. destruct (negb (is_logic_error e)); [discriminate |].
  destruct (child_errors e) as [c | x]; [| discriminate]. cbn [bind].
  destruct (iterate c) as [children | x]; [| discriminate]. cbn [bind].
  destruct (bucket_children (schema_path e) (imap pair children)) as [d' | x] eqn:Hb;
    [| discriminate].
  cbn [bind]. intros [= <-]. exists children. split; [reflexivity |].
  unfold bucket_children in Hb.
  destruct (bucket_loop_spec _ _ _ _ Hb (NoDup_nil_2 (A:=seg)) (Forall_nil_2 _))
    as (Hnd & Hne & Hget).
  split; [exact Hnd |]. split; [exact Hne |].
  intros i. rewrite Hget. cbn [dict_get from_option id app].
  pose proof (filter_imap_pair
                (fun c : ValidationError =>
                   schema_path c !! length (schema_path e) = Some i) children id)
    as Hf.
  exact Hf.
Qed.

Lemma definitions_errors_buckets_witness :
  exists children,
    (let! c := child_errors anyof_error in iterate c) = Ok children /\
    NoDup (map fst anyof_buckets) /\
    Forall (fun b => snd b <> []) anyof_buckets /\
    forall i,
      map snd (default [] (dict_get i anyof_buckets)) =
        filter (fun c : ValidationError =>
                  schema_path c !! length (schema_path anyof_error) = Some i)
          children.
Proof.
  apply (definitions_errors_buckets anyof_error anyof_buckets). reflexivity.
Defined.

(** ** Formatting with the catalog of [BasicErrorHandler] *)

(** Every template of the catalog reads at most [info[0]]: the message
    of an error whose code is in the catalog and whose [info] is not
    empty can be formatted. *)
Theorem format_message_with_info
    (repr_errors : list ValidationError -> string)
    (f : option seg) (e : ValidationError) :
  dict_has (code e) messages = true -> info e <> [] ->
  exists m, _format_message messages repr_errors f e = Ok m.
Proof.
  intros Hc Hi. unfold _format_message. unfold dict_has in Hc.
  destruct (info e) as [| i0 rest] eqn:Hinfo; [congruence |].
  revert Hc. unfold messages. cbn [dict_get].
  repeat (case_decide;
          [intros _; unfold format; cbn [for_each format_fragment bind lookup list_lookup];
           destruct i0; eexists; reflexivity |]).
  discriminate.
Qed.

Lemma format_message_with_info_witness :
  exists m,
    _format_message messages (fun _ => ""%string) (field simple_group) simple_group
      = Ok m.
Proof.
  apply (format_message_with_info (fun _ => ""%string) (field simple_group)
           simple_group); [reflexivity | discriminate].
Defined.

(** ** Queries on error lists and tree nodes *)

Lemma contains_code_find (w : Z) (l : list ValidationError) :
  existsb (fun x : ValidationError => code x =? w) l =
    match find (fun error : ValidationError => w =? code error) l with
    | Some _ => true
    | None => false
    end.
Proof.
  induction l as [| a l IH]; [reflexivity |].
  simpl. rewrite (Z.eqb_sym (code a) w).
  destruct (w =? code a); [reflexivity | exact IH].
Qed.

(** [item in node] never raises, and holds exactly when [node[item]] is
    not [None]; an error that [node[definition]] returns has the code
    of the definition, and a list of errors refuses a field name. *)
Theorem contains_agrees_with_getitem (self : ErrorTreeNode.t) (item : query) :
  ErrorTreeNodeQueries.__contains__ self item
    = Ok (match ErrorTreeNodeQueries.__getitem__ self item with
          | Some _ => true
          | None => false
          end) /\
  (forall d error,
     ErrorTreeNodeQueries.__getitem__ self (QDefinition d) = Some (FoundError error) ->
     In error (ErrorTreeNode.errors self) /\ code error = ErrorDefinition.code d) /\
  (forall key, ErrorList.__contains__ (ErrorTreeNode.errors self) (QField key)
               = Raise TypeError).
Proof.
  split; [| split].
  - destruct item as [d | key]; simpl.
    + rewrite contains_code_find. destruct (find _ _); reflexivity.
    + unfold dict_has. destruct (dict_get key _); reflexivity.
  - intros d error. simpl.
    destruct (find _ _) as [e0 |] eqn:Hfind; [| discriminate].
    intros [= <-]. apply find_some in Hfind as [Hin Hc].
    split; [exact Hin |]. apply Z.eqb_eq in Hc. congruence.
  - reflexivity.
Qed.

Lemma dict_get_filter_ne {K V} `{EqDecision K} (k k' : K) (d : dict K V) :
  dict_get k' (filter (fun kv : K * V => fst kv <> k) d) =
    if decide (k' = k) then None else dict_get k' d.
Proof.
  unfold dict in *. induction d as [| [k0 v0] d IH].
  - cbn. destruct (decide (k' = k)); reflexivity.
  - rewrite filter_cons. cbn [fst].
    destruct (decide (k0 <> k)) as [Hne | Heq].
    + cbn [dict_get]. destruct (decide (k' = k0)) as [-> | Hne'].
      * rewrite decide_False by exact Hne. reflexivity.
      * exact IH.
    + apply dec_stable in Heq. subst k0. rewrite IH. cbn [dict_get].
      destruct (decide (k' = k)); reflexivity.
Qed.

(** [del node[key]] raises [KeyError] when the node has no descendant
    for the key; otherwise nothing is found below the key afterwards,
    and the errors of the node and what is below the other keys stay. *)
Theorem delitem_removes_subtree (self : ErrorTreeNode.t) (key : seg) :
  match ErrorTreeNodeQueries.__delitem__ self key with
  | Ok self' =>
      ErrorTreeNodeQueries.__contains__ self (QField key) = Ok true /\
      ErrorTreeNodeQueries.__contains__ self' (QField key) = Ok false /\
      ErrorTreeNode.errors self' = ErrorTreeNode.errors self /\
      forall k q,
        ErrorTree.fetch_node_from self' (k :: q) =
          if decide (k = key) then None else ErrorTree.fetch_node_from self (k :: q)
  | Raise x =>
      x = KeyError /\
      ErrorTreeNodeQueries.__contains__ self (QField key) = Ok false
  end.
Proof.
  unfold ErrorTreeNodeQueries.__delitem__, dict_del.
  cbn [ErrorTreeNodeQueries.__contains__].
  destruct (dict_has key (ErrorTreeNode.descendants self)) eqn:Hhas; cbn [bind].
  - split; [reflexivity |]. split; [| split; [reflexivity |]].
    + unfold dict_has. cbn [ErrorTreeNode.descendants].
      rewrite dict_get_filter_ne, decide_True by reflexivity. reflexivity.
    + intros k q. cbn [ErrorTree.fetch_node_from].
      unfold ErrorTreeNode.__getitem__. cbn [ErrorTreeNode.descendants].
      rewrite dict_get_filter_ne. destruct (decide (k = key)); reflexivity.
  - split; reflexivity.
Qed.

(** ** [ErrorTree.add] and [ErrorTree.__init__] *)

Section TreeAdd.
Variable compare_paths_lt : DocumentPath -> DocumentPath -> bool.
Variable list_sort :
  (ValidationError -> ValidationError -> bool) ->
  list ValidationError -> list ValidationError.
Variable self_tree_type : tree_type.

Local Abbreviation path_of := (ErrorTreeNode._path_of_ self_tree_type).
Local Abbreviation node_add :=
  (ErrorTreeNode.add compare_paths_lt list_sort self_tree_type).
Local Abbreviation tree_add :=
  (ErrorTree.add compare_paths_lt list_sort self_tree_type).
Local Abbreviation append_sorted :=
  (ErrorTreeNode.append_sorted compare_paths_lt list_sort).
Local Abbreviation sorted_with error l :=
  (list_sort (__lt__ compare_paths_lt) (l ++ [error])).

Lemma fetch_nil self :
  ErrorTree.fetch_errors_from self [] = ErrorTreeNode.errors self.
Proof. reflexivity. Qed.

(** [ErrorTreeNode.add] on a well-formed node above the end of the
    error's path: the errors at the rest of the path are sorted anew
    with the error among them, and nothing else changes. *)
Lemma node_add_exact limit :
  forall d self error,
    wf_node d self ->
    (d < length (path_of error))%nat ->
    (length (path_of error) - d <= limit)%nat ->
    exists self',
      node_add limit self error = Ok self' /\
      wf_node d self' /\
      forall q,
        ErrorTree.fetch_errors_from self' q =
          if decide (q = drop d (path_of error))
          then sorted_with error (ErrorTree.fetch_errors_from self q)
          else ErrorTree.fetch_errors_from self q.
Proof.
  induction limit as [| limit IH]; intros d self error Hwf Hd Hl; [lia |].
  cbn [ErrorTreeNode.add].
  rewrite (wf_node_depth d self Hwf).
  destruct (path_of error !! d) as [key |] eqn:Hkey;
    [| apply lookup_ge_None in Hkey; lia].
  unfold index. rewrite Hkey. cbn [bind].
  rewrite (drop_S _ _ _ Hkey).
  set (self1 := if dict_has key (ErrorTreeNode.descendants self) then self
                else ErrorTreeNode.__setitem__ self key
                       (ErrorTreeNode.__init__ (path_of error) self)).
  assert (Hnew : wf_node (S d) (ErrorTreeNode.__init__ (path_of error) self)).
  { unfold ErrorTreeNode.__init__. rewrite (wf_node_depth d self Hwf).
    constructor; [| constructor]. rewrite length_take. lia. }
  assert (Hwf1 : wf_node d self1).
  { unfold self1. destruct (dict_has key _); [exact Hwf |].
    apply wf_node_setitem; assumption. }
  assert (Hd1 : ErrorTreeNode.depth self1 = d) by (apply wf_node_depth, Hwf1).
  assert (Hf1 : forall q, ErrorTree.fetch_errors_from self1 q
                          = ErrorTree.fetch_errors_from self q).
  { unfold self1, dict_has.
    destruct (dict_get key (ErrorTreeNode.descendants self)) as [n0 |] eqn:Hget;
      [reflexivity |].
    intros q. rewrite fetch_setitem. destruct q as [| k q']; [reflexivity |].
    destruct (decide (k = key)) as [-> |]; [| reflexivity].
    rewrite fetch_cons. unfold ErrorTreeNode.__getitem__. rewrite Hget.
    destruct q'; reflexivity. }
  assert (Hget1 : exists node, ErrorTreeNode.__getitem__ self1 key = Some node).
  { unfold self1, dict_has, ErrorTreeNode.__getitem__.
    destruct (dict_get key (ErrorTreeNode.descendants self)) as [n0 |] eqn:Hget;
      [eauto |].
    simpl. rewrite dict_get_set, decide_True by reflexivity. eauto. }
  destruct Hget1 as [node Hnode]. rewrite Hnode.
  pose proof (wf_node_getitem d self1 key node Hwf1 Hnode) as Hwfn.
  assert (Hbelow : forall q', ErrorTree.fetch_errors_from self (key :: q')
                              = ErrorTree.fetch_errors_from node q').
  { intros q'. rewrite <- Hf1, fetch_cons, Hnode. reflexivity. }
  rewrite Hd1.
  case_bool_decide as Hlen.
  - exists (ErrorTreeNode.__setitem__ self1 key (append_sorted node error)).
    split; [reflexivity |]. split.
    + apply wf_node_setitem; [exact Hwf1 |].
      inversion Hwfn; subst. constructor; assumption.
    + intros q. rewrite fetch_setitem. rewrite drop_ge by lia.
      destruct q as [| k q'].
      * rewrite decide_False by discriminate. rewrite <- (Hf1 []). reflexivity.
      * destruct (decide (k = key)) as [-> | Hk].
        -- rewrite Hbelow. destruct q' as [| k' q''].
           ++ rewrite decide_True by reflexivity. reflexivity.
           ++ rewrite decide_False by discriminate.
              rewrite !fetch_cons. reflexivity.
        -- rewrite decide_False by congruence. apply Hf1.
  - destruct (IH (S d) node error Hwfn ltac:(lia) ltac:(lia))
      as (node' & Hadd & Hwfn' & Hq').
    rewrite Hadd. cbn [bind].
    exists (ErrorTreeNode.__setitem__ self1 key node').
    split; [reflexivity |]. split.
    + apply wf_node_setitem; assumption.
    + intros q. rewrite fetch_setitem. destruct q as [| k q'].
      * rewrite decide_False by discriminate. rewrite <- (Hf1 []). reflexivity.
      * destruct (decide (k = key)) as [-> | Hk].
        -- rewrite Hq', Hbelow.
           destruct (decide (q' = drop (S d) (path_of error))) as [-> | Hne].
           ++ rewrite decide_True by reflexivity. reflexivity.
           ++ rewrite decide_False by congruence. reflexivity.
        -- rewrite decide_False by congruence. apply Hf1.
Qed.

Lemma tree_add_exact limit root (error : ValidationError) :
  wf_node 0 root ->
  is_group_error error = false ->
  (length (path_of error) < limit)%nat ->
  exists root',
    tree_add limit root error = Ok root' /\
    wf_node 0 root' /\
    forall q,
      ErrorTree.fetch_errors_from root' q =
        if decide (q = path_of error)
        then sorted_with error (ErrorTree.fetch_errors_from root q)
        else ErrorTree.fetch_errors_from root q.
Proof.
  intros Hwf Hg Hl. destruct limit as [| limit]; [lia |].
  cbn [ErrorTree.add].
  destruct (path_of error) as [| k p'] eqn:Hp.
  - exists (append_sorted root error). split; [reflexivity |]. split.
    + inversion Hwf; subst. constructor; assumption.
    + intros [| k q]; [reflexivity |].
      rewrite decide_False by discriminate. rewrite !fetch_cons. reflexivity.
  - destruct (node_add_exact limit 0 root error Hwf) as (root1 & H1 & Hwf1 & Hq);
      [rewrite Hp; simpl; lia | rewrite Hp in *; simpl in *; lia |].
    rewrite H1. cbn [bind]. rewrite Hg. rewrite drop_0, Hp in Hq.
    exists root1. auto.
Qed.

End TreeAdd.

(** [ErrorTree.add] of an error that is not a group error, with enough
    depth: at the error's path the errors are the ones before and the
    error, sorted; at every other path they are as before. *)
Theorem tree_add_sorts_at_path
    (compare_paths_lt : DocumentPath -> DocumentPath -> bool)
    (list_sort : (ValidationError -> ValidationError -> bool) ->
                 list ValidationError -> list ValidationError)
    (self_tree_type : tree_type)
    (limit : nat) (root : ErrorTreeNode.t) (error : ValidationError) :
  wf_node 0 root ->
  is_group_error error = false ->
  (length (ErrorTreeNode._path_of_ self_tree_type error) < limit)%nat ->
  exists root',
    ErrorTree.add compare_paths_lt list_sort self_tree_type limit root error
      = Ok root' /\
    wf_node 0 root' /\
    forall q,
      ErrorTree.fetch_errors_from root' q =
        if decide (q = ErrorTreeNode._path_of_ self_tree_type error)
        then list_sort (__lt__ compare_paths_lt)
               (ErrorTree.fetch_errors_from root q ++ [error])
        else ErrorTree.fetch_errors_from root q.
Proof. apply tree_add_exact. Qed.

Lemma tree_add_sorts_at_path_witness :
  exists root',
    ErrorTree.add example_compare_paths_lt example_list_sort schema 5
      ErrorTree.empty simple_child = Ok root' /\
    wf_node 0 root' /\
    forall q,
      ErrorTree.fetch_errors_from root' q =
        if decide (q = ErrorTreeNode._path_of_ schema simple_child)
        then example_list_sort (__lt__ example_compare_paths_lt)
               (ErrorTree.fetch_errors_from ErrorTree.empty q ++ [simple_child])
        else ErrorTree.fetch_errors_from ErrorTree.empty q.
Proof.
  apply (tree_add_sorts_at_path example_compare_paths_lt example_list_sort
           schema 5 ErrorTree.empty simple_child).
  - exact wf_node_empty.
  - reflexivity.
  - vm_compute. lia.
Defined.

Lemma fetch_errors_In_node root q (e : ValidationError) :
  In e (ErrorTree.fetch_errors_from root q) ->
  exists node,
    ErrorTree.fetch_node_from root q = Some node /\
    In e (ErrorTreeNode.errors node).
Proof.
  unfold ErrorTree.fetch_errors_from.
  destruct (ErrorTree.fetch_node_from root q) as [node |]; [eauto | intros []].
Qed.

Lemma contains_code (l : list ValidationError) (e : ValidationError) d :
  In e l -> ErrorDefinition.code d = code e ->
  ErrorList.__contains__ l (QDefinition d) = Ok true.
Proof.
  intros Hin Hc. cbn [ErrorList.__contains__]. f_equal.
  apply existsb_exists. exists e. split; [exact Hin |].
  apply Z.eqb_eq. congruence.
Qed.

(** [ErrorTree(errors)], with enough depth, for errors whose group
    errors carry their child errors and a sort that keeps the elements:
    the tree is built, and every error of the list is among the errors
    of the node at its path, where [definition in node] holds for every
    definition with the code of the error. *)
Theorem init_holds_every_error
    (compare_paths_lt : DocumentPath -> DocumentPath -> bool)
    (list_sort : (ValidationError -> ValidationError -> bool) ->
                 list ValidationError -> list ValidationError)
    (self_tree_type : tree_type)
    (limit : nat) (errors : list ValidationError) :
  (forall lt l, Permutation (list_sort lt l) l) ->
  Forall well_formed_error errors ->
  Forall (fun e => (ErrorTree.frames self_tree_type e <= limit)%nat) errors ->
  exists root,
    ErrorTree.__init__ compare_paths_lt list_sort self_tree_type limit errors
      = Ok root /\
    forall e : ValidationError, In e errors ->
      exists node,
        ErrorTree.fetch_node_from root (ErrorTreeNode._path_of_ self_tree_type e)
          = Some node /\
        In e (ErrorTreeNodeQueries.__iter__ node) /\
        forall d, ErrorDefinition.code d = code e ->
          ErrorTreeNodeQueries.__contains__ node (QDefinition d) = Ok true.
Proof.
  intros Hsort Hwfe Hfr.
  rewrite Forall_forall in Hwfe, Hfr.
  destruct (add_children_spec compare_paths_lt list_sort self_tree_type limit errors)
    with (root := ErrorTree.empty) as (root & Hrun & _ & _ & Hin).
  - intros r c Hc Hr.
    destruct (tree_add_spec compare_paths_lt list_sort self_tree_type Hsort
                limit r c Hr (Hwfe c ltac:(apply list_elem_of_In, Hc))
                (Hfr c ltac:(apply list_elem_of_In, Hc)))
      as (r' & Ha & Hw & Hk & Hi & _).
    exists r'. auto.
  - exact wf_node_empty.
  - exists root. split; [exact Hrun |].
    intros e He. destruct (fetch_errors_In_node _ _ _ (Hin e He)) as (node & Hn & Hen).
    exists node. split; [exact Hn |]. split; [exact Hen |].
    intros d Hd. cbn [ErrorTreeNodeQueries.__contains__].
    eapply contains_code; eassumption.
Qed.

Lemma init_holds_every_error_witness :
  exists root,
    ErrorTree.__init__ example_compare_paths_lt example_list_sort document 5
      [simple_group; unknown_field_error] = Ok root /\
    forall e : ValidationError, In e [simple_group; unknown_field_error] ->
      exists node,
        ErrorTree.fetch_node_from root (ErrorTreeNode._path_of_ document e)
          = Some node /\
        In e (ErrorTreeNodeQueries.__iter__ node) /\
        forall d, ErrorDefinition.code d = code e ->
          ErrorTreeNodeQueries.__contains__ node (QDefinition d) = Ok true.
Proof.
  apply (init_holds_every_error example_compare_paths_lt example_list_sort
           document 5 [simple_group; unknown_field_error]).
  - intros lt l. apply merge_sort_Permutation.
  - constructor; [| constructor; [apply wfe_plain; reflexivity | constructor]].
    apply (wfe_group simple_group [simple_child] []); [reflexivity |].
    constructor; [apply wfe_plain; reflexivity | constructor].
  - repeat constructor; vm_compute; lia.
Defined.

(** ** The catalog and the codes of an error *)

Lemma every_formatted_code_children P (e : ValidationError) c cs :
  every_formatted_code P e ->
  child_errors e = Ok c -> iterate c = Ok cs ->
  Forall (every_formatted_code P) cs.
Proof.
  intros He. unfold child_errors, index.
  destruct (is_group_error e); [| intros [= <-]; discriminate].
  destruct (info e) as [| item rest] eqn:Hi; simpl; [discriminate |].
  intros [= <-]. destruct item as [[| [|] |] | ls]; simpl; try discriminate;
    intros [= <-]; [constructor |].
  inversion He as [e0 _ Hcs]; subst. eapply Hcs, Hi.
Qed.

Lemma every_formatted_code_buckets P (e : ValidationError) buckets :
  every_formatted_code P e ->
  definitions_errors e = Ok (Some buckets) ->
  forall i b kc, In (i, b) buckets -> In kc b -> every_formatted_code P (snd kc).
Proof.
  intros He. unfold definitions_errors.
  destruct (negb (is_logic_error e)); [discriminate |].
  destruct (child_errors e) as [c |] eqn:Hc; simpl; [| discriminate].
  destruct (iterate c) as [cs |] eqn:Hcs; simpl; [| discriminate].
  destruct (bucket_children (schema_path e) (imap pair cs)) as [d |] eqn:Hd;
    simpl; [| discriminate].
  intros [= <-] i b [k c'] Hb Hkc. simpl.
  pose proof (every_formatted_code_children P e c cs He Hc Hcs) as Hall.
  rewrite Forall_forall in Hall. apply Hall, list_elem_of_In.
  eapply (imap_pair_In cs (fun i => i) k).
  eapply bucket_children_In; eauto.
Qed.

Lemma every_formatted_code_set_document_path P (c : ValidationError) dp :
  every_formatted_code P c ->
  every_formatted_code P (Error (set_document_path c dp)).
Proof. intros H. inversion H as [e0 Hc Hcs]; subst. constructor; assumption. Qed.

Lemma every_formatted_code_set_child P k (c' acc : ValidationError) :
  every_formatted_code P acc -> every_formatted_code P c' ->
  every_formatted_code P (set_child k c' acc).
Proof.
  intros Hacc Hc'. unfold set_child.
  destruct (info acc) as [| [v | cs] rest] eqn:Hi; try exact Hacc.
  inversion Hacc as [e0 Hc Hcs]; subst.
  constructor; [exact Hc |].
  cbn [attrs mkValidationError info]. intros cs' rest' [= <- <-].
  apply Forall_insert; [eapply Hcs, Hi | exact Hc'].
Qed.

Lemma for_each_invariant {S A} (I : S -> Prop) (body : S -> A -> result S)
    (l : list A) :
  (forall s a s', In a l -> I s -> body s a = Ok s' -> I s') ->
  forall s0 s, I s0 -> for_each body l s0 = Ok s -> I s.
Proof.
  induction l as [| a l IH]; intros Hstep s0 s H0; simpl.
  - intros [= <-]. exact H0.
  - destruct (body s0 a) as [s1 |] eqn:Hb; simpl; [| discriminate].
    apply IH.
    + intros s2 a' s' Hin. apply Hstep. right. exact Hin.
    + eapply Hstep; [left; reflexivity | exact H0 | exact Hb].
Qed.

(** The rewriting pass keeps what holds of the codes. *)
Lemma rewrite_every_formatted_code P depth :
  (forall (e e' : ValidationError) offset,
     every_formatted_code P e ->
     _rewrite_error_path depth e offset = Ok e' -> every_formatted_code P e') /\
  (forall (e e' : ValidationError) offset,
     every_formatted_code P e ->
     _rewrite_group_error_path depth e offset = Ok e' -> every_formatted_code P e') /\
  (forall (e e' : ValidationError) offset,
     every_formatted_code P e ->
     _rewrite_logic_error_path depth e offset = Ok e' -> every_formatted_code P e').
Proof.
  induction depth as [| depth (IH & IHg & IHl)].
  { repeat split; intros; discriminate. }
  split; [| split]; intros e e' offset He;
    cbn [_rewrite_error_path _rewrite_group_error_path _rewrite_logic_error_path].
  - destruct (is_logic_error e); [apply IHl, He |].
    destruct (is_group_error e); [apply IHg, He |].
    intros [= <-]. exact He.
  - destruct (child_errors e) as [c |] eqn:Hc; simpl; [| discriminate].
    destruct (iterate c) as [cs |] eqn:Hcs; simpl; [| discriminate].
    pose proof (every_formatted_code_children P e c cs He Hc Hcs) as Hall.
    rewrite Forall_forall in Hall.
    apply for_each_invariant; [| exact He].
    intros acc [k c0] acc' Hin Hacc. cbn [fst snd].
    apply imap_pair_In with (f := fun i => i) in Hin.
    destruct (_rewrite_error_path depth _ offset) as [c1 |] eqn:Hr; simpl;
      [| discriminate].
    intros [= <-]. apply every_formatted_code_set_child; [exact Hacc |].
    eapply IH; [| exact Hr].
    apply every_formatted_code_set_document_path, Hall, list_elem_of_In, Hin.
  - destruct (definitions_errors e) as [[buckets |] |] eqn:Hd; simpl; try discriminate.
    apply for_each_invariant; [| exact He].
    intros acc [i b] acc' Hb Hacc. cbn [fst snd].
    destruct b as [| kc0 b0] eqn:Eb; [intros [= <-]; exact Hacc |].
    rewrite <- Eb in *. clear Eb.
    apply for_each_invariant; [| exact Hacc].
    intros acc1 [k c0] acc1' Hin Hacc1. cbn [fst snd].
    destruct (_rewrite_error_path depth _ (offset + 1)) as [c1 |] eqn:Hr; simpl;
      [| discriminate].
    intros [= <-]. apply every_formatted_code_set_child; [exact Hacc1 |].
    eapply IH; [| exact Hr].
    apply every_formatted_code_set_document_path.
    exact (every_formatted_code_buckets P e buckets He Hd i b (k, c0) Hb Hin).
Qed.

Section TwoCatalogs.
Variables m1 m2 : dict Z template.
Variable repr_errors : list ValidationError -> string.

Local Abbreviation agree := (fun c : Z => dict_get c m1 = dict_get c m2).

Lemma insert_message_agree tree path f (e : ValidationError) :
  agree (code e) ->
  insert_message m1 repr_errors tree path f e
  = insert_message m2 repr_errors tree path f e.
Proof.
  intros Ha. unfold insert_message, _format_message. rewrite Ha. reflexivity.
Qed.

Lemma insert_child_agree
    (il1 il2 ig1 ig2 : report -> ValidationError -> outcome)
    tree f (c : ValidationError) :
  every_formatted_code agree c ->
  (is_logic_error c = true -> il1 tree c = il2 tree c) ->
  (ig1 tree c = ig2 tree c) ->
  (if is_logic_error c then il1 tree c
   else if is_group_error c then ig1 tree c
   else insert_message m1 repr_errors tree (document_path c) f c)
  = (if is_logic_error c then il2 tree c
     else if is_group_error c then ig2 tree c
     else insert_message m2 repr_errors tree (document_path c) f c).
Proof.
  intros Hc Hl Hg.
  destruct (is_logic_error c) eqn:El; [apply Hl; reflexivity |].
  destruct (is_group_error c) eqn:Eg; [apply Hg |].
  apply insert_message_agree.
  inversion Hc as [e0 [[_ Habs] | Hp] _]; subst; [congruence | exact Hp].
Qed.

Lemma insert_errors_agree depth :
  (forall tree (e : ValidationError),
     every_formatted_code agree e -> is_logic_error e = true ->
     _insert_logic_error m1 repr_errors depth tree e
     = _insert_logic_error m2 repr_errors depth tree e) /\
  (forall tree (e : ValidationError),
     every_formatted_code agree e ->
     _insert_group_error m1 repr_errors depth tree e
     = _insert_group_error m2 repr_errors depth tree e).
Proof.
  induction depth as [| depth (IHl & IHg)]; [split; reflexivity |].
  split; [intros tree e He Hlogic | intros tree e He];
    cbn [_insert_logic_error _insert_group_error].
  - assert (Ha : agree (code e)).
    { inversion He as [e0 [[Hl _] | Hp] _]; subst; [congruence | exact Hp]. }
    rewrite (insert_message_agree tree _ _ e Ha).
    destruct (insert_message m2 repr_errors tree (document_path e) (field e) e)
      as [t | x t]; [| reflexivity].
    destruct (definitions_errors e) as [[buckets |] |] eqn:Hd; try reflexivity.
    apply for_errors_ext. intros t1 [i b] Hb. cbn [snd].
    apply for_errors_ext. intros t2 c Hin.
    apply in_map_iff in Hin as ([k c'] & Heq & Hin). simpl in Heq. subst c'.
    pose proof (every_formatted_code_buckets agree e buckets He Hd i b (k, c) Hb Hin)
      as Hc.
    apply insert_child_agree; [exact Hc | apply IHl, Hc | apply IHg, Hc].
  - destruct (let! c := child_errors e in iterate c) as [children |] eqn:Hch;
      [| reflexivity].
    assert (Hall : Forall (every_formatted_code agree) children).
    { destruct (child_errors e) as [c |] eqn:Hc; simpl in Hch; [| discriminate].
      eapply every_formatted_code_children; eassumption. }
    rewrite Forall_forall in Hall.
    apply for_errors_ext. intros t2 c Hin.
    assert (Hc : every_formatted_code agree c) by (apply Hall, list_elem_of_In, Hin).
    apply insert_child_agree; [exact Hc | apply IHl, Hc | apply IHg, Hc].
Qed.

Lemma add_agree tree (e : ValidationError) :
  every_formatted_code agree e ->
  add m1 repr_errors tree e = add m2 repr_errors tree e.
Proof.
  intros He. unfold add, deepcopy.
  destruct (_rewrite_error_path (depth_for e) e 0) as [e' |] eqn:Hr; [| reflexivity].
  pose proof (proj1 (rewrite_every_formatted_code agree (depth_for e)) e e' 0 He Hr)
    as He'.
  unfold insert.
  destruct (is_logic_error e') eqn:El; [apply insert_errors_agree; [exact He' | exact El] |].
  destruct (is_group_error e') eqn:Eg; [apply insert_errors_agree, He' |].
  assert (Ha : agree (code e')).
  { inversion He' as [e0 [[_ Habs] | Hp] _]; subst; [congruence | exact Hp]. }
  unfold dict_has. rewrite Ha.
  destruct (dict_get (code e') m2); [| reflexivity].
  apply insert_message_agree, Ha.
Qed.

End TwoCatalogs.

(** ** What the rewriting pass changes *)

Lemma without_document_paths_set_document_path (c : ValidationError) dp :
  without_document_paths (Error (set_document_path c dp)) = without_document_paths c.
Proof. destruct c as [a]. reflexivity. Qed.

Lemma without_document_paths_with_children (e : ValidationError) cs cs' rest :
  info e = IErrors cs :: rest ->
  map without_document_paths cs' = map without_document_paths cs ->
  without_document_paths (with_children e cs') = without_document_paths e.
Proof.
  intros Hi Hm. unfold with_children. rewrite Hi.
  destruct e as [a]. cbn [attrs] in *. cbn [without_document_paths mkValidationError].
  unfold mkValidationError. cbn [schema_path code rule constraint value info].
  rewrite Hi. cbn [map]. rewrite Hm. reflexivity.
Qed.

Lemma without_document_paths_schema_path (a b : ValidationError) :
  without_document_paths a = without_document_paths b ->
  schema_path a = schema_path b.
Proof. destruct a as [a], b as [b]. cbn. intros [= H _]. exact H. Qed.

Lemma set_child_of_with_children (e : ValidationError) cs cs_acc rest k c1 :
  info e = IErrors cs :: rest ->
  set_child k c1 (with_children e cs_acc) = with_children e (<[k := c1]> cs_acc).
Proof.
  intros Hi. unfold set_child.
  rewrite (info_with_children e cs cs_acc rest Hi).
  unfold with_children. rewrite Hi. reflexivity.
Qed.

Lemma with_children_same (e : ValidationError) cs rest :
  info e = IErrors cs :: rest -> with_children e cs = e.
Proof.
  intros Hi. unfold with_children. rewrite Hi.
  destruct e as [a]. cbn [attrs] in *. unfold mkValidationError.
  rewrite <- Hi. destruct a. reflexivity.
Qed.

Lemma is_logic_error_with_children (e : ValidationError) cs :
  is_logic_error (with_children e cs) = is_logic_error e.
Proof.
  unfold with_children. destruct (info e) as [| [v | es] rest]; reflexivity.
Qed.

Lemma schema_path_with_children (e : ValidationError) cs :
  schema_path (with_children e cs) = schema_path e.
Proof.
  unfold with_children. destruct (info e) as [| [v | es] rest]; reflexivity.
Qed.

Lemma rule_with_children (e : ValidationError) cs :
  rule (with_children e cs) = rule e.
Proof.
  unfold with_children. destruct (info e) as [| [v | es] rest]; reflexivity.
Qed.

Lemma child_base_with_children (e : ValidationError) cs c :
  child_base (with_children e cs) c = child_base e c.
Proof.
  unfold child_base.
  rewrite is_logic_error_with_children, schema_path_with_children,
    rule_with_children, document_path_with_children.
  reflexivity.
Qed.

(** What a loop over [child_errors] iterates over. *)
Lemma child_errors_cases (e : ValidationError) c cs :
  child_errors e = Ok c -> iterate c = Ok cs ->
  (exists rest, info e = IErrors cs :: rest) \/
  (cs = [] /\ exists rest, info e = IVal (PStr "") :: rest).
Proof.
  unfold child_errors, index.
  destruct (is_group_error e); [| intros [= <-]; discriminate].
  destruct (info e) as [| item rest] eqn:Hi; simpl; [discriminate |].
  intros [= <-]. destruct item as [[| [|] |] | ls]; simpl; try discriminate;
    intros [= <-]; eauto.
Qed.

Lemma imap_pair_lookup {A} (l : list A) (f : nat -> nat) k a :
  In (k, a) (imap (fun i => pair (f i)) l) <-> exists j, k = f j /\ l !! j = Some a.
Proof.
  revert f. induction l as [| x l IH]; intros f; simpl.
  - split; [intros [] | intros (j & _ & Hj); discriminate].
  - split.
    + intros [[= <- <-] | Hin]; [exists 0%nat; auto |].
      apply (IH (f ∘ S)) in Hin as (j & -> & Hj). exists (S j). auto.
    + intros ([| j] & -> & Hj); simpl in Hj.
      * injection Hj as ->. left. reflexivity.
      * right. apply (IH (f ∘ S)). exists j. auto.
Qed.

Lemma for_each_invariant_done {S A} (I : list A -> S -> Prop)
    (body : S -> A -> result S) (l : list A) :
  (forall done a s s', In a l -> I done s -> body s a = Ok s' -> I (done ++ [a]) s') ->
  forall done s0 s, I done s0 -> for_each body l s0 = Ok s -> I (done ++ l) s.
Proof.
  induction l as [| a l IH]; intros Hstep done s0 s H0; simpl.
  - intros [= <-]. rewrite app_nil_r. exact H0.
  - destruct (body s0 a) as [s1 |] eqn:Hb; simpl; [| discriminate].
    intros Hrun.
    replace (done ++ a :: l) with ((done ++ [a]) ++ l)
      by (rewrite <- app_assoc; reflexivity).
    apply IH with (s0 := s1); [| | exact Hrun].
    + intros d a' s2 s' Hin. apply Hstep. right. exact Hin.
    + eapply Hstep; [left; reflexivity | exact H0 | exact Hb].
Qed.

Lemma for_each_ok_all {S A} (body : S -> A -> result S) (l : list A) s0 s :
  for_each body l s0 = Ok s ->
  forall a, In a l -> exists s1 s2, body s1 a = Ok s2.
Proof.
  revert s0. induction l as [| a l IH]; intros s0; simpl; [intros _ a [] |].
  destruct (body s0 a) as [s1 |] eqn:Hb; simpl; [| discriminate].
  intros Hrun a' [<- | Hin]; [eauto | eapply IH; eassumption].
Qed.

Lemma dict_get_In_NoDup {K V} `{EqDecision K} (k : K) (v : V) (d : dict K V) :
  NoDup (map fst d) -> In (k, v) d -> dict_get k d = Some v.
Proof.
  induction d as [| [k0 v0] d IH]; simpl; [intros _ [] |].
  intros Hnd. apply NoDup_cons in Hnd as [Hk0 Hnd].
  intros [[= -> ->] | Hin]; [rewrite decide_True by reflexivity; reflexivity |].
  destruct (decide (k = k0)) as [-> | Hne]; [| apply IH; assumption].
  exfalso. apply Hk0, list_elem_of_In, in_map_iff. exists (k0, v). auto.
Qed.

(** The buckets of a logic error with the child errors [cs]: an error
    of a bucket is the child at its position and comes from the
    definition of the bucket, and every child is in a bucket. *)
Lemma definitions_errors_positions (e : ValidationError) cs rest buckets :
  info e = IErrors cs :: rest ->
  definitions_errors e = Ok (Some buckets) ->
  (forall i b kc, In (i, b) buckets -> In kc b ->
     cs !! fst kc = Some (snd kc) /\
     schema_path (snd kc) !! length (schema_path e) = Some i) /\
  (forall k c0, cs !! k = Some c0 ->
     exists i b, In (i, b) buckets /\ In (k, c0) b).
Proof.
  intros Hi. unfold definitions_errors, child_errors, index.
  destruct (negb (is_logic_error e)); [discriminate |].
  destruct (is_group_error e); [| discriminate].
  rewrite Hi. cbn [lookup list_lookup bind iterate].
  destruct (bucket_children (schema_path e) (imap pair cs)) as [d |] eqn:Hb;
    cbn [bind]; [| discriminate].
  intros [= <-]. unfold bucket_children in Hb.
  destruct (bucket_loop_spec _ _ _ _ Hb (NoDup_nil_2 (A:=seg)) (Forall_nil_2 _))
    as (Hnd & _ & Hget).
  split.
  - intros i b [k c0] Hib Hkc. cbn [fst snd].
    pose proof (dict_get_In_NoDup i b d Hnd Hib) as Hgi.
    specialize (Hget i). rewrite Hgi in Hget. cbn [from_option id dict_get app] in Hget.
    subst b. apply list_elem_of_In, list_elem_of_filter in Hkc as [Hidx Hin].
    cbn [snd] in Hidx. split; [| exact Hidx].
    apply list_elem_of_In in Hin.
    apply (imap_pair_lookup cs (fun i => i) k c0) in Hin as (j & -> & Hj). exact Hj.
  - intros k c0 Hk.
    assert (Hin : In (k, c0) (imap pair cs))
      by (apply (imap_pair_lookup cs (fun i => i)); eauto).
    destruct (for_each_ok_all _ _ _ _ Hb (k, c0) Hin) as (s1 & s2 & Hbody).
    cbn [snd] in Hbody. unfold index in Hbody.
    destruct (schema_path c0 !! length (schema_path e)) as [i |] eqn:Hidx;
      [| discriminate].
    exists i. specialize (Hget i). cbn [from_option id dict_get app] in Hget.
    assert (Hkc : (k, c0) ∈ default [] (dict_get i d)).
    { rewrite Hget. apply list_elem_of_filter. split; [exact Hidx |].
      apply list_elem_of_In, Hin. }
    destruct (dict_get i d) as [b |] eqn:Hgi; [| inversion Hkc].
    exists b. split; [apply dict_get_Some_In, Hgi | apply list_elem_of_In, Hkc].
Qed.


Lemma rewriting_ext (e : ValidationError) cs done done' acc :
  (forall kc, In kc done' -> In kc done) ->
  rewriting e cs done acc -> rewriting e cs done' acc.
Proof.
  intros Hsub (cs_acc & Hacc & Hm & Hd). exists cs_acc.
  split; [exact Hacc |]. split; [exact Hm |].
  intros kc Hin. apply Hd, Hsub, Hin.
Qed.

Lemma rewriting_start (e : ValidationError) cs rest :
  info e = IErrors cs :: rest -> rewriting e cs [] e.
Proof.
  intros Hi. exists cs. split; [symmetry; eapply with_children_same, Hi |].
  split; [reflexivity | intros kc []].
Qed.

Lemma rewriting_step (e : ValidationError) cs rest done acc k c0 c1 :
  info e = IErrors cs :: rest ->
  cs !! k = Some c0 ->
  rewriting e cs done acc ->
  without_document_paths c1 = without_document_paths c0 ->
  child_base e c1 `prefix_of` document_path c1 ->
  paths_nested c1 ->
  rewriting e cs (done ++ [(k, c0)]) (set_child k c1 acc).
Proof.
  intros Hi Hk (cs_acc & -> & Hm & Hd) Hw Hp Hn.
  assert (Hlen : length cs_acc = length cs).
  { rewrite <- (length_map without_document_paths cs_acc), Hm. apply length_map. }
  assert (Hklt : (k < length cs_acc)%nat).
  { rewrite Hlen. eapply lookup_lt_Some, Hk. }
  exists (<[k := c1]> cs_acc).
  split; [eapply set_child_of_with_children, Hi |]. split.
  - change (without_document_paths <$> <[k:=c1]> cs_acc = without_document_paths <$> cs).
    rewrite list_fmap_insert, Hw.
    change (without_document_paths <$> cs_acc) with (map without_document_paths cs_acc).
    rewrite Hm. apply list_insert_id.
    change (map without_document_paths cs) with (without_document_paths <$> cs).
    rewrite list_lookup_fmap, Hk. reflexivity.
  - intros kc Hin. destruct (decide (fst kc = k)) as [-> | Hne].
    + exists c1. split; [apply list_lookup_insert_eq, Hklt | auto].
    + rewrite list_lookup_insert_ne by congruence.
      apply Hd. apply in_app_or in Hin as [Hin | [<- | []]]; [exact Hin |].
      contradiction Hne. reflexivity.
Qed.

Lemma rewriting_done (e : ValidationError) cs rest done acc :
  info e = IErrors cs :: rest ->
  rewriting e cs done acc ->
  (forall k c0, cs !! k = Some c0 -> exists c, In (k, c) done) ->
  document_path acc = document_path e /\
  without_document_paths acc = without_document_paths e /\
  paths_nested acc.
Proof.
  intros Hi (cs_acc & -> & Hm & Hd) Hcover.
  split; [apply document_path_with_children |].
  split; [eapply without_document_paths_with_children; eassumption |].
  constructor. intros _ cs' rest' Hi'.
  rewrite (info_with_children e cs cs_acc rest Hi) in Hi'.
  injection Hi' as <- <-.
  apply Forall_lookup. intros k x Hx.
  assert (Hlen : length cs_acc = length cs).
  { rewrite <- (length_map without_document_paths cs_acc), Hm. apply length_map. }
  destruct (lookup_lt_is_Some_2 cs k) as [c0 Hc0];
    [rewrite <- Hlen; eapply lookup_lt_Some, Hx |].
  destruct (Hcover k c0 Hc0) as (c & Hin).
  destruct (Hd (k, c) Hin) as (c1 & Hc1 & Hp & Hn).
  cbn [fst] in Hc1. assert (x = c1) by congruence. subst x.
  rewrite child_base_with_children. auto.
Qed.

Lemma paths_nested_plain (e : ValidationError) :
  is_group_error e = false -> paths_nested e.
Proof. intros Hg. constructor. intros Habs. congruence. Qed.

Lemma paths_nested_no_children (e : ValidationError) v rest :
  info e = IVal v :: rest -> paths_nested e.
Proof. intros Hi. constructor. intros _ cs rest' Hi'. congruence. Qed.

(** The rewriting pass: the document path of the error stays, nothing
    but document paths changes below it, and the child errors end up
    under their parents. *)
Lemma rewrite_spec depth :
  (forall (e e' : ValidationError) offset,
     _rewrite_error_path depth e offset = Ok e' ->
     document_path e' = document_path e /\
     without_document_paths e' = without_document_paths e /\
     paths_nested e') /\
  (forall (e e' : ValidationError) offset,
     is_logic_error e = false ->
     _rewrite_group_error_path depth e offset = Ok e' ->
     document_path e' = document_path e /\
     without_document_paths e' = without_document_paths e /\
     paths_nested e') /\
  (forall (e e' : ValidationError) offset,
     is_logic_error e = true ->
     _rewrite_logic_error_path depth e offset = Ok e' ->
     document_path e' = document_path e /\
     without_document_paths e' = without_document_paths e /\
     paths_nested e').
Proof.
  induction depth as [| depth (IH & IHg & IHl)].
  { repeat split; intros; discriminate. }
  split; [| split]; intros e e' offset;
    cbn [_rewrite_error_path _rewrite_group_error_path _rewrite_logic_error_path].
  - destruct (is_logic_error e) eqn:El; [apply IHl, El |].
    destruct (is_group_error e) eqn:Eg; [apply IHg, El |].
    intros [= <-]. split; [reflexivity |]. split; [reflexivity |].
    apply paths_nested_plain, Eg.
  - intros El.
    destruct (child_errors e) as [c |] eqn:Hc; simpl; [| discriminate].
    destruct (iterate c) as [cs |] eqn:Hcs; simpl; [| discriminate].
    destruct (child_errors_cases e c cs Hc Hcs) as [[rest Hi] | [-> [rest Hi]]].
    2:{ intros [= <-]. split; [reflexivity |]. split; [reflexivity |].
        eapply paths_nested_no_children, Hi. }
    intros Hrun.
    eapply (rewriting_done e cs rest (imap pair cs)); [exact Hi | |].
    + refine (for_each_invariant_done (rewriting e cs) _ _ _ [] e e' _ Hrun);
        [| eapply rewriting_start, Hi].
      intros done [k c0] acc acc' Hin Hacc. cbn [fst snd].
      apply (imap_pair_lookup cs (fun i => i)) in Hin as (j & -> & Hj).
      destruct (_rewrite_error_path depth _ offset) as [c1 |] eqn:Hr; simpl;
        [| discriminate].
      intros [= <-].
      destruct (IH _ _ _ Hr) as (Hdp & Hw & Hn).
      rewrite without_document_paths_set_document_path in Hw.
      cbn [attrs set_document_path document_path] in Hdp.
      assert (Hacc_dp : document_path acc = document_path e).
      { destruct Hacc as (cs_acc & -> & _). apply document_path_with_children. }
      eapply rewriting_step; try eassumption.
      unfold child_base. rewrite El, Hdp, Hacc_dp. apply prefix_app_r. reflexivity.
    + intros k c0 Hk. exists c0.
      apply (imap_pair_lookup cs (fun i => i)). eauto.
  - intros El.
    destruct (definitions_errors e) as [[buckets |] |] eqn:Hd; simpl; try discriminate.
    assert (Hcases :
      (exists cs rest, info e = IErrors cs :: rest) \/
      (buckets = [] /\ exists rest, info e = IVal (PStr "") :: rest)).
    { revert Hd. unfold definitions_errors. rewrite El. cbn [negb].
      destruct (child_errors e) as [c |] eqn:Hc; simpl; [| discriminate].
      destruct (iterate c) as [cs |] eqn:Hcs; simpl; [| discriminate].
      destruct (child_errors_cases e c cs Hc Hcs) as [[rest Hi] | [-> [rest Hi]]];
        [eauto |].
      cbn. intros [= <-]. eauto. }
    destruct Hcases as [(cs & rest & Hi) | (-> & rest & Hi)].
    2:{ intros [= <-]. split; [reflexivity |]. split; [reflexivity |].
        eapply paths_nested_no_children, Hi. }
    destruct (definitions_errors_positions e cs rest buckets Hi Hd) as [Hpos Hcover].
    intros Hrun.
    eapply (rewriting_done e cs rest (concat (map snd buckets))); [exact Hi | |].
    + refine (for_each_invariant_done
                (fun doneB acc => rewriting e cs (concat (map snd doneB)) acc)
                _ _ _ [] e e' _ Hrun);
        [| eapply rewriting_start, Hi].
      intros doneB [i b] acc acc' Hb Hacc. cbn [fst snd].
      destruct b as [| kc0 b0] eqn:Eb.
      { intros [= <-]. eapply rewriting_ext; [| exact Hacc].
        intros kc. rewrite map_app, concat_app. cbn. rewrite !app_nil_r. auto. }
      rewrite <- Eb in *. clear Eb kc0 b0. intros Hinner.
      eapply rewriting_ext;
        [| refine (for_each_invariant_done
                     (fun done acc =>
                        rewriting e cs (concat (map snd doneB) ++ done) acc)
                     _ _ _ [] acc acc' _ Hinner)].
      * intros kc. rewrite map_app, concat_app. cbn. rewrite !app_nil_r. auto.
      * intros done [k c0] acc1 acc1' Hin Hacc1. cbn [fst snd].
        destruct (Hpos i b (k, c0) Hb Hin) as [Hk Hidx]. cbn [fst snd] in Hk, Hidx.
        destruct (_rewrite_error_path depth _ (offset + 1)) as [c1 |] eqn:Hr; simpl;
          [| discriminate].
        intros [= <-].
        destruct (IH _ _ _ Hr) as (Hdp & Hw & Hn).
        pose proof (without_document_paths_schema_path _ _ Hw) as Hsp.
        rewrite without_document_paths_set_document_path in Hw.
        cbn [attrs set_document_path document_path schema_path] in Hdp, Hsp.
        assert (Hacc_dp : document_path acc = document_path e /\ rule acc = rule e).
        { destruct Hacc as (cs_acc & -> & _).
          split; [apply document_path_with_children | apply rule_with_children]. }
        destruct Hacc_dp as [Hadp Harule].
        eapply rewriting_ext;
          [| eapply (rewriting_step e cs rest _ acc1 k c0 c1); try eassumption].
        -- intros kc Hkc. rewrite app_assoc in Hkc. exact Hkc.
        -- unfold child_base. rewrite El, Hsp, Hidx, Hdp, Hadp, Harule.
           apply prefix_app_r. reflexivity.
      * eapply rewriting_ext; [| exact Hacc].
        intros kc. rewrite app_nil_r. auto.
    + intros k c0 Hk. destruct (Hcover k c0 Hk) as (i & b & Hib & Hkc).
      exists c0. apply in_concat. exists b. split; [| exact Hkc].
      apply in_map_iff. exists (i, b). auto.
Qed.

(** The rewriting pass leaves the document path of the error it is
    given, changes nothing but document paths in the errors below it,
    and puts every child error of a group error under the document path
    of its parent, those of a logic error under the segment of their
    definition. *)
Theorem rewrite_error_path_moves_children
    (depth : nat) (e e' : ValidationError) (offset : Z) :
  _rewrite_error_path depth e offset = Ok e' ->
  document_path e' = document_path e /\
  without_document_paths e' = without_document_paths e /\
  paths_nested e'.
Proof. apply rewrite_spec. Qed.

Lemma rewrite_error_path_moves_children_witness :
  exists e',
    _rewrite_error_path 10 nested_oneofs 0 = Ok e' /\
    document_path e' = document_path nested_oneofs /\
    without_document_paths e' = without_document_paths nested_oneofs /\
    paths_nested e'.
Proof.
  eexists. split; [reflexivity |].
  apply (rewrite_error_path_moves_children 10 nested_oneofs _ 0). reflexivity.
Defined.

Lemma every_formatted_code_impl (P Q : Z -> Prop) :
  (forall c, P c -> Q c) ->
  forall e, every_formatted_code P e -> every_formatted_code Q e.
Proof.
  intros HPQ. fix IH 2. intros e He.
  destruct He as [e Hc Hcs]. constructor.
  - destruct Hc as [Hc | Hc]; [left; exact Hc | right; apply HPQ, Hc].
  - intros cs rest Hi. specialize (Hcs cs rest Hi). clear Hi.
    induction Hcs as [| c cs' Hc' Hcs' IHcs]; constructor;
      [apply IH, Hc' | exact IHcs].
Qed.

(** [add] reads the catalog at the codes it formats only: with two
    catalogs that hold the same template for the code of every error
    below and including the one given, group errors that are not logic
    errors left aside, it does the same. *)
Theorem add_reads_formatted_codes
    (m1 m2 : dict Z template)
    (repr_errors : list ValidationError -> string)
    (tree : report) (e : ValidationError) :
  every_formatted_code (fun c => dict_get c m1 = dict_get c m2) e ->
  add m1 repr_errors tree e = add m2 repr_errors tree e.
Proof. apply add_agree. Qed.

Lemma add_reads_formatted_codes_witness :
  add messages (fun _ => ""%string) [] simple_group
  = add (dict_set 0x81 [Lit "no such text"] messages) (fun _ => ""%string) []
      simple_group.
Proof.
  apply (add_reads_formatted_codes messages
           (dict_set 0x81 [Lit "no such text"] messages)
           (fun _ => ""%string) [] simple_group).
  constructor; [left; split; reflexivity |].
  intros cs rest [= <- <-].
  constructor; [| constructor].
  constructor; [right; reflexivity |].
  intros cs rest H. discriminate H.
Defined.

(** [SchemaErrorHandler] differs from [BasicErrorHandler] in the text
    for the code 0x03: on an error without that code among the codes
    that are formatted, the two do the same. *)
Theorem schema_handler_differs_on_unknown_field
    (repr_errors : list ValidationError -> string)
    (tree : report) (e : ValidationError) :
  every_formatted_code (fun c => c <> 0x03) e ->
  add SchemaErrorHandler.messages repr_errors tree e
    = add messages repr_errors tree e /\
  dict_get 0x03 SchemaErrorHandler.messages = Some [Lit "unknown rule"] /\
  dict_get 0x03 messages = Some [Lit "unknown field"].
Proof.
  intros He. split; [| split; reflexivity].
  apply add_agree. revert He. apply every_formatted_code_impl.
  intros c Hc. unfold SchemaErrorHandler.messages.
  rewrite dict_get_set, decide_False by exact Hc. reflexivity.
Qed.

Lemma schema_handler_differs_on_unknown_field_witness :
  add SchemaErrorHandler.messages (fun _ => ""%string) [] simple_child
    = add messages (fun _ => ""%string) [] simple_child /\
  dict_get 0x03 SchemaErrorHandler.messages = Some [Lit "unknown rule"] /\
  dict_get 0x03 messages = Some [Lit "unknown field"].
Proof.
  apply (schema_handler_differs_on_unknown_field (fun _ => ""%string) []
           simple_child).
  constructor; [right; discriminate |].
  intros cs rest H. discriminate H.
Defined.

(** ** Where [add] puts its messages *)

Lemma changed_below_refl base tree :
  handler_form tree -> changed_below base tree tree.
Proof. intros Hf. split; [exact Hf | reflexivity]. Qed.

Lemma changed_below_trans base t1 t2 t3 :
  changed_below base t1 t2 -> changed_below base t2 t3 -> changed_below base t1 t3.
Proof.
  intros [_ H12] [Hf H23]. split; [exact Hf |].
  intros q Hq. rewrite H23, H12 by exact Hq. reflexivity.
Qed.

Lemma changed_below_weaken base base' t1 t2 :
  base `prefix_of` base' -> changed_below base' t1 t2 -> changed_below base t1 t2.
Proof.
  intros Hp [Hf H]. split; [exact Hf |].
  intros q Hq. apply H. intros Hq'. apply Hq. etransitivity; eassumption.
Qed.

Lemma for_errors_changed_below {A} base (body : report -> A -> outcome) l :
  (forall tree a, In a l -> handler_form tree ->
                  changed_below base tree (tree_of (body tree a))) ->
  forall tree, handler_form tree ->
    changed_below base tree (tree_of (for_errors body l tree)).
Proof.
  induction l as [| a l IH]; intros Hb tree Hf;
    [apply changed_below_refl, Hf |].
  cbn [for_errors].
  pose proof (Hb tree a (or_introl eq_refl) Hf) as Ha.
  destruct (body tree a) as [t | x t]; [| exact Ha].
  cbn [tree_of] in Ha. eapply changed_below_trans; [exact Ha |].
  apply IH; [| apply Ha]. intros t' a' Hin. apply Hb. right. exact Hin.
Qed.

Lemma child_base_prefix (e c : ValidationError) :
  document_path e `prefix_of` child_base e c.
Proof.
  unfold child_base. destruct (is_logic_error e); [| reflexivity].
  destruct (schema_path c !! length (schema_path e)); [| reflexivity].
  apply prefix_app_r. reflexivity.
Qed.

Lemma paths_nested_children (e : ValidationError) c cs :
  paths_nested e -> child_errors e = Ok c -> iterate c = Ok cs ->
  Forall (fun c : ValidationError =>
            child_base e c `prefix_of` document_path c /\ paths_nested c) cs.
Proof.
  intros Hn Hc Hcs.
  assert (Hg : is_group_error e = true).
  { unfold child_errors in Hc. destruct (is_group_error e); [reflexivity |].
    injection Hc as <-. discriminate Hcs. }
  destruct (child_errors_cases e c cs Hc Hcs) as [[rest Hi] | [-> _]];
    [| constructor].
  inversion Hn as [e0 H]; subst. eapply H; eassumption.
Qed.

Lemma paths_nested_buckets (e : ValidationError) buckets :
  paths_nested e -> definitions_errors e = Ok (Some buckets) ->
  forall i b kc, In (i, b) buckets -> In kc b ->
    (child_base e (snd kc) `prefix_of` document_path (snd kc) /\
     paths_nested (snd kc)) /\
    child_base e (snd kc)
      = document_path e
          ++ [SStr (str_of_rule (rule e) +:+ " definition " +:+ str_of_seg i)].
Proof.
  intros Hn Hd i b kc Hb Hkc.
  assert (Hl : is_logic_error e = true).
  { unfold definitions_errors in Hd. destruct (is_logic_error e); [reflexivity |].
    discriminate Hd. }
  pose proof Hd as Hd'. revert Hd'. unfold definitions_errors. rewrite Hl. cbn [negb].
  destruct (child_errors e) as [c |] eqn:Hc; simpl; [| discriminate].
  destruct (iterate c) as [cs |] eqn:Hcs; simpl; [| discriminate].
  intros Hbc.
  pose proof (paths_nested_children e c cs Hn Hc Hcs) as Hall.
  destruct (child_errors_cases e c cs Hc Hcs) as [[rest Hi] | [-> _]].
  - destruct (definitions_errors_positions e cs rest buckets Hi Hd) as [Hpos _].
    destruct (Hpos i b kc Hb Hkc) as [Hk Hidx].
    rewrite Forall_lookup in Hall. split; [eapply Hall, Hk |].
    unfold child_base. rewrite Hl, Hidx. reflexivity.
  - cbn in Hbc. injection Hbc as <-. destruct Hb.
Qed.

Section Locality.
Variable self_messages : dict Z template.
Variable repr_errors : list ValidationError -> string.

Lemma insert_message_changed_below tree path f (e : ValidationError) :
  handler_form tree ->
  changed_below path tree
    (tree_of (insert_message self_messages repr_errors tree path f e)).
Proof.
  intros Hf. unfold insert_message.
  destruct (_format_message self_messages repr_errors f e) as [m | x];
    [| apply changed_below_refl, Hf].
  destruct path as [| k rest]; [apply changed_below_refl, Hf |].
  destruct (insert_error_spec m (k :: rest) tree ltac:(discriminate) Hf)
    as (t & -> & Hft & _ & _ & Hfr).
  split; [exact Hft |]. intros q Hq. apply Hfr. intros ->. apply Hq. reflexivity.
Qed.

Lemma insert_child_changed_below
    (il ig : report -> ValidationError -> outcome) base tree f
    (c : ValidationError) :
  handler_form tree ->
  base `prefix_of` document_path c ->
  changed_below (document_path c) tree (tree_of (il tree c)) ->
  changed_below (document_path c) tree (tree_of (ig tree c)) ->
  changed_below base tree
    (tree_of (if is_logic_error c then il tree c
              else if is_group_error c then ig tree c
              else insert_message self_messages repr_errors tree
                     (document_path c) f c)).
Proof.
  intros Hf Hp Hl Hg. eapply changed_below_weaken; [exact Hp |].
  destruct (is_logic_error c); [exact Hl |].
  destruct (is_group_error c); [exact Hg |].
  apply insert_message_changed_below, Hf.
Qed.

(** The insertion pass on an error whose child errors are under their
    parents touches nothing outside the document path of the error. *)
Lemma insert_errors_changed_below depth :
  (forall tree (e : ValidationError),
     handler_form tree -> paths_nested e ->
     changed_below (document_path e) tree
       (tree_of (_insert_logic_error self_messages repr_errors depth tree e))) /\
  (forall tree (e : ValidationError),
     handler_form tree -> paths_nested e ->
     changed_below (document_path e) tree
       (tree_of (_insert_group_error self_messages repr_errors depth tree e))).
Proof.
  induction depth as [| depth [IHl IHg]];
    [split; intros tree e Hf _; apply changed_below_refl, Hf |].
  split; intros tree e Hf Hn.
  - cbn [_insert_logic_error].
    pose proof (insert_message_changed_below tree (document_path e) (field e) e Hf)
      as Hm.
    destruct (insert_message self_messages repr_errors tree (document_path e)
                (field e) e) as [t | x t]; [| exact Hm].
    cbn [tree_of] in Hm.
    destruct (definitions_errors e) as [[buckets |] |] eqn:Hd;
      [| exact Hm | exact Hm].
    eapply changed_below_trans; [exact Hm |].
    apply for_errors_changed_below; [| apply Hm].
    intros t1 [i b] Hb Ht1. cbn [snd].
    apply for_errors_changed_below; [| exact Ht1].
    intros t2 c Hin Ht2.
    apply in_map_iff in Hin as ([k c'] & Heq & Hin). simpl in Heq. subst c'.
    destruct (paths_nested_buckets e buckets Hn Hd i b (k, c) Hb Hin)
      as [[Hp Hnc] _].
    cbn [snd] in Hp, Hnc.
    apply insert_child_changed_below;
      [exact Ht2 | | apply IHl; assumption | apply IHg; assumption].
    etransitivity; [apply child_base_prefix | exact Hp].
  - cbn [_insert_group_error].
    destruct (child_errors e) as [c |] eqn:Hc; cbn [bind];
      [| apply changed_below_refl, Hf].
    destruct (iterate c) as [cs |] eqn:Hcs; [| apply changed_below_refl, Hf].
    pose proof (paths_nested_children e c cs Hn Hc Hcs) as Hall.
    rewrite Forall_forall in Hall.
    apply for_errors_changed_below; [| exact Hf].
    intros t2 c0 Hin Ht2.
    destruct (Hall c0 ltac:(apply list_elem_of_In, Hin)) as [Hp Hnc].
    apply insert_child_changed_below;
      [exact Ht2 | | apply IHl; assumption | apply IHg; assumption].
    etransitivity; [apply child_base_prefix | exact Hp].
Qed.

Lemma add_changed_below tree (e : ValidationError) :
  handler_form tree ->
  changed_below (document_path e) tree
    (tree_of (add self_messages repr_errors tree e)).
Proof.
  intros Hf. unfold add, deepcopy.
  destruct (_rewrite_error_path (depth_for e) e 0) as [e' | x] eqn:Hr;
    [| apply changed_below_refl, Hf].
  destruct (proj1 (rewrite_spec (depth_for e)) e e' 0 Hr) as (Hdp & _ & Hn).
  rewrite <- Hdp. unfold insert.
  destruct (is_logic_error e'); [apply insert_errors_changed_below; assumption |].
  destruct (is_group_error e'); [apply insert_errors_changed_below; assumption |].
  destruct (dict_has (code e') self_messages); [| apply changed_below_refl, Hf].
  apply insert_message_changed_below, Hf.
Qed.

End Locality.

(** [add] on a tree of the handler's shape changes messages only at
    paths that start with the document path of the error: the messages
    of every other path are as before, whatever the error is and
    whether [add] raises or not. *)
Theorem add_changes_only_below_the_error
    (self_messages : dict Z template)
    (repr_errors : list ValidationError -> string)
    (tree : report) (e : ValidationError) (q : DocumentPath) :
  handler_form tree ->
  ~ document_path e `prefix_of` q ->
  messages_at (tree_of (add self_messages repr_errors tree e)) q
    = messages_at tree q.
Proof.
  intros Hf Hq.
  apply (add_changed_below self_messages repr_errors tree e Hf). exact Hq.
Qed.

Lemma add_changes_only_below_the_error_witness :
  messages_at (tree_of (add messages (fun _ => ""%string) one_message_tree
                          anyof_error)) [SStr "a"]
    = messages_at one_message_tree [SStr "a"].
Proof.
  apply (add_changes_only_below_the_error messages (fun _ => ""%string)
           one_message_tree anyof_error [SStr "a"]).
  - apply (handler_form_set [] (SStr "a") ["required field"%string] []);
      [apply handler_form_nil | left; discriminate | apply handler_form_nil].
  - intros [k Hk]. discriminate Hk.
Defined.

Lemma for_errors_same_at {A} q (body : report -> A -> outcome) l :
  (forall tree a, In a l -> handler_form tree ->
     handler_form (tree_of (body tree a)) /\
     messages_at (tree_of (body tree a)) q = messages_at tree q) ->
  forall tree, handler_form tree ->
    handler_form (tree_of (for_errors body l tree)) /\
    messages_at (tree_of (for_errors body l tree)) q = messages_at tree q.
Proof.
  induction l as [| a l IH]; intros Hb tree Hf; [split; [exact Hf | reflexivity] |].
  cbn [for_errors].
  destruct (Hb tree a (or_introl eq_refl) Hf) as [Hfa Hma].
  destruct (body tree a) as [t | x t]; [| split; assumption].
  cbn [tree_of] in Hfa, Hma.
  destruct (IH (fun t' a' Hin => Hb t' a' (or_intror Hin)) t Hfa) as [Hf' Hm'].
  split; [exact Hf' | congruence].
Qed.

Lemma not_prefix_snoc {A} (l : list A) (x : A) (l' : list A) :
  (l ++ [x]) `prefix_of` l' -> ~ l' `prefix_of` l.
Proof.
  intros [k1 ->] [k2 Hk2].
  apply (f_equal length) in Hk2. rewrite !length_app in Hk2. simpl in Hk2. lia.
Qed.

Lemma without_document_paths_code (a b : ValidationError) :
  without_document_paths a = without_document_paths b -> code a = code b.
Proof. destruct a as [a], b as [b]. cbn. intros [= _ H _]. exact H. Qed.

Lemma insert_logic_error_S
    (self_messages : dict Z template)
    (repr_errors : list ValidationError -> string)
    depth tree (error : ValidationError) :
  _insert_logic_error self_messages repr_errors (S depth) tree error =
    match insert_message self_messages repr_errors tree (document_path error)
            (field error) error with
    | Failed x tree => Failed x tree
    | Done tree =>
        match definitions_errors error with
        | Raise x => Failed x tree
        | Ok None => Failed AttributeError tree
        | Ok (Some buckets) =>
            for_errors
              (fun tree definition_errors =>
                 for_errors
                   (fun tree (child_error : ValidationError) =>
                      if is_logic_error child_error
                      then _insert_logic_error self_messages repr_errors depth
                             tree child_error
                      else if is_group_error child_error
                      then _insert_group_error self_messages repr_errors depth
                             tree child_error
                      else insert_message self_messages repr_errors tree
                             (document_path child_error) (field error) child_error)
                   (map snd (snd definition_errors)) tree)
              buckets tree
        end
    end.
Proof. reflexivity. Qed.

(** [add] on a logic error with a document path, on a tree of the
    handler's shape: once the rewriting pass is through and the message
    of the error is formatted, that message is the one message [add]
    puts at the document path of the error, whatever happens to the
    child errors; their messages go below. *)
Theorem add_logic_error_summary
    (self_messages : dict Z template)
    (repr_errors : list ValidationError -> string)
    (tree : report) (e e' : ValidationError) (m : string) :
  handler_form tree ->
  is_logic_error e = true ->
  document_path e <> [] ->
  _rewrite_error_path (depth_for e) e 0 = Ok e' ->
  _format_message self_messages repr_errors (field e) e' = Ok m ->
  messages_at (tree_of (add self_messages repr_errors tree e)) (document_path e)
    = messages_at tree (document_path e) ++ [m].
Proof.
  intros Hf Hl Hp Hr Hm. unfold add, deepcopy. rewrite Hr.
  destruct (proj1 (rewrite_spec (depth_for e)) e e' 0 Hr) as (Hdp & Hw & Hn).
  assert (Hl' : is_logic_error e' = true).
  { unfold is_logic_error in *. rewrite (without_document_paths_code _ _ Hw).
    exact Hl. }
  unfold insert. rewrite Hl'. unfold depth_for.
  replace (2 * height e' + 2)%nat with (S (2 * height e' + 1)) by lia.
  rewrite insert_logic_error_S.
  assert (Hfield : field e' = field e) by (unfold field; rewrite Hdp; reflexivity).
  rewrite <- Hfield in Hm.
  unfold insert_message at 1. rewrite Hm, Hdp.
  destruct (insert_error_spec m (document_path e) tree Hp Hf)
    as (t1 & -> & Hf1 & _ & Hm1 & _).
  rewrite <- Hm1.
  destruct (definitions_errors e') as [[buckets |] |] eqn:Hd; try reflexivity.
  apply for_errors_same_at; [| exact Hf1].
  intros t2 [i b] Hb Ht2. cbn [snd].
  apply for_errors_same_at; [| exact Ht2].
  intros t3 c Hin Ht3.
  apply in_map_iff in Hin as ([k c'] & Heq & Hin). simpl in Heq. subst c'.
  destruct (paths_nested_buckets e' buckets Hn Hd i b (k, c) Hb Hin)
    as [[Hpc Hnc] Hbase].
  cbn [snd] in Hpc, Hnc, Hbase. rewrite Hbase, Hdp in Hpc.
  match goal with
  | |- handler_form (tree_of ?o) /\ _ =>
      assert (Hcb : changed_below (document_path c) t3 (tree_of o))
  end.
  { apply insert_child_changed_below;
      [exact Ht3 | reflexivity
      | apply insert_errors_changed_below; assumption
      | apply insert_errors_changed_below; assumption]. }
  destruct Hcb as [Hf3 Hm3]. split; [exact Hf3 |].
  apply Hm3. exact (not_prefix_snoc _ _ _ Hpc).
Qed.

Lemma add_logic_error_summary_witness :
  exists e',
    _rewrite_error_path (depth_for anyof_error) anyof_error 0 = Ok e' /\
    messages_at (tree_of (add messages (fun _ => ""%string) one_message_tree
                            anyof_error)) (document_path anyof_error)
      = messages_at one_message_tree (document_path anyof_error)
          ++ ["no definitions validate"%string].
Proof.
  eexists. split; [reflexivity |].
  eapply (add_logic_error_summary messages (fun _ => ""%string) one_message_tree
            anyof_error);
    try reflexivity; try discriminate.
  apply (handler_form_set [] (SStr "a") ["required field"%string] []);
    [apply handler_form_nil | left; discriminate | apply handler_form_nil].
Defined.

(** ** [extend] *)

Lemma for_errors_app {A} (body : report -> A -> outcome) l1 l2 tree :
  for_errors body (l1 ++ l2) tree =
    match for_errors body l1 tree with
    | Done t => for_errors body l2 t
    | Failed x t => Failed x t
    end.
Proof.
  revert tree. induction l1 as [| a l1 IH]; intros tree; [reflexivity |].
  cbn [app for_errors]. destruct (body tree a) as [t | x t]; [apply IH | reflexivity].
Qed.

(** [extend] adds the errors in order: with two lists one after the
    other it is [extend] with the first, then with the second; if an
    error of the first list raises, none of the second is added. *)
Theorem extend_in_order
    (self_messages : dict Z template)
    (repr_errors : list ValidationError -> string)
    (tree : report) (errors1 errors2 : list ValidationError) :
  extend self_messages repr_errors tree (errors1 ++ errors2) =
    match extend self_messages repr_errors tree errors1 with
    | Done t => extend self_messages repr_errors t errors2
    | Failed x t => Failed x t
    end.
Proof. apply for_errors_app. Qed.

(** ** The paths of the nodes of an error tree *)

Section NodePaths.
Variable compare_paths_lt : DocumentPath -> DocumentPath -> bool.
Variable list_sort :
  (ValidationError -> ValidationError -> bool) ->
  list ValidationError -> list ValidationError.
Variable self_tree_type : tree_type.

Local Abbreviation path_of := (ErrorTreeNode._path_of_ self_tree_type).
Local Abbreviation node_add :=
  (ErrorTreeNode.add compare_paths_lt list_sort self_tree_type).
Local Abbreviation tree_add :=
  (ErrorTree.add compare_paths_lt list_sort self_tree_type).

Lemma node_at_path p self : node_at p self -> ErrorTreeNode.path self = p.
Proof. intros H. inversion H; subst. reflexivity. Qed.

Lemma node_at_setitem p self key node :
  node_at p self -> node_at (p ++ [key]) node ->
  node_at p (ErrorTreeNode.__setitem__ self key node).
Proof.
  intros Hs Hn. inversion Hs as [p0 es ds Hds]; subst.
  unfold ErrorTreeNode.__setitem__. simpl. constructor.
  apply Forall_forall. intros [k c] Hin. apply list_elem_of_In in Hin.
  apply dict_set_In in Hin as [[-> ->] | Hin]; [exact Hn |].
  rewrite Forall_forall in Hds. apply (Hds (k, c)), list_elem_of_In, Hin.
Qed.

Lemma node_at_getitem p self key node :
  node_at p self -> ErrorTreeNode.__getitem__ self key = Some node ->
  node_at (p ++ [key]) node.
Proof.
  intros Hs Hg. inversion Hs as [p0 es ds Hds]; subst.
  unfold ErrorTreeNode.__getitem__ in Hg. simpl in Hg.
  apply dict_get_Some_In in Hg.
  rewrite Forall_forall in Hds. apply (Hds (key, node)), list_elem_of_In, Hg.
Qed.

Lemma node_at_append_sorted p node error :
  node_at p node ->
  node_at p (ErrorTreeNode.append_sorted compare_paths_lt list_sort node error).
Proof.
  intros Hn. inversion Hn; subst. constructor. assumption.
Qed.

Lemma node_at_fetch q :
  forall p self node,
    node_at p self -> ErrorTree.fetch_node_from self q = Some node ->
    node_at (p ++ q) node.
Proof.
  induction q as [| k q IH]; intros p self node Hs; simpl.
  - intros [= <-]. rewrite app_nil_r. exact Hs.
  - destruct (ErrorTreeNode.__getitem__ self k) as [c |] eqn:Hg; [| discriminate].
    intros Hf. replace (p ++ k :: q) with ((p ++ [k]) ++ q)
      by (rewrite <- app_assoc; reflexivity).
    eapply IH; [eapply node_at_getitem; eassumption | exact Hf].
Qed.

Lemma node_add_keeps_paths limit :
  forall p self error self',
    node_at p self -> p `prefix_of` path_of error ->
    node_add limit self error = Ok self' ->
    node_at p self'.
Proof.
  induction limit as [| limit IH]; intros p self error self' Hs Hp; [discriminate |].
  cbn [ErrorTreeNode.add].
  assert (Hdepth : ErrorTreeNode.depth self = length p).
  { unfold ErrorTreeNode.depth. rewrite (node_at_path p self Hs). reflexivity. }
  rewrite Hdepth. unfold index.
  destruct (path_of error !! length p) as [key |] eqn:Hkey; [| discriminate].
  cbn [bind].
  assert (Hp' : (p ++ [key]) `prefix_of` path_of error).
  { destruct Hp as [k Hk]. rewrite Hk in Hkey |- *.
    rewrite lookup_app_r, Nat.sub_diag in Hkey by lia.
    destruct k as [| k0 k]; [discriminate |]. injection Hkey as ->.
    exists k. rewrite <- app_assoc. reflexivity. }
  assert (Htake : take (length p + 1) (path_of error) = p ++ [key]).
  { destruct Hp' as [k ->]. rewrite take_app_length'; [reflexivity |].
    rewrite length_app. simpl. reflexivity. }
  set (self1 := if dict_has key (ErrorTreeNode.descendants self) then self
                else ErrorTreeNode.__setitem__ self key
                       (ErrorTreeNode.__init__ (path_of error) self)).
  assert (Hs1 : node_at p self1).
  { unfold self1. destruct (dict_has key _); [exact Hs |].
    apply node_at_setitem; [exact Hs |].
    unfold ErrorTreeNode.__init__. rewrite Hdepth, Htake.
    constructor. constructor. }
  assert (Hd1 : ErrorTreeNode.depth self1 = length p).
  { unfold ErrorTreeNode.depth. rewrite (node_at_path p self1 Hs1). reflexivity. }
  destruct (ErrorTreeNode.__getitem__ self1 key) as [node |] eqn:Hnode;
    [| discriminate].
  pose proof (node_at_getitem p self1 key node Hs1 Hnode) as Hn.
  rewrite Hd1. case_bool_decide.
  - intros [= <-]. apply node_at_setitem; [exact Hs1 |].
    apply node_at_append_sorted, Hn.
  - destruct (node_add limit node error) as [node' |] eqn:Hadd; cbn [bind];
      [| discriminate].
    intros [= <-]. apply node_at_setitem; [exact Hs1 |].
    eapply IH; eassumption.
Qed.

Lemma tree_add_keeps_paths limit :
  forall root error root',
    node_at [] root -> tree_add limit root error = Ok root' -> node_at [] root'.
Proof.
  induction limit as [| limit IH]; intros root error root' Hr; [discriminate |].
  cbn [ErrorTree.add].
  destruct (path_of error) as [| k p'] eqn:Hp.
  - intros [= <-]. apply node_at_append_sorted, Hr.
  - destruct (node_add limit root error) as [root1 |] eqn:H1; cbn [bind];
      [| discriminate].
    assert (Hr1 : node_at [] root1).
    { eapply node_add_keeps_paths; [exact Hr | apply prefix_nil | exact H1]. }
    destruct (is_group_error error); [| intros [= <-]; exact Hr1].
    destruct (child_errors error) as [c |]; cbn [bind]; [| discriminate].
    destruct (iterate c) as [cs |]; cbn [bind]; [| discriminate].
    apply for_each_invariant; [| exact Hr1].
    intros r c0 r' _ Hr0 Hadd. eapply IH; eassumption.
Qed.

End NodePaths.

(** In a tree that [ErrorTree(errors)] has built, a node holds in
    [path] the path it is fetched by, and its [depth] is the length of
    that path. *)
Theorem init_nodes_hold_their_paths
    (compare_paths_lt : DocumentPath -> DocumentPath -> bool)
    (list_sort : (ValidationError -> ValidationError -> bool) ->
                 list ValidationError -> list ValidationError)
    (self_tree_type : tree_type)
    (limit : nat) (errors : list ValidationError)
    (root node : ErrorTreeNode.t) (q : DocumentPath) :
  ErrorTree.__init__ compare_paths_lt list_sort self_tree_type limit errors
    = Ok root ->
  ErrorTree.fetch_node_from root q = Some node ->
  ErrorTreeNode.path node = q /\ ErrorTreeNode.depth node = length q.
Proof.
  unfold ErrorTree.__init__. intros Hinit Hfetch.
  assert (Hroot : node_at [] root).
  { revert Hinit. apply for_each_invariant; [| constructor; constructor].
    intros r e r' _ Hr Hadd. eapply tree_add_keeps_paths; eassumption. }
  pose proof (node_at_fetch q [] root node Hroot Hfetch) as Hn.
  apply node_at_path in Hn. unfold ErrorTreeNode.depth. rewrite Hn. auto.
Qed.

Lemma init_nodes_hold_their_paths_witness :
  exists root node,
    ErrorTree.__init__ example_compare_paths_lt example_list_sort document 5
      [simple_group; unknown_field_error] = Ok root /\
    ErrorTree.fetch_node_from root [SStr "a"; SStr "b"] = Some node /\
    ErrorTreeNode.path node = [SStr "a"; SStr "b"] /\
    ErrorTreeNode.depth node = length [SStr "a"; SStr "b"].
Proof.
  eexists. eexists. split; [vm_compute; reflexivity |].
  split; [reflexivity |].
  eapply (init_nodes_hold_their_paths example_compare_paths_lt example_list_sort
            document 5 [simple_group; unknown_field_error]);
    [vm_compute; reflexivity | reflexivity].
Defined.

(** ** Group errors with plain children *)

Lemma map_result_Ok {A B} (f : A -> result B) (g : A -> B) (l : list A) :
  (forall a, In a l -> f a = Ok (g a)) -> map_result f l = Ok (map g l).
Proof.
  induction l as [| a l IH]; intros H; [reflexivity |].
  cbn [map_result map]. rewrite (H a) by (left; reflexivity). cbn [bind].
  rewrite IH by (intros a' Hin; apply H; right; exact Hin). reflexivity.
Qed.

Section GroupOfPlain.
Variable self_messages : dict Z template.
Variable repr_errors : list ValidationError -> string.

Lemma insert_plain_children (g : ValidationError) (l : list (ValidationError * string)) :
  Forall (fun cm : ValidationError * string =>
            is_logic_error (fst cm) = false /\ is_group_error (fst cm) = false /\
            group_child_path g (fst cm) <> [] /\
            _format_message self_messages repr_errors
              (last (group_child_path g (fst cm))) (fst cm) = Ok (snd cm)) l ->
  forall depth tree, handler_form tree ->
    exists tree',
      for_errors
        (fun tree (child_error : ValidationError) =>
           if is_logic_error child_error
           then _insert_logic_error self_messages repr_errors depth tree child_error
           else if is_group_error child_error
           then _insert_group_error self_messages repr_errors depth tree child_error
           else insert_message self_messages repr_errors tree
                  (document_path child_error) (field child_error) child_error)
        (map (fun c : ValidationError =>
                Error (set_document_path c (group_child_path g c)))
           (map fst l)) tree
      = Done tree' /\
      handler_form tree' /\
      forall q, messages_at tree' q = messages_at tree q ++ group_messages_for g q l.
Proof.
  induction 1 as [| [c m] l (Hl & Hg & Hp & Hm) Hall IH]; intros depth tree Hf.
  - exists tree. split; [reflexivity |]. split; [exact Hf |].
    intros q. unfold group_messages_for. simpl. rewrite app_nil_r. reflexivity.
  - cbn [fst snd] in *. cbn [map for_errors fst].
    change (is_logic_error (Error (set_document_path c (group_child_path g c))))
      with (is_logic_error c).
    change (is_group_error (Error (set_document_path c (group_child_path g c))))
      with (is_group_error c).
    rewrite Hl, Hg.
    change (document_path (Error (set_document_path c (group_child_path g c))))
      with (group_child_path g c).
    assert (Hfield : field (Error (set_document_path c (group_child_path g c)))
                     = last (group_child_path g c)).
    { unfold field. cbn [attrs set_document_path document_path].
      destruct (group_child_path g c); [congruence | reflexivity]. }
    rewrite Hfield. unfold insert_message.
    rewrite format_message_set_document_path, Hm.
    destruct (insert_error_spec m (group_child_path g c) tree Hp Hf)
      as (t1 & -> & Hf1 & _ & Hm1 & Hfr1).
    destruct (IH depth t1 Hf1) as (t2 & Hrun & Hf2 & Hm2).
    exists t2. split; [exact Hrun |]. split; [exact Hf2 |].
    intros q. rewrite Hm2. unfold group_messages_for.
    rewrite filter_cons. cbn [fst].
    destruct (decide (group_child_path g c = q)) as [<- | Hq].
    + rewrite Hm1, <- app_assoc. reflexivity.
    + rewrite Hfr1 by congruence. reflexivity.
Qed.

Lemma add_group_of_plain_spec tree (g : ValidationError)
    (l : list (ValidationError * string)) rest :
  handler_form tree ->
  is_group_error g = true -> is_logic_error g = false ->
  info g = IErrors (map fst l) :: rest ->
  Forall (fun cm : ValidationError * string =>
            is_logic_error (fst cm) = false /\ is_group_error (fst cm) = false /\
            group_child_path g (fst cm) <> [] /\
            _format_message self_messages repr_errors
              (last (group_child_path g (fst cm))) (fst cm) = Ok (snd cm)) l ->
  exists tree',
    add self_messages repr_errors tree g = Done tree' /\
    handler_form tree' /\
    forall q, messages_at tree' q = messages_at tree q ++ group_messages_for g q l.
Proof.
  intros Hf Hg Hl Hi Hall. unfold add, deepcopy, depth_for.
  assert (Hh : exists h, height g = S h).
  { destruct g as [a]. cbn [attrs] in Hi. cbn [height]. rewrite Hi. eauto. }
  destruct Hh as [h Hh]. rewrite Hh.
  replace (2 * S h + 2)%nat with (S (S (S (S (2 * h))))) by lia.
  cbn [_rewrite_error_path]. rewrite Hl, Hg.
  cbn [_rewrite_group_error_path].
  unfold child_errors at 1. rewrite Hg, Hi. cbn [index lookup list_lookup bind iterate].
  change (imap pair (map fst l))
    with (imap (fun i => pair (length (@nil ValidationError) + i)%nat) (map fst l)).
  rewrite (rewrite_group_loop
             (fun dp (c : ValidationError) =>
                _rewrite_error_path (S (S (2 * h)))
                  (Error (set_document_path c
                            (dp ++ slice_from (Z.of_nat (length (document_path g)) - 0)
                                     (document_path c)))) 0)
             (map fst l) g [] rest Hi).
  cbn [app].
  rewrite (map_result_Ok _
             (fun c : ValidationError =>
                Error (set_document_path c (group_child_path g c)))).
  2:{ intros c Hin. rewrite slice_from_start.
      apply in_map_iff in Hin as ([c' m] & <- & Hin).
      rewrite Forall_forall in Hall.
      destruct (Hall (c', m) ltac:(apply list_elem_of_In, Hin)) as (Hcl & Hcg & _).
      cbn [fst] in *. apply rewrite_plain; assumption. }
  cbn [bind].
  set (children' := map (fun c : ValidationError =>
                           Error (set_document_path c (group_child_path g c)))
                      (map fst l)).
  assert (Hc : code (with_children g children') = code g).
  { unfold with_children. rewrite Hi. reflexivity. }
  assert (Hl' : is_logic_error (with_children g children') = false).
  { unfold is_logic_error. rewrite Hc. exact Hl. }
  assert (Hg' : is_group_error (with_children g children') = true).
  { unfold is_group_error. rewrite Hc. exact Hg. }
  unfold insert. rewrite Hl', Hg'.
  pose proof (info_with_children g (map fst l) children' rest Hi) as Hi'.
  replace (2 * height (with_children g children') + 2)%nat
    with (S (2 * height (with_children g children') + 1)) by lia.
  cbn [_insert_group_error].
  unfold child_errors at 1. rewrite Hg', Hi'.
  cbn [index lookup list_lookup bind iterate].
  apply insert_plain_children; assumption.
Qed.

End GroupOfPlain.

(** [add] on a group error that is not a logic error and whose child
    errors are plain errors whose messages can be formatted, on a tree
    of the handler's shape: it returns, and the tree then holds, at
    every path, the messages it held followed by those of the children
    that the rewriting pass puts at that path, in the order of the
    children.  A child is formatted with the last segment of its new
    path as the field. *)
Theorem add_group_of_plain_errors
    (self_messages : dict Z template)
    (repr_errors : list ValidationError -> string)
    (tree : report) (g : ValidationError)
    (l : list (ValidationError * string))
    (rest : list (info_item ValidationError)) :
  handler_form tree ->
  is_group_error g = true -> is_logic_error g = false ->
  info g = IErrors (map fst l) :: rest ->
  Forall (fun cm : ValidationError * string =>
            is_logic_error (fst cm) = false /\ is_group_error (fst cm) = false /\
            group_child_path g (fst cm) <> [] /\
            _format_message self_messages repr_errors
              (last (group_child_path g (fst cm))) (fst cm) = Ok (snd cm)) l ->
  exists tree',
    add self_messages repr_errors tree g = Done tree' /\
    forall q, messages_at tree' q = messages_at tree q ++ group_messages_for g q l.
Proof.
  intros Hf Hg Hl Hi Hall.
  destruct (add_group_of_plain_spec self_messages repr_errors tree g l rest
              Hf Hg Hl Hi Hall) as (t & Ht & _ & Hm).
  exists t. auto.
Qed.

Lemma add_group_of_plain_errors_witness :
  exists tree',
    add messages (fun _ => ""%string) one_message_tree simple_group = Done tree' /\
    forall q,
      messages_at tree' q
      = messages_at one_message_tree q
          ++ group_messages_for simple_group q
               [(simple_child, "must be of integer type"%string)].
Proof.
  apply (add_group_of_plain_errors messages (fun _ => ""%string) one_message_tree
           simple_group [(simple_child, "must be of integer type"%string)] []).
  - apply (handler_form_set [] (SStr "a") ["required field"%string] []);
      [apply handler_form_nil | left; discriminate | apply handler_form_nil].
  - reflexivity.
  - reflexivity.
  - reflexivity.
  - repeat constructor; discriminate.
Defined.

(** ** Errors that [add] takes without raising *)



Section Addable.
Variable self_messages : dict Z template.
Variable repr_errors : list ValidationError -> string.










End Addable.

Section AddableInsert.
Variable self_messages : dict Z template.
Variable repr_errors : list ValidationError -> string.







End AddableInsert.


(** ** The recursion depth of [add] *)

Lemma leb_list_max (l : list nat) (n : nat) :
  (list_max l <=? n)%nat = forallb (fun k => (k <=? n)%nat) l.
Proof.
  induction l as [| a l IH]; [reflexivity |].
  change (list_max (a :: l)) with (Nat.max a (list_max l)).
  cbn [forallb]. rewrite <- IH.
  destruct (Nat.leb_spec a n), (Nat.leb_spec (list_max l) n),
    (Nat.leb_spec (Nat.max a (list_max l)) n); simpl; try reflexivity; lia.
Qed.

Lemma map_result_all {A} (f : A -> result A) (P : A -> bool) (x : exn) (l : list A) :
  (forall a, In a l -> f a = if P a then Ok a else Raise x) ->
  map_result f l = if forallb P l then Ok l else Raise x.
Proof.
  induction l as [| a l IH]; intros H; [reflexivity |].
  cbn [map_result forallb]. rewrite (H a) by (left; reflexivity).
  destruct (P a); cbn [bind andb]; [| reflexivity].
  rewrite IH by (intros a' Hin; apply H; right; exact Hin).
  destruct (forallb P l); reflexivity.
Qed.

Lemma forallb_map_leb {A} (g : A -> nat) (n : nat) (l : list A) :
  forallb (fun k => (k <=? n)%nat) (map g l) = forallb (fun a => (g a <=? n)%nat) l.
Proof. induction l as [| a l IH]; [reflexivity |]. simpl. rewrite IH. reflexivity. Qed.

(** The copy is made when the depth is more than the nesting of the
    error, and [RecursionError] is raised when it is not. *)
Lemma deepcopy_nested_spec levels :
  forall e : ValidationError,
    deepcopy_nested levels e
    = if (nesting e <? levels)%nat then Ok e else Raise RecursionError.
Proof.
  induction levels as [| d IH]; intros [a]; [reflexivity |].
  cbn [deepcopy_nested].
  assert (Hes : forall es : list ValidationError,
             map_result (deepcopy_nested d) es
             = if forallb (fun c : ValidationError => (S (nesting c) <=? d)%nat) es
               then Ok es else Raise RecursionError).
  { intros es. apply map_result_all. intros c _. apply IH. }
  set (fits_item := fun item : info_item ValidationError =>
                match item with
                | IVal _ => true
                | IErrors errors =>
                    forallb (fun c : ValidationError => (S (nesting c) <=? d)%nat) errors
                end).
  rewrite (map_result_all _ fits_item RecursionError).
  2:{ intros [v | es] _; cbn [fits_item]; [reflexivity |].
      rewrite Hes. destruct (forallb _ es); reflexivity. }
  change (nesting (Error a) <? S d)%nat with (nesting (Error a) <=? d)%nat.
  cbn [nesting]. rewrite leb_list_max, forallb_map_leb.
  assert (Heq : forallb fits_item (info (Error a))
                = forallb (fun item : info_item ValidationError =>
                     (match item with
                      | IVal _ => 0%nat
                      | IErrors errors =>
                          list_max (map (fun c : ValidationError => S (nesting c)) errors)
                      end <=? d)%nat) (info a)).
  { cbn [attrs]. induction (info a) as [| [v | es] l IHl]; [reflexivity | |];
      cbn [forallb fits_item]; rewrite IHl; [reflexivity |].
    rewrite leb_list_max, forallb_map_leb. reflexivity. }
  rewrite Heq.
  destruct (forallb _ (info a)); cbn [bind]; [| reflexivity].
  destruct a; reflexivity.
Qed.

Lemma deepcopy_within_spec copy_frames depth (e : ValidationError) :
  deepcopy_within copy_frames depth e
  = if (nesting e <? depth / copy_frames)%nat then Ok e else Raise RecursionError.
Proof. apply deepcopy_nested_spec. Qed.





Section WithinDepth.
Variable self_messages : dict Z template.
Variable repr_errors : list ValidationError -> string.
Variable copy_frames : nat.



End WithinDepth.

(** ** A group error is its children, one after the other *)


Section GroupChildren.
Variable self_messages : dict Z template.
Variable repr_errors : list ValidationError -> string.




End GroupChildren.

(** ** The handler only adds messages *)




Section OnlyAdds.
Variable self_messages : dict Z template.
Variable repr_errors : list ValidationError -> string.





End OnlyAdds.

Section ExtendAddable.
Variable self_messages : dict Z template.
Variable repr_errors : list ValidationError -> string.



End ExtendAddable.

(** ** Messages and the addresses of errors *)

Lemma prints_values_set_document_path m (c : ValidationError) dp :
  prints_values m c -> prints_values m (Error (set_document_path c dp)).
Proof. intros H. exact H. Qed.

Lemma prints_errors_set_child k (c' acc : ValidationError) f :
  prints_errors (info (set_child k c' acc)) f = prints_errors (info acc) f.
Proof.
  unfold set_child. destruct (info acc) as [| [v | cs] rest] eqn:Hi;
    rewrite ?Hi; try reflexivity.
  cbn [attrs mkValidationError info]. destruct f as [s | [| n] | | |]; reflexivity.
Qed.

Lemma prints_no_errors_set_document_path m (c : ValidationError) dp :
  prints_no_errors m c -> prints_no_errors m (Error (set_document_path c dp)).
Proof. intros H. inversion H as [e0 Hc Hcs]; subst. constructor; assumption. Qed.

Lemma prints_no_errors_set_child m k (c' acc : ValidationError) :
  prints_no_errors m acc -> prints_no_errors m c' ->
  prints_no_errors m (set_child k c' acc).
Proof.
  intros Hacc Hc'.
  inversion Hacc as [e0 Hc Hcs]; subst.
  constructor.
  - destruct Hc as [Hc | Hc]; [left | right].
    + unfold set_child. destruct (info acc) as [| [v | cs] rest]; exact Hc.
    + intros t Ht.
      assert (Hcode : code (set_child k c' acc) = code acc).
      { unfold set_child. destruct (info acc) as [| [v | cs] rest]; reflexivity. }
      rewrite Hcode in Ht. specialize (Hc t Ht).
      eapply Forall_impl; [exact Hc |]. intros f Hf.
      rewrite prints_errors_set_child. exact Hf.
  - unfold set_child. destruct (info acc) as [| [v | cs] rest] eqn:Hi;
      try (rewrite Hi; exact Hcs).
    cbn [attrs mkValidationError info]. intros cs' rest' [= <- <-].
    apply Forall_insert; [eapply Hcs; reflexivity | exact Hc'].
Qed.

Lemma prints_no_errors_children m (e : ValidationError) c cs :
  prints_no_errors m e ->
  child_errors e = Ok c -> iterate c = Ok cs ->
  Forall (prints_no_errors m) cs.
Proof.
  intros He. unfold child_errors, index.
  destruct (is_group_error e); [| intros [= <-]; discriminate].
  destruct (info e) as [| item rest] eqn:Hi; simpl; [discriminate |].
  intros [= <-]. destruct item as [[| [|] |] | ls]; simpl; try discriminate;
    intros [= <-]; [constructor |].
  inversion He as [e0 _ Hcs]; subst. eapply Hcs, Hi.
Qed.

Lemma prints_no_errors_buckets m (e : ValidationError) buckets :
  prints_no_errors m e ->
  definitions_errors e = Ok (Some buckets) ->
  forall i b kc, In (i, b) buckets -> In kc b -> prints_no_errors m (snd kc).
Proof.
  intros He. unfold definitions_errors.
  destruct (negb (is_logic_error e)); [discriminate |].
  destruct (child_errors e) as [c |] eqn:Hc; simpl; [| discriminate].
  destruct (iterate c) as [cs |] eqn:Hcs; simpl; [| discriminate].
  destruct (bucket_children (schema_path e) (imap pair cs)) as [d |] eqn:Hd;
    simpl; [| discriminate].
  intros [= <-] i b [k c'] Hb Hkc. simpl.
  pose proof (prints_no_errors_children m e c cs He Hc Hcs) as Hall.
  rewrite Forall_forall in Hall. apply Hall, list_elem_of_In.
  eapply (imap_pair_In cs (fun i => i) k).
  eapply bucket_children_In; eauto.
Qed.

(** The rewriting pass keeps the property. *)
Lemma rewrite_prints_no_errors m depth :
  (forall (e e' : ValidationError) offset,
     prints_no_errors m e ->
     _rewrite_error_path depth e offset = Ok e' -> prints_no_errors m e') /\
  (forall (e e' : ValidationError) offset,
     prints_no_errors m e ->
     _rewrite_group_error_path depth e offset = Ok e' -> prints_no_errors m e') /\
  (forall (e e' : ValidationError) offset,
     prints_no_errors m e ->
     _rewrite_logic_error_path depth e offset = Ok e' -> prints_no_errors m e').
Proof.
  induction depth as [| depth (IH & IHg & IHl)].
  { repeat split; intros; discriminate. }
  split; [| split]; intros e e' offset He;
    cbn [_rewrite_error_path _rewrite_group_error_path _rewrite_logic_error_path].
  - destruct (is_logic_error e); [apply IHl, He |].
    destruct (is_group_error e); [apply IHg, He |].
    intros [= <-]. exact He.
  - destruct (child_errors e) as [c |] eqn:Hc; simpl; [| discriminate].
    destruct (iterate c) as [cs |] eqn:Hcs; simpl; [| discriminate].
    pose proof (prints_no_errors_children m e c cs He Hc Hcs) as Hall.
    rewrite Forall_forall in Hall.
    apply for_each_invariant; [| exact He].
    intros acc [k c0] acc' Hin Hacc. cbn [fst snd].
    apply imap_pair_In with (f := fun i => i) in Hin.
    destruct (_rewrite_error_path depth _ offset) as [c1 |] eqn:Hr; simpl;
      [| discriminate].
    intros [= <-]. apply prints_no_errors_set_child; [exact Hacc |].
    eapply IH; [| exact Hr].
    apply prints_no_errors_set_document_path, Hall, list_elem_of_In, Hin.
  - destruct (definitions_errors e) as [[buckets |] |] eqn:Hd; simpl; try discriminate.
    apply for_each_invariant; [| exact He].
    intros acc [i b] acc' Hb Hacc. cbn [fst snd].
    destruct b as [| kc0 b0] eqn:Eb; [intros [= <-]; exact Hacc |].
    rewrite <- Eb in *. clear Eb.
    apply for_each_invariant; [| exact Hacc].
    intros acc1 [k c0] acc1' Hin Hacc1. cbn [fst snd].
    destruct (_rewrite_error_path depth _ (offset + 1)) as [c1 |] eqn:Hr; simpl;
      [| discriminate].
    intros [= <-]. apply prints_no_errors_set_child; [exact Hacc1 |].
    eapply IH; [| exact Hr].
    apply prints_no_errors_set_document_path.
    exact (prints_no_errors_buckets m e buckets He Hd i b (k, c0) Hb Hin).
Qed.

Section TwoRuns.
Variable self_messages : dict Z template.
(** The text of a list of errors in a first and in a second run. *)
Variables repr1 repr2 : list ValidationError -> string.
Variable copy_frames : nat.

Lemma format_two_runs t (i : list (info_item ValidationError)) k f v :
  Forall (fun fr => prints_errors i fr = false) t ->
  format repr1 t i k f v = format repr2 t i k f v.
Proof.
  unfold format. generalize (""%string) as acc.
  induction t as [| fr t IH]; intros acc Hall; [reflexivity |].
  apply Forall_cons in Hall as [Hfr Hall]. cbn [for_each].
  assert (Heq : format_fragment repr1 i k f v fr = format_fragment repr2 i k f v fr).
  { destruct fr as [s | n | | |]; try reflexivity.
    cbn [format_fragment prints_errors] in *.
    destruct (i !! n) as [[v0 | es] |]; [reflexivity | discriminate | reflexivity]. }
  rewrite Heq.
  destruct (format_fragment repr2 i k f v fr); cbn [bind]; [| reflexivity].
  apply IH, Hall.
Qed.

Lemma insert_message_two_runs tree path f (e : ValidationError) :
  prints_values self_messages e ->
  insert_message self_messages repr1 tree path f e
  = insert_message self_messages repr2 tree path f e.
Proof.
  intros Hv. unfold insert_message, _format_message.
  destruct (dict_get (code e) self_messages) as [t |] eqn:Ht; [| reflexivity].
  rewrite (format_two_runs t _ _ _ _ (Hv t Ht)). reflexivity.
Qed.

Lemma insert_child_two_runs
    (il1 il2 ig1 ig2 : report -> ValidationError -> outcome)
    tree f (c : ValidationError) :
  prints_no_errors self_messages c ->
  (is_logic_error c = true -> il1 tree c = il2 tree c) ->
  (ig1 tree c = ig2 tree c) ->
  (if is_logic_error c then il1 tree c
   else if is_group_error c then ig1 tree c
   else insert_message self_messages repr1 tree (document_path c) f c)
  = (if is_logic_error c then il2 tree c
     else if is_group_error c then ig2 tree c
     else insert_message self_messages repr2 tree (document_path c) f c).
Proof.
  intros Hc Hl Hg.
  destruct (is_logic_error c) eqn:El; [apply Hl; reflexivity |].
  destruct (is_group_error c) eqn:Eg; [apply Hg |].
  apply insert_message_two_runs.
  inversion Hc as [e0 [[_ Habs] | Hp] _]; subst; [congruence | exact Hp].
Qed.

Lemma insert_errors_two_runs depth :
  (forall tree (e : ValidationError),
     prints_no_errors self_messages e -> is_logic_error e = true ->
     _insert_logic_error self_messages repr1 depth tree e
     = _insert_logic_error self_messages repr2 depth tree e) /\
  (forall tree (e : ValidationError),
     prints_no_errors self_messages e ->
     _insert_group_error self_messages repr1 depth tree e
     = _insert_group_error self_messages repr2 depth tree e).
Proof.
  induction depth as [| depth (IHl & IHg)]; [split; reflexivity |].
  split; [intros tree e He Hlogic | intros tree e He];
    cbn [_insert_logic_error _insert_group_error].
  - assert (Ha : prints_values self_messages e).
    { inversion He as [e0 [[Hl _] | Hp] _]; subst; [congruence | exact Hp]. }
    rewrite (insert_message_two_runs tree _ _ e Ha).
    destruct (insert_message self_messages repr2 tree (document_path e) (field e) e)
      as [t | x t]; [| reflexivity].
    destruct (definitions_errors e) as [[buckets |] |] eqn:Hd; try reflexivity.
    apply for_errors_ext. intros t1 [i b] Hb. cbn [snd].
    apply for_errors_ext. intros t2 c Hin.
    apply in_map_iff in Hin as ([k c'] & Heq & Hin). simpl in Heq. subst c'.
    pose proof (prints_no_errors_buckets self_messages e buckets He Hd i b (k, c)
                  Hb Hin) as Hc.
    apply insert_child_two_runs; [exact Hc | apply IHl, Hc | apply IHg, Hc].
  - destruct (let! c := child_errors e in iterate c) as [children |] eqn:Hch;
      [| reflexivity].
    assert (Hall : Forall (prints_no_errors self_messages) children).
    { destruct (child_errors e) as [c |] eqn:Hc; simpl in Hch; [| discriminate].
      eapply prints_no_errors_children; eassumption. }
    rewrite Forall_forall in Hall.
    apply for_errors_ext. intros t2 c Hin.
    assert (Hc : prints_no_errors self_messages c)
      by (apply Hall, list_elem_of_In, Hin).
    apply insert_child_two_runs; [exact Hc | apply IHl, Hc | apply IHg, Hc].
Qed.

Lemma add_within_two_runs depth tree (e : ValidationError) :
  prints_no_errors self_messages e ->
  add_within self_messages repr1 copy_frames depth tree e
  = add_within self_messages repr2 copy_frames depth tree e.
Proof.
  intros He. unfold add_within. rewrite deepcopy_within_spec.
  destruct (nesting e <? depth / copy_frames)%nat; [| reflexivity].
  destruct (_rewrite_error_path depth e 0) as [e' |] eqn:Hr; [| reflexivity].
  pose proof (proj1 (rewrite_prints_no_errors self_messages depth) e e' 0 He Hr)
    as He'.
  unfold insert.
  destruct (is_logic_error e') eqn:El;
    [apply insert_errors_two_runs; [exact He' | exact El] |].
  destruct (is_group_error e') eqn:Eg; [apply insert_errors_two_runs, He' |].
  destruct (dict_has (code e') self_messages); [| reflexivity].
  apply insert_message_two_runs.
  inversion He' as [e0 [[_ Habs] | Hp] _]; subst; [congruence | exact Hp].
Qed.

End TwoRuns.

(** [add] on an error object leaves the objects that were there. *)
Lemma store_add_keeps
    (self_messages : dict Z template)
    (repr_errors : list ValidationError -> string)
    (depth : nat) (tree : report) (error : Store.loc) (h : Store.heap) :
  take (length h)
    (fst (Store.add self_messages repr_errors depth tree error h)) = h.
Proof.
  unfold Store.add.
  pose proof (StoreFacts.keeps_deepcopy (length h) depth [] error) as Hcopy.
  specialize (Hcopy ltac:(intros x y; discriminate) h (Nat.le_refl _)
                (StoreFacts.closed_above_length h)).
  destruct (Store.deepcopy depth [] error h) as [h1 [[memo y] | x]];
    destruct Hcopy as (Ht1 & Hl1 & Hc1 & Hy).
  2:{ simpl. rewrite Ht1. apply firstn_all. }
  simpl in Hy. destruct Hy as [_ Hy]. simpl snd.
  pose proof (StoreFacts.keeps_rewrite (length h) depth) as (Hrw & _ & _).
  specialize (Hrw y 0 Hy h1 Hl1 Hc1).
  destruct (Store._rewrite_error_path depth y 0 h1) as [h2 r].
  destruct Hrw as (Ht2 & _).
  assert (take (length h) h2 = h) as Hh2.
  { rewrite Ht2, Ht1. apply firstn_all. }
  destruct r as [[] | x]; [| exact Hh2].
  destruct (Store.snapshot depth h2 y); exact Hh2.
Qed.

Lemma store_extend_keeps
    (self_messages : dict Z template)
    (repr_errors : list ValidationError -> string)
    (depth : nat) (errors : list Store.loc) :
  forall (tree : report) (h : Store.heap),
    take (length h)
      (fst (Store.extend self_messages repr_errors depth tree errors h)) = h.
Proof.
  induction errors as [| error errors IH]; intros tree h; cbn [Store.extend].
  - apply firstn_all.
  - pose proof (store_add_keeps self_messages repr_errors depth tree error h) as Ha.
    destruct (Store.add self_messages repr_errors depth tree error h)
      as [h1 [tree1 | x tree1]]; cbn [fst] in Ha; [| exact Ha].
    assert (Hlen : (length h <= length h1)%nat).
    { rewrite <- Ha at 1. rewrite length_take. lia. }
    specialize (IH tree1 h1). cbn [fst].
    rewrite <- Ha at 2. rewrite <- IH at 2.
    rewrite take_take. f_equal. lia.
Qed.

(** C7 (amended).  A second call of the handler on the same errors
    returns what the first call returned and leaves the handler's tree
    as the first call left it, when no message that is formatted prints
    a list of errors: the call starts by clearing the tree, and the
    rest of a message does not depend on where the copies of the errors
    are in memory, which is what the text of a list of errors shows.
    And the errors are the same for the second call: whatever the call
    does, the objects that existed before it are the same afterwards,
    attribute for attribute. *)
Theorem second_call_same_report
    (self_messages : dict Z template)
    (repr1 repr2 : list ValidationError -> string)
    (copy_frames depth : nat) (tree : report) (errors : list ValidationError) :
  Forall (prints_no_errors self_messages) errors ->
  call_within self_messages repr2 copy_frames depth
    (fst (call_within self_messages repr1 copy_frames depth tree errors)) errors
  = call_within self_messages repr1 copy_frames depth tree errors /\
  forall (limit : nat) (objects : list Store.loc) (h : Store.heap),
    take (length h)
      (fst (Store.__call__ self_messages repr1 limit tree objects h)) = h.
Proof.
  intros Hall. split.
  - unfold call_within, clear, extend_within.
    rewrite (for_errors_ext (add_within self_messages repr2 copy_frames depth)
               (add_within self_messages repr1 copy_frames depth)); [reflexivity |].
    intros t e Hin. symmetry. apply add_within_two_runs.
    rewrite Forall_forall in Hall. apply Hall, list_elem_of_In, Hin.
  - intros limit objects h. unfold Store.__call__.
    pose proof (store_extend_keeps self_messages repr1 limit objects
                  (clear tree) h) as Hk.
    destruct (Store.extend self_messages repr1 limit (clear tree) objects h)
      as [h1 [tree1 | x tree1]]; exact Hk.
Qed.

Lemma prints_no_errors_anyof_error : prints_no_errors messages anyof_error.
Proof.
  constructor.
  - right. intros t [= <-]. repeat constructor.
  - intros cs rest [= <- <-]. unfold anyof_children.
    repeat (apply List.Forall_cons;
            [constructor;
             [right; intros t [= <-]; repeat constructor
             | intros cs rest; discriminate] |]).
    apply List.Forall_nil.
Qed.

Lemma second_call_same_report_witness :
  call_within messages (repr_at "0x7f2a") 9 20
    (fst (call_within messages (repr_at "0x7f1b") 9 20 one_message_tree
            [anyof_error]))
    [anyof_error]
  = call_within messages (repr_at "0x7f1b") 9 20 one_message_tree [anyof_error] /\
  forall (limit : nat) (objects : list Store.loc) (h : Store.heap),
    take (length h)
      (fst (Store.__call__ messages (repr_at "0x7f1b") limit one_message_tree
              objects h)) = h.
Proof.
  apply (second_call_same_report messages (repr_at "0x7f1b") (repr_at "0x7f2a") 9 20
           one_message_tree [anyof_error]).
  constructor; [apply prints_no_errors_anyof_error | constructor].
Defined.

(** C7, as stated, fails for an error whose message prints a list of
    errors: the text shows the address of the copy that the call makes
    of each error of the list, and the copies of the second call need
    not be where those of the first call were. *)
Lemma second_call_prints_other_addresses :
  snd (call_within messages (repr_at "0x7f1b") 9 20 [] [custom_with_errors])
    = Ok [(SStr "a", [Msg "[ValidationError @ 0x7f1b ( ... )]"%string])] /\
  snd (call_within messages (repr_at "0x7f2a") 9 20
         (fst (call_within messages (repr_at "0x7f1b") 9 20 []
                 [custom_with_errors]))
         [custom_with_errors])
    = Ok [(SStr "a", [Msg "[ValidationError @ 0x7f2a ( ... )]"%string])].
Proof. split; reflexivity. Qed.




(** ** Errors that [add] takes without raising, and the depth left *)





(** [add] raises [RecursionError], and leaves the tree as it was, when
    the recursion depth left has no room for the nesting of the error,
    at [copy_frames] frames a level: the deep copy, which comes first,
    goes through every list of errors in [info]. *)
Theorem add_raises_RecursionError_beyond_depth
    (self_messages : dict Z template)
    (repr_errors : list ValidationError -> string)
    (copy_frames depth : nat) (tree : report) (e : ValidationError) :
  (0 < copy_frames)%nat ->
  (depth / copy_frames <= nesting e)%nat ->
  add_within self_messages repr_errors copy_frames depth tree e
  = Failed RecursionError tree.
Proof.
  intros _ Hn. unfold add_within. rewrite deepcopy_within_spec.
  destruct (Nat.ltb_spec (nesting e) (depth / copy_frames)); [lia | reflexivity].
Qed.

Lemma add_raises_RecursionError_beyond_depth_witness :
  add_within messages (fun _ => ""%string) 9 10 one_message_tree anyof_error
  = Failed RecursionError one_message_tree.
Proof.
  apply (add_raises_RecursionError_beyond_depth messages (fun _ => ""%string) 9 10
           one_message_tree anyof_error).
  - lia.
  - vm_compute. lia.
Defined.
